(** * Memory game (script.js): a shallow embedding and its verification

    The program is one browser script: a module-level [gameState] object,
    card elements of the DOM, [localStorage], and callbacks registered with
    [setTimeout] and [setInterval].  The embedding keeps that shape:

    - JavaScript arrays are lists of slots, a slot being [Some v] or [None]
      for [undefined]; arrays live in a store and are named by locations, so
      that copying ([[...array]]) and mutating in place are distinguishable;
    - [Math.random] is an oracle [rnd : nat -> Q], the value of the k-th call,
      together with a counter of the calls made so far;
    - DOM card elements live in a heap of their own and are named by their
      allocation index; their [classList] is an ordered token list;
    - the callbacks handed to [setTimeout] form a list of pending tasks, the
      intervals created by [setInterval] a list of live handles;
    - [localStorage] is a finite map from strings to strings.

    Counters ([moves], [timer], [matchedPairs]) are JavaScript numbers that
    start at 0 and only ever grow by [++]; they are modelled by [N], which is
    exact for doubles below 2^53.  The attempt number is seeded from
    [localStorage] and so can be any whole double, an infinity or [NaN]; it
    and the product [Math.random() * (i + 1)] are computed as binary64
    computes them, with rounding to nearest, ties to even.  A string holds
    the UTF-8 encoding of the JavaScript string; its length is counted in
    UTF-16 code units and white space is the white space of ECMAScript
    ([trim], [parseInt] and the class [\s] agree on it).  Rendering (text
    contents, sections shown or hidden, the leaderboard) is left out, except
    for the completion modal and the score posted to the scoring service. *)

From Stdlib Require Import QArith Qround Ascii String.
From stdpp Require Import base numbers list strings gmap pretty.

Local Open Scope nat_scope.

(** ** JavaScript arrays *)

Section JsArray.
Context {A : Type}.

(** [a[i]] as an rvalue: [undefined] outside the array. *)
Definition js_get (a : list (option A)) (i : nat) : option A :=
  mjoin (a !! i).

(** [a[i] = v]: inside the array the slot is overwritten; outside, the
    array grows up to index [i] and the new slots in between are holes. *)
Definition js_set (a : list (option A)) (i : nat) (v : option A)
  : list (option A) :=
  if decide (i < length a) then <[i:=v]> a
  else a ++ replicate (i - length a) None ++ [v].

(** [a.push(v1, ..., vn)] *)
Definition js_push (a : list (option A)) (vs : list A) : list (option A) :=
  a ++ (Some <$> vs).

(** The array store: location [l] names the [l]-th array allocated. *)
Definition store_get (σ : list (list (option A))) (l : nat)
  : list (option A) :=
  default [] (σ !! l).

Definition store_alloc (σ : list (list (option A))) (a : list (option A))
  : list (list (option A)) * nat :=
  (σ ++ [a], length σ).

(** [[σ[l][i], σ[l][j]] = [σ[l][j], σ[l][i]]]: the right-hand side is
    evaluated first, then the two assignments run left to right. *)
Definition store_swap (σ : list (list (option A))) (l i j : nat)
  : list (list (option A)) :=
  let vj := js_get (store_get σ l) j in
  let vi := js_get (store_get σ l) i in
  let σ1 := <[l := js_set (store_get σ l) i vj]> σ in
  <[l := js_set (store_get σ1 l) j vi]> σ1.
End JsArray.

(** ** Floating point *)

(** The non-negative finite doubles are the whole multiples [X * 2^-1074]
    whose numerator [X] has at most 53 significant bits (and lies below
    2^2098).  [round53 X] is the nearest numerator of that kind to the whole
    number [X], a tie going to the one with an even 53-bit significand:
    the rounding of binary64 arithmetic, before overflow. *)
Definition round53 (X : Z) : Z :=
if (X <? 2 ^ 53)%Z then X
else
  let s := (Z.log2 X - 52)%Z in
  let q := (X `div` 2 ^ s)%Z in
  let r := (X `mod` 2 ^ s)%Z in
  let half := (2 ^ (s - 1))%Z in
  if (r <? half)%Z then (q * 2 ^ s)%Z
  else if (half <? r)%Z then ((q + 1) * 2 ^ s)%Z
  else if Z.even q then (q * 2 ^ s)%Z
  else ((q + 1) * 2 ^ s)%Z.

(** A number below 1 in units of 2^-1074, the smallest positive double. *)
Definition ulps (r : Q) : Z :=
((Qnum r * 2 ^ 1074) `div` Z.pos (Qden r))%Z.

(** The rational is a double. *)
Definition is_double (r : Q) : bool :=
((Qnum r * 2 ^ 1074) `mod` Z.pos (Qden r) =? 0)%Z
&& (round53 (ulps r) =? ulps r)%Z.

(** ** shuffleArray *)

(** [Math.floor(r * (i + 1))] for a draw [r] of [Math.random()]: the
    product is the binary64 product, the exact one rounded.  ([i + 1] is
    exact, an array index being below 2^32.) *)
Definition random_index (r : Q) (i : nat) : nat :=
Z.to_nat (round53 (ulps r * Z.of_nat (i + 1)) `div` 2 ^ 1074).

(** The contract of [Math.random]: every draw is a double in [0, 1). *)
Definition unit_draws (rnd : nat → Q) : Prop :=
∀ k, is_double (rnd k) = true ∧ (0 <= rnd k)%Q ∧ (rnd k < 1)%Q.

Section Shuffle.
Context {A : Type}.
Variable rnd : nat → Q.

(** [for (let i = ...; i > 0; i--) { j = ...; swap }], entered with the
    loop variable equal to [i], with [k] calls of [Math.random] made so
    far.  Returns the store and the number of calls made. *)
Fixpoint shuffle_loop (i k : nat) (σ : list (list (option A)))
    (shuffled : nat) : list (list (option A)) * nat :=
  match i with
  | 0 => (σ, k)
  | S i' =>
      let j := random_index (rnd k) i in
      shuffle_loop i' (S k) (store_swap σ shuffled i j) shuffled
  end.

(** [shuffleArray(array)]: returns the store, the location of the
    result and the number of calls of [Math.random] made. *)
Definition shuffleArray (k : nat) (σ : list (list (option A)))
    (array : nat) : list (list (option A)) * nat * nat :=
  let '(σ1, shuffled) := store_alloc σ (store_get σ array) in
  let '(σ2, k') :=
    shuffle_loop (length (store_get σ1 shuffled) - 1) k σ1 shuffled in
  (σ2, shuffled, k').
End Shuffle.

(** ** JavaScript numbers and strings *)

(** The values [gameState.currentPlayer.attempt] can take: [parseInt] gives
    a whole double, an infinity or [NaN], and adding 1 keeps it so.  [Num z]
    is the double of value [z]; the two zeros, which adding 1 and printing
    do not tell apart, are both [Num 0]. *)
Inductive jsnum :=
| NaN
| Num (z : Z)
| Infinity (negative : bool).

Global Instance jsnum_eq_dec : EqDecision jsnum.
Proof. solve_decision. Defined.

(** The double nearest to a whole number. *)
Definition to_double (z : Z) : jsnum :=
let m := round53 (Z.abs z) in
if (m <? 2 ^ 1024)%Z then Num (Z.sgn z * m) else Infinity (z <? 0)%Z.

(** [x + 1] and [x++] *)
Definition js_succ (x : jsnum) : jsnum :=
match x with
| Num z => to_double (z + 1)
| _ => x
end.

(** The digits [toString] prints for the double [a] with the last [p] of
    them 0, if a decimal of that kind reads back as [a]: of the two
    candidates around [a] the nearer one, the even one on a tie. *)
Definition shortest_at (a : Z) (p : nat) : option Z :=
let unit := (10 ^ Z.of_nat p)%Z in
let lo := (a `div` unit * unit)%Z in
let hi := (lo + unit)%Z in
let back c := bool_decide (to_double c = Num a) in
match back lo, back hi with
| true, true =>
    Some (if (a - lo <? hi - a)%Z then lo
          else if (hi - a <? a - lo)%Z then hi
          else if Z.even (a `div` unit) then lo else hi)
| true, false => Some lo
| false, true => Some hi
| false, false => None
end.

(** The whole number with the fewest significant digits that reads back
    as the positive double [a]. *)
Definition shortest (a : Z) : Z :=
let n := String.length (pretty a) in
default a (head (omap (λ k, shortest_at a (n - k)) (seq 1 n))).

Fixpoint strip_zeros (fuel : nat) (v : Z) : Z :=
match fuel with
| S fuel' =>
    if (v `mod` 10 =? 0)%Z then strip_zeros fuel' (v `div` 10)%Z else v
| 0 => v
end.

(** Plain digits below 10^21, and from there on one digit, the further
    digits behind a point, and the exponent. *)
Definition format_decimal (v : Z) : string :=
if (v <? 10 ^ 21)%Z then pretty v
else
  let n := String.length (pretty v) in
  match pretty (strip_zeros n v) with
  | String d "" => String d "" +:+ "e+" +:+ pretty (n - 1)
  | String d rest => String d "." +:+ rest +:+ "e+" +:+ pretty (n - 1)
  | "" => ""
  end.

(** [x.toString()] *)
Definition toString (x : jsnum) : string :=
match x with
| NaN => "NaN"
| Infinity false => "Infinity"
| Infinity true => "-Infinity"
| Num 0 => "0"
| Num (Z.pos p) => format_decimal (shortest (Z.pos p))
| Num (Z.neg p) => "-" +:+ format_decimal (shortest (Z.pos p))
end.

(** White space as [trim], [parseInt] and the regular expression class
    [\s] see it: TAB, LF, VT, FF, CR, SP, U+00A0, U+1680, U+2000 to U+200A,
    U+2028, U+2029, U+202F, U+205F, U+3000 and U+FEFF.  [space_width s] is
    the number of bytes of the white-space character the string starts
    with, and 0 if it starts with none. *)
Definition space_width (s : string) : nat :=
match s with
| String c1 s1 =>
    let b1 := N_of_ascii c1 in
    if ((9 <=? b1) && (b1 <=? 13) || (b1 =? 32))%N then 1
    else if (b1 =? 194)%N then
      match s1 with
      | String c2 _ => if (N_of_ascii c2 =? 160)%N then 2 else 0
      | _ => 0
      end
    else if ((b1 =? 225) || (b1 =? 226) || (b1 =? 227) || (b1 =? 239))%N then
      match s1 with
      | String c2 (String c3 _) =>
          let b2 := N_of_ascii c2 in
          let b3 := N_of_ascii c3 in
          if ((b1 =? 225) && (b2 =? 154) && (b3 =? 128)
              || (b1 =? 226) && (b2 =? 128)
                 && ((128 <=? b3) && (b3 <=? 138)
                     || (b3 =? 168) || (b3 =? 169) || (b3 =? 175))
              || (b1 =? 226) && (b2 =? 129) && (b3 =? 159)
              || (b1 =? 227) && (b2 =? 128) && (b3 =? 128)
              || (b1 =? 239) && (b2 =? 187) && (b3 =? 191))%N
          then 3 else 0
      | _ => 0
      end
    else 0
| EmptyString => 0
end.

Fixpoint trim_start (s : string) : string :=
match s with
| String _ s1 =>
    match space_width s with
    | 1 => trim_start s1
    | 2 => match s1 with String _ s2 => trim_start s2 | _ => s end
    | 3 => match s1 with String _ (String _ s3) => trim_start s3 | _ => s end
    | _ => s
    end
| EmptyString => EmptyString
end.

(** What is left once the white space at the end is gone: the string is
    cut where nothing but white space follows. *)
Fixpoint trim_end (s : string) : string :=
match s with
| String c s1 =>
    if String.eqb (trim_start s) "" then "" else String c (trim_end s1)
| EmptyString => EmptyString
end.

(** [s.trim()] *)
Definition trim (s : string) : string := trim_end (trim_start s).

(** [s.length]: the number of UTF-16 code units, one for each character
    of up to three bytes and two for each character of four. *)
Fixpoint utf16_length (s : string) : nat :=
match s with
| String c s' =>
    let b := N_of_ascii c in
    (if (b <? 128)%N || (192 <=? b)%N && (b <? 240)%N then 1
     else if (240 <=? b)%N then 2 else 0) + utf16_length s'
| EmptyString => 0
end.

(** The value of a digit in radix [radix], if it is one. *)
Definition digit_value (radix : N) (c : ascii) : option N :=
let n := N_of_ascii c in
let v :=
  if (48 <=? n)%N && (n <=? 57)%N then Some (n - 48)%N
  else if (97 <=? n)%N && (n <=? 122)%N then Some (n - 87)%N
  else if (65 <=? n)%N && (n <=? 90)%N then Some (n - 55)%N
  else None in
match v with
| Some d => if (d <? radix)%N then Some d else None
| None => None
end.

(** Reads the longest prefix of digits; [acc] is [None] until the first
    digit has been read. *)
Fixpoint parse_digits (radix : N) (s : string) (acc : option N) : option N :=
match s with
| String c s' =>
    match digit_value radix c with
    | Some d => parse_digits radix s' (Some (default 0 acc * radix + d))%N
    | None => acc
    end
| EmptyString => acc
end.

(** [parseInt(s)], called without a radix: the digits read give a whole
    number, and the result is the double nearest to it. *)
Definition parseInt (s : string) : jsnum :=
let s1 := trim_start s in
let '(neg, s2) :=
  match s1 with
  | String "-"%char s' => (true, s')
  | String "+"%char s' => (false, s')
  | _ => (false, s1)
  end in
let '(radix, s3) :=
  match s2 with
  | String "0"%char (String "x"%char s') => (16, s')
  | String "0"%char (String "X"%char s') => (16, s')
  | _ => (10, s2)
  end%N in
match parse_digits radix s3 None with
| Some n => to_double (if neg : bool then - Z.of_N n else Z.of_N n)
| None => NaN
end.

(** [/^[^\s@]+@[^\s@]+\.[^\s@]+$/.test(email)]: no white space, one [@]
    with something before it, and after it a dot that is neither the first
    nor the last character of that part.  [plain_chars s]: no white-space
    character and no [@] starts anywhere in [s]. *)
Fixpoint plain_chars (s : string) : bool :=
match s with
| String c s' =>
    Nat.eqb (space_width s) 0 && negb (Ascii.eqb c "@"%char) && plain_chars s'
| EmptyString => true
end.

Fixpoint split_at (s : string) : option (string * string) :=
match s with
| String c s' =>
    if Ascii.eqb c "@"%char then Some (EmptyString, s')
    else prod_map (String c) id <$> split_at s'
| EmptyString => None
end.

Fixpoint inner_dot (s : string) : bool :=
match s with
| String _ (String c s' as t) =>
    (Ascii.eqb c "."%char && negb (String.eqb s' "")) || inner_dot t
| _ => false
end.

Definition isValidEmail (email : string) : bool :=
match split_at email with
| Some (loc, dom) =>
    negb (String.eqb loc "") && plain_chars loc
    && plain_chars dom && inner_dot dom
| None => false
end.

(** ** The DOM: card elements *)

(** A card element: its class tokens and its [dataset]. *)
Record Element := mkElement {
  classList : list string;
  cardType : string;
  cardIndex : nat;
}.

(** [classList.contains(c)] *)
Definition contains (c : string) (e : Element) : bool :=
bool_decide (c ∈ classList e).

(** [classList.add(c)]: a token list holds every token once. *)
Definition class_add (c : string) (e : Element) : Element :=
mkElement (if contains c e then classList e else classList e ++ [c])
  (cardType e) (cardIndex e).

(** [classList.remove(c1, ..., cn)] *)
Definition class_remove (cs : list string) (e : Element) : Element :=
mkElement (filter (λ c, c ∉ cs) (classList e)) (cardType e) (cardIndex e).

(** The state of a card as the player sees it. *)
Inductive CardState := hidden | revealed | matched.

Global Instance CardState_eq_dec : EqDecision CardState.
Proof. solve_decision. Defined.

Definition card_state (e : Element) : CardState :=
if contains "matched" e then matched
else if contains "flipped" e then revealed
else hidden.

(** ** The game state and the browser around it *)

Record Player := mkPlayer {
  nickname : string;
  email : string;
  attempt : jsnum;
}.

(** An entry of [gameState.flippedCards]; [element] is a reference into
    the element heap. *)
Record Flipped := mkFlipped {
  element : nat;
  index : nat;
  type : string;
}.

Record GameState := mkGameState {
  cards : nat;
  flippedCards : list Flipped;
  matchedPairs : N;
  moves : N;
  timer : N;
  isGameActive : bool;
  timerInterval : option nat;
  currentPlayer : Player;
}.

(** The callbacks handed to [setTimeout]. *)
Inductive Task :=
| TCheckForMatch
| TCompleteGame
| TFlipBack (card1 card2 : nat).

(** The body [submitScore] posts to the scoring service. *)
Record Score := mkScore {
  score_nickname : string;
  score_email : string;
  score_attempt : jsnum;
  tries : N;
  seconds : N;
}.

Record World := mkWorld {
  gameState : GameState;
  arrays : list (list (option string));
  elems : list Element;
  gameGrid : list nat;
  pending : list Task;
  intervals : list nat;
  nextHandle : nat;
  localStorage : gmap string string;
  randomCalls : nat;
  gameCompleteModal : bool;
  posted : list Score;
}.

(** Field updates. *)
Definition set_gameState (f : GameState → GameState) (w : World) : World :=
mkWorld (f (gameState w)) (arrays w) (elems w) (gameGrid w) (pending w)
  (intervals w) (nextHandle w) (localStorage w) (randomCalls w)
  (gameCompleteModal w) (posted w).

Definition set_elems (f : list Element → list Element) (w : World) : World :=
mkWorld (gameState w) (arrays w) (f (elems w)) (gameGrid w) (pending w)
  (intervals w) (nextHandle w) (localStorage w) (randomCalls w)
  (gameCompleteModal w) (posted w).

Definition set_pending (f : list Task → list Task) (w : World) : World :=
mkWorld (gameState w) (arrays w) (elems w) (gameGrid w) (f (pending w))
  (intervals w) (nextHandle w) (localStorage w) (randomCalls w)
  (gameCompleteModal w) (posted w).

Definition set_localStorage (f : gmap string string → gmap string string)
  (w : World) : World :=
mkWorld (gameState w) (arrays w) (elems w) (gameGrid w) (pending w)
  (intervals w) (nextHandle w) (f (localStorage w)) (randomCalls w)
  (gameCompleteModal w) (posted w).

Definition set_gameCompleteModal (b : bool) (w : World) : World :=
mkWorld (gameState w) (arrays w) (elems w) (gameGrid w) (pending w)
  (intervals w) (nextHandle w) (localStorage w) (randomCalls w) b (posted w).

Definition set_posted (f : list Score → list Score) (w : World) : World :=
mkWorld (gameState w) (arrays w) (elems w) (gameGrid w) (pending w)
  (intervals w) (nextHandle w) (localStorage w) (randomCalls w)
  (gameCompleteModal w) (f (posted w)).

Definition set_flippedCards (f : list Flipped → list Flipped)
  (g : GameState) : GameState :=
mkGameState (cards g) (f (flippedCards g)) (matchedPairs g) (moves g)
  (timer g) (isGameActive g) (timerInterval g) (currentPlayer g).

Definition set_matchedPairs (f : N → N) (g : GameState) : GameState :=
mkGameState (cards g) (flippedCards g) (f (matchedPairs g)) (moves g)
  (timer g) (isGameActive g) (timerInterval g) (currentPlayer g).

Definition set_moves (f : N → N) (g : GameState) : GameState :=
mkGameState (cards g) (flippedCards g) (matchedPairs g) (f (moves g))
  (timer g) (isGameActive g) (timerInterval g) (currentPlayer g).

Definition set_timer (f : N → N) (g : GameState) : GameState :=
mkGameState (cards g) (flippedCards g) (matchedPairs g) (moves g)
  (f (timer g)) (isGameActive g) (timerInterval g) (currentPlayer g).

Definition set_isGameActive (b : bool) (g : GameState) : GameState :=
mkGameState (cards g) (flippedCards g) (matchedPairs g) (moves g)
  (timer g) b (timerInterval g) (currentPlayer g).

Definition set_currentPlayer (f : Player → Player) (g : GameState)
  : GameState :=
mkGameState (cards g) (flippedCards g) (matchedPairs g) (moves g)
  (timer g) (isGameActive g) (timerInterval g) (f (currentPlayer g)).

(** [const CARD_TYPES] *)
Definition CARD_TYPES : list string :=
["1"; "2"; "3"; "4"; "5"; "6"; "7"; "8"].

(** The module-level initial value of [gameState]; [cards: []] is the
    first array of the store. *)
Definition initialGameState : GameState :=
mkGameState 0 [] 0 0 0 false None (mkPlayer "" "" (Num 1)).

(** The page as the script finds it: no card in the grid, nothing
    scheduled, the completion modal closed; [localStorage] is whatever the
    browser kept from earlier visits. *)
Definition initialWorld (storage : gmap string string) : World :=
mkWorld initialGameState [[]] [] [] [] [] 1 storage 0 false [].

(** An element read through a reference; references are never dangling,
    elements being created and never freed. *)
Definition elem (w : World) (e : nat) : Element :=
default (mkElement [] "" 0) (elems w !! e).

(** The deck [gameState.cards] refers to. *)
Definition deck (w : World) : list (option string) :=
store_get (arrays w) (cards (gameState w)).

(** ** Timer *)

(** [startTimer]: [setInterval] hands out a fresh non-zero handle. *)
Definition startTimer (w : World) : World :=
let h := nextHandle w in
let g := gameState w in
mkWorld
  (mkGameState (cards g) (flippedCards g) (matchedPairs g) (moves g)
     (timer g) (isGameActive g) (Some h) (currentPlayer g))
  (arrays w) (elems w) (gameGrid w) (pending w)
  (intervals w ++ [h]) (S h) (localStorage w) (randomCalls w)
  (gameCompleteModal w) (posted w).

(** [stopTimer]: [if (gameState.timerInterval)] holds for every handle
    but 0, which [setInterval] never hands out. *)
Definition stopTimer (w : World) : World :=
match timerInterval (gameState w) with
| Some (S _ as h) =>
    let g := gameState w in
    mkWorld
      (mkGameState (cards g) (flippedCards g) (matchedPairs g) (moves g)
         (timer g) (isGameActive g) None (currentPlayer g))
      (arrays w) (elems w) (gameGrid w) (pending w)
      (filter (λ h', h' ≠ h) (intervals w)) (nextHandle w) (localStorage w)
      (randomCalls w) (gameCompleteModal w) (posted w)
| _ => w
end.

(** The callback of the interval: [gameState.timer++]. *)
Definition tick (w : World) : World :=
set_gameState (set_timer N.succ) w.

(** ** Dealing *)

(** [createCardElement(cardType, index)]; an [undefined] card type would be
    stored in the [dataset] as the string "undefined". *)
Definition createCardElement (cardType : option string) (index : nat)
  : Element :=
mkElement ["card"] (default "undefined" cardType) index.

(** The pairs [generateCards] builds: [cardPairs.push(cardType, cardType)]
    for each card type in turn, on an array that starts empty. *)
Definition cardPairs : list (option string) :=
foldl (λ a cardType, js_push a [cardType; cardType]) [] CARD_TYPES.

Section Game.
Variable rnd : nat → Q.

(** [generateCards]: the pairs, their shuffle, and a fresh card element
    per slot of the shuffled array, which replace the children of the grid.
    (The shuffled array has no hole when the draws are in range; a slot
    that reads [undefined] is dealt as such.) *)
Definition generateCards (w : World) : World :=
let '(σ1, pairs) := store_alloc (arrays w) cardPairs in
let '(σ2, shuffled, k) := shuffleArray rnd (randomCalls w) σ1 pairs in
let g := gameState w in
let fresh := imap (λ i c, createCardElement c i) (store_get σ2 shuffled) in
mkWorld
  (mkGameState shuffled (flippedCards g) (matchedPairs g) (moves g)
     (timer g) (isGameActive g) (timerInterval g) (currentPlayer g))
  σ2 (elems w ++ fresh) (seq (length (elems w)) (length fresh))
  (pending w) (intervals w) (nextHandle w) (localStorage w) k
  (gameCompleteModal w) (posted w).

(** [startGame] *)
Definition startGame (w : World) : World :=
let reset g :=
  mkGameState (cards g) [] 0 0 0 true (timerInterval g) (currentPlayer g) in
startTimer (generateCards (set_gameState reset w)).

(** ** Playing *)

(** [flipCard(cardElement, cardIndex)] *)
Definition flipCard (cardElement cardIndex : nat) (w : World) : World :=
let w1 := set_elems (alter (class_add "flipped") cardElement) w in
let entry :=
  mkFlipped cardElement cardIndex (cardType (elem w1 cardElement)) in
let w2 := set_gameState (set_flippedCards (λ fs, fs ++ [entry])) w1 in
if decide (length (flippedCards (gameState w2)) = 2) then
  set_pending (λ ts, ts ++ [TCheckForMatch])
    (set_gameState (set_moves N.succ) w2)
else w2.

(** [handleCardClick(cardElement, cardIndex)] *)
Definition handleCardClick (cardElement cardIndex : nat) (w : World)
  : World :=
if negb (isGameActive (gameState w))
   || contains "flipped" (elem w cardElement)
   || contains "matched" (elem w cardElement)
   || bool_decide (2 ≤ length (flippedCards (gameState w)))
then w
else flipCard cardElement cardIndex w.

(** [handleMatch(card1, card2)] *)
Definition handleMatch (card1 card2 : nat) (w : World) : World :=
let w1 := set_elems (alter (class_add "matched") card1) w in
let w2 := set_elems (alter (class_add "matched") card2) w1 in
let w3 := set_gameState (set_matchedPairs N.succ) w2 in
if decide (matchedPairs (gameState w3) = 8%N) then
  set_pending (λ ts, ts ++ [TCompleteGame]) w3
else w3.

(** [handleNoMatch(card1, card2)] *)
Definition handleNoMatch (card1 card2 : nat) (w : World) : World :=
let w1 := set_elems (alter (class_add "wrong") card1) w in
let w2 := set_elems (alter (class_add "wrong") card2) w1 in
set_pending (λ ts, ts ++ [TFlipBack card1 card2]) w2.

(** The callback [handleNoMatch] schedules. *)
Definition flipBack (card1 card2 : nat) (w : World) : World :=
let w1 := set_elems (alter (class_remove ["flipped"; "wrong"]) card1) w in
set_elems (alter (class_remove ["flipped"; "wrong"]) card2) w1.

(** [checkForMatch]: with fewer than two flipped cards, reading [.type] of
    [undefined] throws before anything is changed ([None]). *)
Definition checkForMatch (w : World) : option World :=
match flippedCards (gameState w) with
| card1 :: card2 :: _ =>
    let w1 :=
      if String.eqb (type card1) (type card2)
      then handleMatch (element card1) (element card2) w
      else handleNoMatch (element card1) (element card2) w in
    Some (set_gameState (set_flippedCards (λ _, [])) w1)
| _ => None
end.

(** ** Completion and navigation *)

(** [submitScore], up to the request it sends. *)
Definition submitScore (w : World) : World :=
let g := gameState w in
let p := currentPlayer g in
set_posted
  (λ l, l ++ [mkScore (nickname p) (email p) (attempt p) (moves g) (timer g)])
  w.

(** [completeGame] *)
Definition completeGame (w : World) : World :=
let w1 := set_gameState (set_isGameActive false) w in
let w2 := stopTimer w1 in
let w3 := set_gameCompleteModal true w2 in
submitScore w3.

(** [showStartScreen] *)
Definition showStartScreen (w : World) : World :=
let w1 := stopTimer w in
let w2 := set_gameState (set_isGameActive false) w1 in
set_gameCompleteModal false w2.

(** [handleBackToLeaderboard] *)
Definition handleBackToLeaderboard (w : World) : World :=
showStartScreen (set_gameCompleteModal false w).

(** The key under which a player's attempt count is kept. *)
Definition playerKey (nickname email : string) : string :=
nickname +:+ "_" +:+ email.

(** [handleTryAgain] *)
Definition handleTryAgain (w : World) : World :=
let w1 := set_gameCompleteModal false w in
let p := currentPlayer (gameState w1) in
let key := playerKey (nickname p) (email p) in
let w2 :=
  set_gameState
    (set_currentPlayer (λ p, mkPlayer (nickname p) (email p)
                               (js_succ (attempt p)))) w1 in
let w3 :=
  set_localStorage
    (insert key (toString (attempt (currentPlayer (gameState w2))))) w2 in
startGame w3.

(** [handleStartGame], given the values of the two form fields. *)
Definition handleStartGame (nicknameField emailField : string) (w : World)
  : World :=
let nickname := trim nicknameField in
let email := trim emailField in
if bool_decide (utf16_length nickname < 2) then w
else if negb (isValidEmail email) then w
else
  let key := playerKey nickname email in
  let attempt :=
    match localStorage w !! key with
    | Some storedAttempt =>
        if String.eqb storedAttempt "" then Num 1
        else js_succ (parseInt storedAttempt)
    | None => Num 1
    end in
  let w1 :=
    set_gameState (set_currentPlayer (λ _, mkPlayer nickname email attempt))
      w in
  let w2 := set_localStorage (insert key (toString attempt)) w1 in
  startGame w2.

(** ** Events *)

(** What the browser can deliver to the script. *)
Inductive Event :=
| EvSubmit (nicknameField emailField : string)
| EvClickCard (index : nat)
| EvBackToMenu
| EvTryAgain
| EvBackToLeaderboard
| EvTimeout (n : nat)
| EvInterval (h : nat).

Definition runTask (t : Task) (w : World) : World :=
match t with
| TCheckForMatch => default w (checkForMatch w)
| TCompleteGame => completeGame w
| TFlipBack card1 card2 => flipBack card1 card2 w
end.

(** One event: a click reaches the listener of the card at that grid
    position, a timeout runs the [n]-th pending callback, an interval runs
    its callback while it has not been cleared. *)
Definition step (w : World) (ev : Event) : World :=
match ev with
| EvSubmit n e => handleStartGame n e w
| EvClickCard i =>
    match gameGrid w !! i with
    | Some cardElement => handleCardClick cardElement i w
    | None => w
    end
| EvBackToMenu => showStartScreen w
| EvTryAgain => handleTryAgain w
| EvBackToLeaderboard => handleBackToLeaderboard w
| EvTimeout n =>
    match pending w !! n with
    | Some t => runTask t (set_pending (delete n) w)
    | None => w
    end
| EvInterval h => if bool_decide (h ∈ intervals w) then tick w else w
end.

(** Running a list of events in order. *)
Definition run (w : World) (evs : list Event) : World :=
foldl step w evs.
(** ** Vocabulary of the specification *)

(** The guard of [handleCardClick] lets the click through. *)
Definition accepted (cardElement : nat) (w : World) : bool :=
isGameActive (gameState w)
&& bool_decide (card_state (elem w cardElement) = hidden)
&& bool_decide (length (flippedCards (gameState w)) < 2).

(** The form passes the checks of [handleStartGame]. *)
Definition validEntry (nicknameField emailField : string) : bool :=
bool_decide (2 ≤ utf16_length (trim nicknameField))
&& isValidEmail (trim emailField).

(** The event starts a new game. *)
Definition starts_game (ev : Event) : bool :=
match ev with
| EvSubmit n e => validEntry n e
| EvTryAgain => true
| _ => false
end.

(** The event reveals a card while [n] cards are pending. *)
Definition reveals_with (n : nat) (w : World) (ev : Event) : bool :=
match ev with
| EvClickCard i =>
    match gameGrid w !! i with
    | Some cardElement =>
        accepted cardElement w
        && bool_decide (length (flippedCards (gameState w)) = n)
    | None => false
    end
| _ => false
end.

(** A session is completed once [completeGame] has run: the game is
    frozen and the completion modal is up. *)
Definition Completed (w : World) : Prop :=
isGameActive (gameState w) = false ∧ gameCompleteModal w = true.

(** A run in which the player starts a game (from the form or by trying
    again) only while no game is active. *)
Fixpoint orderly (w : World) (evs : list Event) : bool :=
match evs with
| [] => true
| ev :: evs' =>
    (negb (starts_game ev) || negb (isGameActive (gameState w)))
    && orderly (step w ev) evs'
end.
End Game.

(** ** Fisher-Yates, as the specification words it *)

Section FisherYates.
Context {A : Type}.

(** Exchanging the elements at two positions of an array. *)
Definition exchange (a : list (option A)) (i j : nat) : list (option A) :=
<[j := js_get a i]> (<[i := js_get a j]> a).

(** From index [i] down to index 1, each position is exchanged with the
    position the next draw selects at or below it; the draws are those of
    the calls [k], [k + 1], ... of the oracle. *)
Definition fisher_yates_from (rnd : nat → Q) (k i : nat)
  (a : list (option A)) : list (option A) :=
foldl (λ a' '(i, r), exchange a' i (random_index r i)) a
  (zip (reverse (seq 1 i)) (rnd <$> seq k i)).

(** The whole shuffle starts at the last index. *)
Definition fisher_yates (rnd : nat → Q) (k : nat) (a : list (option A))
  : list (option A) :=
fisher_yates_from rnd k (length a - 1) a.
End FisherYates.

(** ** The deck and the in-place reading of the shuffle, as properties *)

(** How often a card occurs in a deck. *)
Definition occurrences (c : option string) (d : list (option string)) : nat :=
length (filter (λ x, x = c) d).

(** Sixteen cards over eight distinct symbols, each symbol twice. *)
Definition paired_deck (d : list (option string)) : Prop :=
length d = 16
∧ NoDup CARD_TYPES ∧ length CARD_TYPES = 8
∧ ∀ c, occurrences c d = if decide (c ∈ Some <$> CARD_TYPES) then 2 else 0.

(** The shuffle works in place on the array it is given: the array
    returned is the one passed in, now holding the shuffle. *)
Definition shuffles_in_place {A : Type} (rnd : nat → Q) (k : nat)
  (σ : list (list (option A))) (array : nat) : Prop :=
let '(σ', shuffled, _) := shuffleArray rnd k σ array in
shuffled = array
∧ store_get σ' array = fisher_yates rnd k (store_get σ array).

(** C5 on a mismatch, read at the moment the resolution runs: both
    pending cards are hidden once [checkForMatch] has returned. *)
Definition mismatch_hides (w : World) : Prop :=
∀ card1 card2 w',
  flippedCards (gameState w) = [card1; card2] →
  type card1 ≠ type card2 →
  checkForMatch w = Some w' →
  card_state (elem w' (element card1)) = hidden
  ∧ card_state (elem w' (element card2)) = hidden.

(** C6, read on states: a session is completed exactly when all eight
    pairs are matched. *)
Definition completed_iff_all_matched (w : World) : Prop :=
Completed w ↔ matchedPairs (gameState w) = 8%N.


(** C9, read on a state: trying again adds exactly 1 to the attempt. *)
Definition retry_adds_one (rnd : nat → Q) (w : World) : Prop :=
∀ n, attempt (currentPlayer (gameState w)) = Num n →
  attempt (currentPlayer (gameState (handleTryAgain rnd w))) = Num (n + 1).

(** C10, read on a state: a count stored under the key of the entry is
    stamped plus 1. *)
Definition stored_count_plus_one (rnd : nat → Q)
  (nicknameField emailField : string) (w : World) : Prop :=
∀ z : Z,
  localStorage w !! playerKey (trim nicknameField) (trim emailField)
  = Some (pretty z) →
  attempt (currentPlayer
             (gameState (handleStartGame rnd nicknameField emailField w)))
  = Num (z + 1).

Global Instance Task_eq_dec : EqDecision Task.
Proof. solve_decision. Defined.

(** The completions waiting among the pending callbacks. *)
Definition completions (w : World) : nat :=
length (filter (λ t, t = TCompleteGame) (pending w)).

(** The discipline of the one-second clock: while a game is active exactly
    one interval is live, the one [gameState.timerInterval] holds; while
    none is active, no interval is live. *)
Definition timer_ok (w : World) : Prop :=
0 < nextHandle w
∧ if isGameActive (gameState w)
  then ∃ h, timerInterval (gameState w) = Some (S h) ∧ intervals w = [S h]
  else timerInterval (gameState w) = None ∧ intervals w = [].

(** ** Sample inputs *)

(** A few draws of [Math.random], repeated ever after by the last: the
    doubles 0.75, 0.2, 0.5, 0, 0.9, 2/3, 1/7 and 1/3. *)
Definition sample_rnd (k : nat) : Q :=
nth k [3 # 4; 3602879701896397 # 18014398509481984; 1 # 2; 0;
       8106479329266893 # 9007199254740992;
       6004799503160661 # 9007199254740992;
       2573485501354569 # 18014398509481984]%Q
  (6004799503160661 # 18014398509481984)%Q.

(** The oracle that always draws 0. *)
Definition zero_rnd (k : nat) : Q := 0%Q.

(** A game dealt with [zero_rnd], whose deck is 1 2 2 3 3 4 4 5 5 6 6 7 7
    8 8 1, with the cards at positions 0 and 1 revealed: a mismatch waiting
    to be resolved. *)
Definition mismatch_world : World :=
run zero_rnd (initialWorld ∅)
  [EvSubmit "ada" "ada@example.org"; EvClickCard 0; EvClickCard 1].

(** The same deal played to the end: the eight pairs are selected one
    after the other, each resolved by its [checkForMatch] callback.  The
    completion callback is pending and has not run. *)
Definition all_matched_world : World :=
run zero_rnd (initialWorld ∅)
  (EvSubmit "ada" "ada@example.org"
   :: flat_map (λ '(i, j), [EvClickCard i; EvClickCard j; EvTimeout 0])
        [(0, 15); (1, 2); (3, 4); (5, 6); (7, 8); (9, 10); (11, 12);
         (13, 14)]).


(** A completed session of a player whose stored count was 2^53 - 1. *)
Definition worn_counter_world : World :=
run zero_rnd
  (initialWorld {["ada_ada@example.org" := "9007199254740991"]})
  (EvSubmit "ada" "ada@example.org"
   :: flat_map (λ '(i, j), [EvClickCard i; EvClickCard j; EvTimeout 0])
        [(0, 15); (1, 2); (3, 4); (5, 6); (7, 8); (9, 10); (11, 12);
         (13, 14)]
   ++ [EvTimeout 0]).

(** ** Display helpers *)

(** [formatTime(seconds)], for the whole numbers of seconds the clock
    counts. *)
Definition formatTime (seconds : N) : string :=
if (seconds <? 60)%N then pretty seconds +:+ "с"
else
  let minutes := (seconds `div` 60)%N in
  let remainingSeconds := (seconds `mod` 60)%N in
  pretty minutes +:+ "х " +:+ pretty remainingSeconds +:+ "с".

(** The object literal [emojiMap] of [getCardEmoji]. *)
Definition emojiMap : gmap string string :=
list_to_map
  [("card-1", "🌟"); ("card-2", "🎯"); ("card-3", "🎨"); ("card-4", "🎵");
   ("card-5", "🏆"); ("card-6", "🌈"); ("card-7", "⚡"); ("card-8", "🔥")].

(** The names an object literal inherits from [Object.prototype]; looking
    one of them up gives a function or an object, never a string. *)
Definition objectPrototype : list string :=
["constructor"; "__defineGetter__"; "__defineSetter__"; "hasOwnProperty";
 "__lookupGetter__"; "__lookupSetter__"; "isPrototypeOf";
 "propertyIsEnumerable"; "toString"; "valueOf"; "__proto__";
 "toLocaleString"].

(** What [getCardEmoji] can return. *)
Inductive Emoji :=
| EmojiString (s : string)
| EmojiInherited (name : string).

(** [getCardEmoji(cardType)]: [emojiMap[cardType] || '🎮']. *)
Definition getCardEmoji (cardType : string) : Emoji :=
match emojiMap !! cardType with
| Some emoji => if String.eqb emoji "" then EmojiString "🎮"
                else EmojiString emoji
| None =>
    if bool_decide (cardType ∈ objectPrototype) then EmojiInherited cardType
    else EmojiString "🎮"
end.

(** ** Vocabulary of the further properties *)

(** A string of decimal digits. *)
Fixpoint digits_only (s : string) : bool :=
match s with
| String c s' => bool_decide (is_Some (digit_value 10 c)) && digits_only s'
| EmptyString => true
end.

(** The event runs a pending callback of the given kind. *)
Definition fires (t : Task) (w : World) (ev : Event) : bool :=
match ev with
| EvTimeout n => bool_decide (pending w !! n = Some t)
| _ => false
end.

(** The score of the session as it stands. *)
Definition currentScore (w : World) : Score :=
let g := gameState w in
let p := currentPlayer g in
mkScore (nickname p) (email p) (attempt p) (moves g) (timer g).

(** The attempt of the current player is the one [localStorage] holds
    under the player's key. *)
Definition attempt_stored (w : World) : Prop :=
let p := currentPlayer (gameState w) in
localStorage w !! playerKey (nickname p) (email p)
= Some (toString (attempt p)).

(** ** The consistency of the page, for the invariants *)

(** The cards the pending flip-back callbacks will turn over. *)
Definition flipBackCards (ts : list Task) : list nat :=
ts ≫= (λ t, match t with TFlipBack card1 card2 => [card1; card2] | _ => [] end).

(** An element of a heap of elements, as [elem] reads it. *)
Definition elem_in (es : list Element) (e : nat) : Element :=
default (mkElement [] "" 0) (es !! e).

(** The matched cards among those of a grid. *)
Definition matched_in (es : list Element) (grid : list nat) : nat :=
length (filter (λ e, card_state (elem_in es e) = matched) grid).

(** What holds together the grid, the elements, the cards awaiting a flip
    back, the pending turn, the two counters and the deck. *)
Definition consistent_parts (grid : list nat) (es : list Element)
  (back : list nat) (fs : list Flipped) (pairs mvs : N)
  (dk : list (option string)) : Prop :=
NoDup grid
∧ Forall (λ e, e < length es) (grid ++ back)
∧ NoDup (back ++ (element <$> fs))
∧ Forall (λ e, card_state (elem_in es e) = revealed) back
∧ Forall (λ c, grid !! index c = Some (element c)
               ∧ type c = cardType (elem_in es (element c))
               ∧ card_state (elem_in es (element c)) = revealed) fs
∧ length fs ≤ 2
∧ N.of_nat (matched_in es grid) = (2 * pairs)%N
∧ (pairs + (if bool_decide (length fs = 2%nat) then 1 else 0) ≤ mvs)%N
∧ (λ e, cardType (elem_in es e)) <$> grid = default "undefined" <$> dk.

Definition consistent (w : World) : Prop :=
consistent_parts (gameGrid w) (elems w) (flipBackCards (pending w))
  (flippedCards (gameState w)) (matchedPairs (gameState w))
  (moves (gameState w)) (deck w).

(** * Verification *)

(** ** Rounding to 53 bits *)

Lemma round53_small X : (X < 2 ^ 53)%Z → round53 X = X.
Proof. intros HX. unfold round53. by rewrite (proj2 (Z.ltb_lt _ _) HX). Qed.

(** From 2^53 on, the rounded number is one of the two multiples of the
    spacing around the number, and no farther from it than half the
    spacing. *)
Lemma round53_large X :
  (2 ^ 53 ≤ X)%Z →
  let P := (2 ^ (Z.log2 X - 52))%Z in
  ∃ m, round53 X = (m * P)%Z
    ∧ (X `div` P ≤ m ≤ X `div` P + 1)%Z
    ∧ (0 < P)%Z ∧ (P * 2 ^ 52 ≤ X < P * 2 ^ 53)%Z
    ∧ (2 * round53 X ≤ 2 * X + P)%Z.
Proof.
  intros HX P.
  assert (0 < X)%Z as Hpos by lia.
  destruct (Z.log2_spec X Hpos) as [Hlo Hhi].
  assert (53 ≤ Z.log2 X)%Z as HL.
  { apply Z.log2_le_pow2; [done|]. exact HX. }
  set (s := (Z.log2 X - 52)%Z) in *.
  assert (Z.log2 X = s + 52)%Z as HLs by lia.
  assert (0 < P)%Z as HP by (apply Z.pow_pos_nonneg; lia).
  assert (P * 2 ^ 52 = 2 ^ Z.log2 X)%Z as HP52.
  { unfold P. rewrite <-Z.pow_add_r by lia. f_equal. lia. }
  assert (P * 2 ^ 53 = 2 ^ Z.succ (Z.log2 X))%Z as HP53.
  { unfold P. rewrite <-Z.pow_add_r by lia. f_equal. lia. }
  assert (P = 2 * 2 ^ (s - 1))%Z as Hhalf.
  { unfold P. rewrite <-Z.pow_succ_r by lia. f_equal. lia. }
  pose proof (Z.div_mod X P ltac:(lia)) as Hdm.
  pose proof (Z.mod_pos_bound X P HP) as Hr.
  unfold round53. rewrite (proj2 (Z.ltb_ge _ _) HX). cbv zeta.
  fold s. fold P.
  set (q := (X `div` P)%Z) in *. set (r := (X `mod` P)%Z) in *.
  set (half := (2 ^ (s - 1))%Z) in *.
  destruct (Z.ltb_spec r half); [|destruct (Z.ltb_spec half r);
    [|destruct (Z.even q)]].
  - exists q. repeat split; lia.
  - exists (q + 1)%Z. repeat split; lia.
  - exists q. repeat split; lia.
  - exists (q + 1)%Z. repeat split; lia.
Qed.

Lemma round53_upper X :
  (2 ^ 53 ≤ X)%Z → (round53 X * 2 ^ 53 ≤ X * 2 ^ 53 + X)%Z.
Proof.
  intros HX.
  destruct (round53_large X HX) as (m & _ & _ & HP & [Hlo _] & Hnear).
  lia.
Qed.

(** ** Draws *)

Lemma ulps_double r :
  is_double r = true → (0 <= r)%Q → (r < 1)%Q →
  (0 ≤ ulps r)%Z
  ∧ (ulps r * 2 ^ 53 ≤ (2 ^ 53 - 1) * 2 ^ 1074)%Z
  ∧ (ulps r * Z.pos (Qden r) = Qnum r * 2 ^ 1074)%Z.
Proof.
  destruct r as [p d]. unfold is_double, ulps, Qle, Qlt. cbn [Qnum Qden].
  intros [Hex Hrd]%andb_true_iff Hp Hd.
  apply Z.eqb_eq in Hex, Hrd.
  assert (2 ^ 106 ≤ 2 ^ 1074)%Z as H106 by (apply Z.pow_le_mono_r; lia).
  assert (∀ s, 0 ≤ s → s + 53 ≤ 1074 → 2 ^ s * 2 ^ 53 ≤ 2 ^ 1074)%Z as Hpow.
  { intros s Hs Hs'. rewrite <-Z.pow_add_r by lia.
    apply Z.pow_le_mono_r; lia. }
  assert (∀ M, 0 < M → M < 2 ^ 1074 → Z.log2 M < 1074)%Z as Hlog.
  { intros M HM HM'. apply Z.log2_lt_pow2; lia. }
  set (E := (2 ^ 1074)%Z) in *.
  assert (0 < E)%Z as HE by (apply Z.pow_pos_nonneg; lia).
  clearbody E.
  pose proof (proj2 (Z.div_exact (p * E) (Z.pos d) ltac:(lia)) Hex) as HM.
  set (M := ((p * E) `div` Z.pos d)%Z) in *.
  assert (0 ≤ M)%Z as HM0 by (apply Z.div_pos; nia).
  clearbody M.
  assert (M < E)%Z as HME by nia.
  split; [done|]. split; [|lia].
  destruct (Z.lt_ge_cases M (2 ^ 53)) as [Hsmall|Hbig]; [lia|].
  destruct (round53_large M Hbig) as (m & Hm & _ & HP & [Hlo Hhi] & _).
  rewrite Hrd in Hm.
  assert (53 ≤ Z.log2 M)%Z by (apply Z.log2_le_pow2; lia).
  specialize (Hlog M ltac:(lia) HME).
  specialize (Hpow (Z.log2 M - 52)%Z ltac:(lia) ltac:(lia)).
  set (P := (2 ^ (Z.log2 M - 52))%Z) in *. clearbody P.
  assert (m ≤ 2 ^ 53 - 1)%Z as Hm53 by nia.
  rewrite Hm. nia.
Qed.

Lemma random_index_le r i :
  is_double r = true → (0 <= r)%Q → (r < 1)%Q → random_index r i ≤ i.
Proof.
  intros Hd H0 H1.
  destruct (ulps_double r Hd H0 H1) as (HM0 & HM & _).
  unfold random_index.
  set (E := (2 ^ 1074)%Z) in *.
  assert (0 < E)%Z as HE by (apply Z.pow_pos_nonneg; lia).
  clearbody E.
  set (M := ulps r) in *. clearbody M. set (n := Z.of_nat (i + 1)).
  assert (1 ≤ n)%Z as Hn by lia.
  assert (M < E)%Z as HME by lia.
  assert (round53 (M * n) < n * E)%Z as Hlt.
  { destruct (Z.lt_ge_cases (M * n) (2 ^ 53)) as [Hsmall|Hbig].
    - rewrite round53_small by done. nia.
    - pose proof (round53_upper (M * n) Hbig) as Hup.
      assert (M * n * 2 ^ 53 ≤ n * ((2 ^ 53 - 1) * E))%Z by nia.
      assert (M * n < n * E)%Z by nia.
      lia. }
  assert (round53 (M * n) `div` E < n)%Z.
  { apply Z.div_lt_upper_bound; lia. }
  lia.
Qed.

(** Below 2^53 the partner is the whole part of the exact product, or
    the next whole number when the product is rounded up to it. *)
Lemma random_index_exact r i :
  is_double r = true → (0 <= r)%Q → (r < 1)%Q →
  (Z.of_nat i < 2 ^ 53)%Z →
  let exact := Z.to_nat (Qfloor (r * inject_Z (Z.of_nat (i + 1)))) in
  exact ≤ random_index r i ≤ exact + 1.
Proof.
  intros Hd H0 H1 Hi.
  destruct (ulps_double r Hd H0 H1) as (HM0 & HM & Hex).
  unfold random_index.
  assert (∀ s, 0 ≤ s ≤ 1074 → 2 ^ 1074 = 2 ^ s * 2 ^ (1074 - s))%Z as Hsplit.
  { intros s Hs. rewrite <-Z.pow_add_r by lia. f_equal. lia. }
  assert (∀ X, 0 < X → X < 2 ^ 53 * 2 ^ 1074 → Z.log2 X < 1074 + 53)%Z
    as Hlog.
  { intros X HX HX'. apply Z.log2_lt_pow2; [lia|].
    rewrite Z.pow_add_r by lia. lia. }
  set (E := (2 ^ 1074)%Z) in *.
  assert (0 < E)%Z as HE by (apply Z.pow_pos_nonneg; lia).
  clearbody E.
  set (M := ulps r) in *. set (n := Z.of_nat (i + 1)).
  assert (1 ≤ n ≤ 2 ^ 53)%Z as Hn by lia.
  assert (M < E)%Z as HME by lia.
  assert (Qfloor (r * inject_Z n) = (M * n) `div` E)%Z as ->.
  { clearbody M. destruct r as [p d].
    unfold Qfloor, Qmult, inject_Z. cbn [Qnum Qden] in *.
    rewrite Pos.mul_1_r.
    pose proof (Z.div_mod (M * n) E ltac:(lia)) as Hdm.
    pose proof (Z.mod_pos_bound (M * n) E HE) as Hr.
    set (j := ((M * n) `div` E)%Z) in *.
    symmetry. apply (Z.div_unique _ _ j (p * n - Z.pos d * j)); [|lia].
    left. split; nia. }
  clearbody M.
  set (X := (M * n)%Z). set (j := (X `div` E)%Z).
  assert (0 ≤ X)%Z as HX0 by (unfold X; nia).
  assert (X < 2 ^ 53 * E)%Z as HXE by (unfold X; nia).
  clearbody X.
  pose proof (Z.div_mod X E ltac:(lia)) as Hdm.
  pose proof (Z.mod_pos_bound X E HE) as Hr. fold j in Hdm.
  assert (0 ≤ j)%Z as Hj by (apply Z.div_pos; lia).
  clearbody j.
  assert (j * E ≤ round53 X ≤ (j + 1) * E)%Z as [Hlo Hhi].
  { destruct (Z.lt_ge_cases X (2 ^ 53)) as [Hsmall|Hbig].
    - rewrite round53_small by done. lia.
    - destruct (round53_large X Hbig)
        as (m & -> & [Hm1 Hm2] & HP & [HPlo HPhi] & _).
      assert (53 ≤ Z.log2 X)%Z by (apply Z.log2_le_pow2; lia).
      specialize (Hlog X ltac:(lia) HXE).
      specialize (Hsplit (Z.log2 X - 52)%Z ltac:(lia)).
      assert (0 < 2 ^ (1074 - (Z.log2 X - 52)))%Z
        by (apply Z.pow_pos_nonneg; lia).
      set (c := (2 ^ (1074 - (Z.log2 X - 52)))%Z) in *. clearbody c.
      set (P := (2 ^ (Z.log2 X - 52))%Z) in *. clearbody P.
      assert (j * c ≤ X `div` P)%Z by (apply Z.div_le_lower_bound; nia).
      assert (X `div` P < (j + 1) * c)%Z by (apply Z.div_lt_upper_bound; nia).
      split; nia. }
  assert (j ≤ round53 X `div` E)%Z by (apply Z.div_le_lower_bound; lia).
  assert (round53 X `div` E ≤ j + 1)%Z.
  { apply Z.div_le_upper_bound; lia. }
  cbv zeta. lia.
Qed.

(** ** Arrays and the store *)

Section ArrayFacts.
Context {A : Type}.
Implicit Types (a : list (option A)) (σ : list (list (option A))).

Lemma js_get_lookup a i v : a !! i = Some v → js_get a i = v.
Proof. unfold js_get. by intros ->. Qed.

Lemma js_set_in_range a i v : i < length a → js_set a i v = <[i:=v]> a.
Proof. unfold js_set. intros. by rewrite decide_True. Qed.

Lemma store_get_insert σ l a : l < length σ → store_get (<[l:=a]> σ) l = a.
Proof. unfold store_get. intros. by rewrite list_lookup_insert_eq. Qed.

Lemma store_get_insert_ne σ l l' a :
  l ≠ l' → store_get (<[l:=a]> σ) l' = store_get σ l'.
Proof. unfold store_get. intros. by rewrite list_lookup_insert_ne. Qed.

Lemma store_get_alloc σ a : store_get (σ ++ [a]) (length σ) = a.
Proof. unfold store_get. by rewrite list_lookup_middle. Qed.

Lemma store_get_alloc_old σ a l :
  l ≠ length σ → store_get (σ ++ [a]) l = store_get σ l.
Proof.
  unfold store_get. intros.
  destruct (decide (l < length σ)).
  - by rewrite lookup_app_l.
  - rewrite !lookup_ge_None_2; [done|lia|rewrite length_app; simpl; lia].
Qed.

Lemma length_exchange a i j : length (exchange a i j) = length a.
Proof. unfold exchange. by rewrite !length_insert. Qed.

(** Inside the array, the two assignments of the swap are an exchange. *)
Lemma store_swap_exchange σ l i j :
  l < length σ →
  i < length (store_get σ l) → j < length (store_get σ l) →
  store_swap σ l i j = <[l := exchange (store_get σ l) i j]> σ.
Proof.
  intros Hl Hi Hj. unfold store_swap, exchange.
  rewrite store_get_insert by done. rewrite list_insert_insert_eq.
  rewrite (js_set_in_range (store_get σ l) i) by done.
  by rewrite js_set_in_range by (by rewrite length_insert).
Qed.

(** An exchange reads every position through a transposition. *)
Lemma exchange_lookup a i j k :
  i < length a → j < length a →
  exchange a i j !! k
  = a !! (if decide (k = i) then j else if decide (k = j) then i else k).
Proof.
  intros Hi Hj. unfold exchange.
  destruct (lookup_lt_is_Some_2 a i Hi) as [x Hx].
  destruct (lookup_lt_is_Some_2 a j Hj) as [y Hy].
  rewrite (js_get_lookup _ _ _ Hx), (js_get_lookup _ _ _ Hy).
  destruct (decide (k = j)) as [->|Hkj].
  - rewrite list_lookup_insert_eq by (by rewrite length_insert).
    by destruct (decide (j = i)) as [->|]; simplify_eq.
  - rewrite list_lookup_insert_ne by done.
    destruct (decide (k = i)) as [->|Hki].
    + by rewrite list_lookup_insert_eq.
    + by rewrite list_lookup_insert_ne.
Qed.

Lemma exchange_Permutation a i j :
  i < length a → j < length a → exchange a i j ≡ₚ a.
Proof.
  intros Hi Hj. apply Permutation_inj. split; [apply length_exchange|].
  exists (λ k, if decide (k = i) then j else if decide (k = j) then i else k).
  split.
  - intros k1 k2. repeat case_decide; congruence.
  - intros k. by apply exchange_lookup.
Qed.
End ArrayFacts.

(** ** The loop of [shuffleArray] is the Fisher-Yates shuffle *)

Section ShuffleFacts.
Context {A : Type}.
Variable rnd : nat → Q.
Hypothesis rnd_unit : unit_draws rnd.
Implicit Types (a : list (option A)) (σ : list (list (option A))).

Lemma fisher_yates_from_0 k a : fisher_yates_from rnd k 0 a = a.
Proof. done. Qed.

Lemma fisher_yates_from_S k i a :
  fisher_yates_from rnd k (S i) a
  = fisher_yates_from rnd (S k) i
      (exchange a (S i) (random_index (rnd k) (S i))).
Proof.
  unfold fisher_yates_from.
  by rewrite seq_S, reverse_snoc.
Qed.

Lemma random_index_in_range k i : random_index (rnd k) i ≤ i.
Proof. destruct (rnd_unit k) as (? & ? & ?). by apply random_index_le. Qed.

Lemma length_fisher_yates_from k i a :
  length (fisher_yates_from rnd k i a) = length a.
Proof.
  revert k a. induction i as [|i IH]; intros k a; [done|].
  by rewrite fisher_yates_from_S, IH, length_exchange.
Qed.

Lemma fisher_yates_from_Permutation k i a :
  i ≤ length a - 1 → fisher_yates_from rnd k i a ≡ₚ a.
Proof.
  revert k a. induction i as [|i IH]; intros k a Hi; [done|].
  rewrite fisher_yates_from_S, IH by (rewrite length_exchange; lia).
  pose proof (random_index_in_range k (S i)).
  apply exchange_Permutation; lia.
Qed.

Lemma shuffle_loop_fisher_yates i k σ l :
  l < length σ → i ≤ length (store_get σ l) - 1 →
  shuffle_loop rnd i k σ l
  = (<[l := fisher_yates_from rnd k i (store_get σ l)]> σ, k + i).
Proof.
  revert k σ. induction i as [|i IH]; intros k σ Hl Hi.
  - simpl. rewrite fisher_yates_from_0, Nat.add_0_r.
    unfold store_get. destruct (lookup_lt_is_Some_2 σ l Hl) as [a Ha].
    by rewrite Ha, list_insert_id.
  - pose proof (random_index_in_range k (S i)).
    simpl. rewrite store_swap_exchange by lia.
    rewrite IH.
    + rewrite store_get_insert, list_insert_insert_eq by done.
      rewrite fisher_yates_from_S. f_equal. lia.
    + by rewrite length_insert.
    + rewrite store_get_insert, length_exchange by done. lia.
Qed.

(** [shuffleArray] leaves the store as it found it and adds one array,
    the Fisher-Yates shuffle of a copy of its argument. *)
Lemma shuffleArray_fisher_yates k σ array :
  shuffleArray rnd k σ array
  = (σ ++ [fisher_yates rnd k (store_get σ array)], length σ,
     k + (length (store_get σ array) - 1)).
Proof.
  unfold shuffleArray, store_alloc. rewrite store_get_alloc.
  rewrite shuffle_loop_fisher_yates.
  - rewrite store_get_alloc.
    replace (length σ) with (length σ + 0) at 1 by lia.
    by rewrite insert_app_r.
  - rewrite length_app; simpl; lia.
  - by rewrite store_get_alloc.
Qed.
End ShuffleFacts.

(** ** Sample oracles honour the contract of [Math.random] *)

Lemma sample_rnd_unit : unit_draws sample_rnd.
Proof.
  intros k. unfold sample_rnd.
  do 7 (destruct k as [|k]; [by vm_compute|]).
  destruct k; by vm_compute.
Defined.

Lemma zero_rnd_unit : unit_draws zero_rnd.
Proof. intros k. by vm_compute. Defined.

(** ** C2: the shuffle is a permutation *)

(** C2. For every array of the store and every sequence of draws of
    [Math.random], the array [shuffleArray] returns is a permutation of the
    array it was given: both hold the same elements with the same
    multiplicities. *)
Theorem shuffleArray_permutation {A : Type} (rnd : nat → Q) (k : nat)
    (σ : list (list (option A))) (array : nat) :
  unit_draws rnd →
  let '(σ', shuffled, _) := shuffleArray rnd k σ array in
  store_get σ' shuffled ≡ₚ store_get σ array.
Proof.
  intros Hrnd. rewrite shuffleArray_fisher_yates by done.
  rewrite store_get_alloc. unfold fisher_yates.
  by apply fisher_yates_from_Permutation.
Qed.

Lemma shuffleArray_permutation_witness :
  unit_draws sample_rnd
  ∧ let '(σ', shuffled, _) :=
      shuffleArray sample_rnd 0
        [[Some "a"; Some "b"; None; Some "b"; Some "c"]] 0 in
    store_get σ' shuffled ≡ₚ [Some "a"; Some "b"; None; Some "b"; Some "c"].
Proof.
  split; [exact sample_rnd_unit|].
  exact (shuffleArray_permutation sample_rnd 0
           [[Some "a"; Some "b"; None; Some "b"; Some "c"]] 0
           sample_rnd_unit).
Defined.

(** ** C8: the shuffle is Fisher-Yates on a copy *)

(** C8, as stated, fails: the array passed in is not the one shuffled.
    Given the two-element array at location 0, [shuffleArray] returns
    another location and leaves location 0 as it was. *)
Lemma shuffleArray_not_in_place :
  ¬ shuffles_in_place zero_rnd 0 [[Some "a"; Some "b"]] 0
  ∧ shuffleArray zero_rnd 0 [[Some "a"; Some "b"]] 0
    = ([[Some "a"; Some "b"]; [Some "b"; Some "a"]], 1, 1).
Proof.
  split; [|reflexivity].
  unfold shuffles_in_place. vm_compute. by intros [? _].
Qed.

(** C8, amended. [shuffleArray] copies the array it is given into a fresh
    array and shuffles that copy in place by Fisher-Yates: from the last
    index down to index 1, position [i] is exchanged with the position
    [Math.floor(r * (i + 1))] of the next draw [r].  The arrays already in the
    store, the given one among them, are left as they were; one draw is
    consumed per index.  The partner lies in [0, i]; it is the whole part of
    the exact product [r * (i + 1)], or the next whole number when the
    floating-point product is rounded up to it, so that the draws of the
    [j]-th of [i + 1] intervals of equal width select [j], up to that
    rounding at the upper end of the interval. *)
Theorem shuffleArray_fisher_yates_on_copy {A : Type} (rnd : nat → Q)
    (k : nat) (σ : list (list (option A))) (array : nat) :
  unit_draws rnd →
  shuffleArray rnd k σ array
  = (σ ++ [fisher_yates rnd k (store_get σ array)], length σ,
     k + (length (store_get σ array) - 1))
  ∧ (∀ l, l < length σ →
       store_get (σ ++ [fisher_yates rnd k (store_get σ array)]) l
       = store_get σ l)
  ∧ (∀ k' i,
       random_index (rnd k') i ≤ i
       ∧ ((Z.of_nat i < 2 ^ 53)%Z →
          let exact :=
            Z.to_nat (Qfloor (rnd k' * inject_Z (Z.of_nat (i + 1)))) in
          exact ≤ random_index (rnd k') i ≤ exact + 1)).
Proof.
  intros Hrnd. split; [by apply shuffleArray_fisher_yates|]. split.
  - intros l Hl. apply store_get_alloc_old. lia.
  - intros k' i. destruct (Hrnd k') as (Hd & H0 & H1). split.
    + by apply random_index_le.
    + by apply random_index_exact.
Qed.

(** The rounding shows at index 2 for the draw next below 2/3: the exact
    product is below 2, the floating-point product is 2. *)
Example random_index_rounds_up :
  let r := (6004799503160661 # 9007199254740992)%Q in
  is_double r = true
  ∧ Qfloor (r * inject_Z 3) = 1%Z
  ∧ random_index r 2 = 2.
Proof. by vm_compute. Qed.

Lemma shuffleArray_fisher_yates_on_copy_witness :
  unit_draws sample_rnd
  ∧ shuffleArray sample_rnd 0 [[Some "a"; Some "b"; Some "c"]] 0
    = ([[Some "a"; Some "b"; Some "c"]; [Some "b"; Some "a"; Some "c"]],
       1, 2).
Proof.
  split; [exact sample_rnd_unit|].
  exact (proj1 (shuffleArray_fisher_yates_on_copy sample_rnd 0
                  [[Some "a"; Some "b"; Some "c"]] 0 sample_rnd_unit)).
Defined.

(** ** Dealing *)

Section DealFacts.
Variable rnd : nat → Q.
Hypothesis rnd_unit : unit_draws rnd.

(** What [generateCards] does to the world, with the shuffle spelled out
    as Fisher-Yates on the sixteen paired cards. *)
Lemma generateCards_eq w :
  generateCards rnd w
  = let d := fisher_yates rnd (randomCalls w) cardPairs in
    let g := gameState w in
    mkWorld
      (mkGameState (S (length (arrays w))) (flippedCards g) (matchedPairs g)
         (moves g) (timer g) (isGameActive g) (timerInterval g)
         (currentPlayer g))
      ((arrays w ++ [cardPairs]) ++ [d])
      (elems w ++ imap (λ i c, createCardElement c i) d)
      (seq (length (elems w)) (length d))
      (pending w) (intervals w) (nextHandle w) (localStorage w)
      (randomCalls w + 15) (gameCompleteModal w) (posted w).
Proof.
  unfold generateCards, store_alloc.
  rewrite shuffleArray_fisher_yates by done.
  rewrite !store_get_alloc, length_app, length_imap.
  cbn [length]. rewrite Nat.add_1_r. reflexivity.
Qed.

Lemma deck_generateCards w :
  deck (generateCards rnd w) = fisher_yates rnd (randomCalls w) cardPairs.
Proof.
  rewrite generateCards_eq. unfold deck. cbn [gameState cards arrays].
  replace (S (length (arrays w))) with (length (arrays w ++ [cardPairs]))
    by (rewrite length_app; simpl; lia).
  apply store_get_alloc.
Qed.

(** [startGame] as one update of the world. *)
Lemma startGame_eq w :
  startGame rnd w
  = let d := fisher_yates rnd (randomCalls w) cardPairs in
    mkWorld
      (mkGameState (S (length (arrays w))) [] 0 0 0 true
         (Some (nextHandle w)) (currentPlayer (gameState w)))
      ((arrays w ++ [cardPairs]) ++ [d])
      (elems w ++ imap (λ i c, createCardElement c i) d)
      (seq (length (elems w)) (length d))
      (pending w) (intervals w ++ [nextHandle w]) (S (nextHandle w))
      (localStorage w) (randomCalls w + 15) (gameCompleteModal w)
      (posted w).
Proof. unfold startGame. rewrite generateCards_eq. reflexivity. Qed.

Lemma deck_startGame_eq w :
  deck (startGame rnd w) = fisher_yates rnd (randomCalls w) cardPairs.
Proof.
  unfold startGame.
  change (deck (startTimer ?w)) with (deck w).
  by rewrite deck_generateCards.
Qed.

Lemma deck_startGame w :
  deck (startGame rnd w) ≡ₚ cardPairs.
Proof.
  rewrite deck_startGame_eq. unfold fisher_yates.
  by apply fisher_yates_from_Permutation.
Qed.

Lemma length_deck_startGame w : length (deck (startGame rnd w)) = 16.
Proof. by rewrite deck_startGame. Qed.

(** Every slot of a deal holds a symbol. *)
Lemma deck_startGame_Some w i c :
  deck (startGame rnd w) !! i = Some c → ∃ t, c = Some t.
Proof.
  intros Hi. apply list_elem_of_lookup_2 in Hi.
  rewrite deck_startGame in Hi. apply list_elem_of_In in Hi. simpl in Hi.
  repeat (destruct Hi as [<-|Hi]; [by eexists|]). done.
Qed.

(** The grid after a deal: position [i] holds a new element, created for
    the [i]-th card of the deck. *)
Lemma gameGrid_startGame w :
  gameGrid (startGame rnd w) = seq (length (elems w)) 16.
Proof.
  rewrite <-(length_deck_startGame w), deck_startGame_eq, startGame_eq.
  reflexivity.
Qed.

Lemma elems_startGame w i c :
  deck (startGame rnd w) !! i = Some c →
  elems (startGame rnd w) !! (length (elems w) + i)
  = Some (createCardElement c i).
Proof.
  rewrite deck_startGame_eq, startGame_eq. cbn [elems]. intros Hi.
  rewrite lookup_app_r by lia.
  replace (length (elems w) + i - length (elems w)) with i by lia.
  by rewrite list_lookup_imap, Hi.
Qed.

Lemma elems_startGame_old w e :
  e < length (elems w) → elems (startGame rnd w) !! e = elems w !! e.
Proof.
  rewrite startGame_eq. cbn [elems]. intros. by rewrite lookup_app_l.
Qed.
End DealFacts.

Lemma paired_deck_cardPairs : paired_deck cardPairs.
Proof.
  split; [done|]. split; [by apply (bool_decide_unpack _)|]. split; [done|].
  intros c. case_decide as Hc.
  - apply list_elem_of_In in Hc. simpl in Hc.
    by repeat (destruct Hc as [<-|Hc]; [done|]).
  - unfold occurrences.
    assert (Forall (λ x, ¬ x = c) cardPairs) as Hall.
    { apply Forall_forall. intros x Hx ->. apply Hc. revert Hx.
      rewrite !list_elem_of_In. simpl. intuition. }
    revert Hall. generalize cardPairs. intros l Hl.
    induction Hl as [|x l Hx _ IH]; [done|].
    by rewrite filter_cons_False.
Qed.

Lemma paired_deck_Permutation d d' :
  d ≡ₚ d' → paired_deck d' → paired_deck d.
Proof.
  intros Hp (Hlen & ? & ? & Hocc). split; [by rewrite Hp|].
  do 2 (split; [done|]). intros c. rewrite <-Hocc.
  unfold occurrences. by rewrite Hp.
Qed.

Lemma paired_deck_startGame rnd w :
  unit_draws rnd → paired_deck (deck (startGame rnd w)).
Proof.
  intros Hrnd. eapply paired_deck_Permutation; [by apply deck_startGame|].
  apply paired_deck_cardPairs.
Qed.

(** The cards of a deal lie face down. *)
Lemma hidden_startGame rnd w :
  unit_draws rnd →
  Forall (λ e, card_state (elem (startGame rnd w) e) = hidden)
    (gameGrid (startGame rnd w)).
Proof.
  intros Hrnd. rewrite gameGrid_startGame by done.
  apply Forall_lookup. intros i e [-> Hi]%lookup_seq.
  rewrite <-(length_deck_startGame rnd Hrnd w) in Hi.
  destruct (lookup_lt_is_Some_2 _ _ Hi) as [c Hc].
  unfold elem. by rewrite (elems_startGame rnd Hrnd w i c Hc).
Qed.

(** ** C1: every deal is a paired deck *)

(** C1. Every deck [newGame] ([startGame], through [generateCards])
    produces holds exactly 16 cards over exactly 8 distinct symbols, each
    symbol exactly twice and nothing else, whatever the draws of
    [Math.random]; it is a permutation of the pairs built from
    [CARD_TYPES], and the card elements put in the grid carry the cards of
    the deck in order, all face down. *)
Theorem startGame_deals_paired_deck (rnd : nat → Q) (w : World) :
  unit_draws rnd →
  paired_deck (deck (startGame rnd w))
  ∧ deck (startGame rnd w) ≡ₚ cardPairs
  ∧ (λ e, Some (cardType (elem (startGame rnd w) e)))
      <$> gameGrid (startGame rnd w) = deck (startGame rnd w)
  ∧ Forall (λ e, card_state (elem (startGame rnd w) e) = hidden)
      (gameGrid (startGame rnd w)).
Proof.
  intros Hrnd. pose proof (deck_startGame rnd Hrnd w) as Hperm.
  split; [by apply paired_deck_startGame|]. split; [done|].
  split; [|by apply hidden_startGame].
  rewrite gameGrid_startGame by done.
  - apply list_eq. intros i. rewrite list_lookup_fmap.
    destruct (deck (startGame rnd w) !! i) as [c|] eqn:Hi.
    + pose proof (lookup_lt_Some _ _ _ Hi) as Hlt.
      rewrite length_deck_startGame in Hlt by done.
      rewrite lookup_seq_lt by done. simpl. unfold elem.
      rewrite (elems_startGame rnd Hrnd w i c Hi). simpl.
      by destruct (deck_startGame_Some rnd Hrnd w i c Hi) as [t ->].
    + apply lookup_ge_None_1 in Hi.
      rewrite length_deck_startGame in Hi by done.
      by rewrite lookup_seq_ge.
Qed.

Lemma startGame_deals_paired_deck_witness :
  unit_draws sample_rnd
  ∧ deck (startGame sample_rnd (initialWorld ∅))
    = Some <$> ["3"; "8"; "5"; "3"; "5"; "4"; "6"; "2"; "8"; "1"; "7"; "6";
                "1"; "4"; "2"; "7"]
  ∧ paired_deck (deck (startGame sample_rnd (initialWorld ∅))).
Proof.
  split; [exact sample_rnd_unit|]. split; [by vm_compute|].
  exact (proj1 (startGame_deals_paired_deck sample_rnd (initialWorld ∅)
                  sample_rnd_unit)).
Defined.

(** ** Selecting a card *)

(** The guard of [handleCardClick], in the vocabulary of the
    specification. *)
Lemma handleCardClick_accepted e i w :
  handleCardClick e i w = if accepted e w then flipCard e i w else w.
Proof.
  unfold handleCardClick, accepted, card_state.
  destruct (isGameActive (gameState w)); [|done].
  destruct (contains "flipped" (elem w e)),
    (contains "matched" (elem w e)); simpl; try done.
  repeat case_bool_decide; try done; lia.
Qed.

Lemma accepted_true e w :
  accepted e w = true ↔
    isGameActive (gameState w) = true
    ∧ card_state (elem w e) = hidden
    ∧ length (flippedCards (gameState w)) < 2.
Proof.
  unfold accepted. rewrite !andb_true_iff, !bool_decide_eq_true. tauto.
Qed.

(** The game state after a flip. *)
Lemma gameState_flipCard e i w :
  gameState (flipCard e i w)
  = let g := gameState w in
    let entry :=
      mkFlipped e i
        (cardType (elem (set_elems (alter (class_add "flipped") e) w) e)) in
    mkGameState (cards g) (flippedCards g ++ [entry]) (matchedPairs g)
      (if decide (length (flippedCards g) = 1) then N.succ (moves g)
       else moves g)
      (timer g) (isGameActive g) (timerInterval g) (currentPlayer g).
Proof.
  unfold flipCard. cbn [gameState set_gameState set_elems set_flippedCards
    flippedCards]. rewrite length_app. cbn [length].
  destruct (decide (length (flippedCards (gameState w)) = 1)).
  - by rewrite decide_True by lia.
  - by rewrite decide_False by lia.
Qed.

Section PlayFacts.
Variable rnd : nat → Q.

(** No part of a deal touches the counters, the player or the timers. *)
Lemma generateCards_frame w :
  ∃ c σ es grid k,
    generateCards rnd w
    = mkWorld
        (mkGameState c (flippedCards (gameState w))
           (matchedPairs (gameState w)) (moves (gameState w))
           (timer (gameState w)) (isGameActive (gameState w))
           (timerInterval (gameState w)) (currentPlayer (gameState w)))
        σ (elems w ++ es) grid (pending w) (intervals w) (nextHandle w)
        (localStorage w) k (gameCompleteModal w) (posted w).
Proof.
  unfold generateCards. destruct (store_alloc _ _) as [σ1 pairs].
  destruct (shuffleArray _ _ _ _) as [[σ2 shuffled] k]. by eexists _, _, _, _, _.
Qed.

Lemma startGame_frame w :
  ∃ c σ es grid k,
    startGame rnd w
    = mkWorld
        (mkGameState c [] 0 0 0 true (Some (nextHandle w))
           (currentPlayer (gameState w)))
        σ (elems w ++ es) grid (pending w) (intervals w ++ [nextHandle w])
        (S (nextHandle w)) (localStorage w) k (gameCompleteModal w)
        (posted w).
Proof.
  unfold startGame.
  destruct (generateCards_frame
              (set_gameState
                 (λ g, mkGameState (cards g) [] 0 0 0 true (timerInterval g)
                         (currentPlayer g)) w)) as (c & σ & es & grid & k & ->).
  by eexists _, _, _, _, _.
Qed.

(** The checks of [handleStartGame]. *)
Lemma handleStartGame_valid n e w :
  handleStartGame rnd n e w
  = if validEntry n e then
      let key := playerKey (trim n) (trim e) in
      let a :=
        match localStorage w !! key with
        | Some storedAttempt =>
            if String.eqb storedAttempt "" then Num 1
            else js_succ (parseInt storedAttempt)
        | None => Num 1
        end in
      startGame rnd
        (set_localStorage (insert key (toString a))
           (set_gameState
              (set_currentPlayer (λ _, mkPlayer (trim n) (trim e) a)) w))
    else w.
Proof.
  unfold handleStartGame, validEntry.
  case_bool_decide; case_bool_decide; try lia; simpl; [done|].
  by destruct (isValidEmail (trim e)).
Qed.
End PlayFacts.

(** Replaces the world a game start produces by its frame. *)
Ltac start_frame rnd :=
  cbv zeta;
  match goal with
  | |- context [startGame rnd ?w'] =>
      let c := fresh "c" in let σ := fresh "σ" in let es := fresh "es" in
      let grid := fresh "grid" in let k := fresh "k" in
      destruct (startGame_frame rnd w') as (c & σ & es & grid & k & ->)
  end.

(** ** C3: one move per completed pair of reveals *)

(** C3. [moves] changes with the events as follows: it grows by exactly 1
    when a click reveals a card while one card is pending (the second card
    of a pair, after which two cards are pending); it is reset to 0 by the
    start of a game; every other event leaves it alone, the reveal of a
    first card in particular, after which one card is pending. *)
Theorem moves_step (rnd : nat → Q) (w : World) (ev : Event) :
  moves (gameState (step rnd w ev))
  = (if reveals_with 1 w ev then (moves (gameState w) + 1)%N
     else if starts_game ev then 0%N
     else moves (gameState w))
  ∧ (∀ n, reveals_with n w ev = true →
       length (flippedCards (gameState (step rnd w ev))) = S n)
  ∧ (reveals_with 0 w ev = true →
       moves (gameState (step rnd w ev)) = moves (gameState w)).
Proof.
  assert (∀ n e i, accepted e w = true →
    length (flippedCards (gameState w)) = n →
    length (flippedCards (gameState (flipCard e i w))) = S n
    ∧ moves (gameState (flipCard e i w))
      = if decide (n = 1) then (moves (gameState w) + 1)%N
        else moves (gameState w)) as Hflip.
  { intros n e i _ <-. rewrite gameState_flipCard.
    cbn [flippedCards moves]. rewrite length_app, N.add_1_r. cbn [length].
    split; [lia|done]. }
  destruct ev as [nf ef|i| | | |n|h]; cbn [step starts_game reveals_with].
  - rewrite handleStartGame_valid.
    destruct (validEntry nf ef); [|done].
    by start_frame rnd.
  - destruct (gameGrid w !! i) as [e|]; [|done].
    rewrite handleCardClick_accepted.
    destruct (accepted e w) eqn:Hacc; [|done]. cbn [andb].
    split; [|split].
    + case_bool_decide as Hlen.
      * destruct (Hflip 1 e i Hacc Hlen) as [_ ->]. done.
      * destruct (Hflip _ e i Hacc eq_refl) as [_ ->].
        by rewrite decide_False.
    + intros n Hn%bool_decide_eq_true. by destruct (Hflip n e i Hacc Hn).
    + intros Hn%bool_decide_eq_true.
      by destruct (Hflip 0 e i Hacc Hn) as [_ ->].
  - unfold showStartScreen, stopTimer.
    by destruct (timerInterval (gameState w)) as [[|?]|].
  - unfold handleTryAgain.
    by start_frame rnd.
  - unfold handleBackToLeaderboard, showStartScreen, stopTimer.
    cbn [gameState set_gameCompleteModal].
    by destruct (timerInterval (gameState w)) as [[|?]|].
  - destruct (pending w !! n) as [[| |c1 c2]|]; [| | |done];
      cbn [runTask].
    + unfold checkForMatch. cbn [gameState set_pending].
      destruct (flippedCards (gameState w)) as [|c1 [|c2 rest]];
        [done..|].
      destruct (String.eqb (type c1) (type c2)); [|done].
      unfold handleMatch. by case_decide.
    + unfold completeGame, stopTimer.
      cbn [gameState set_pending set_gameState set_isGameActive
           timerInterval].
      by destruct (timerInterval (gameState w)) as [[|?]|].
    + done.
  - by case_bool_decide.
Qed.

Lemma moves_step_witness :
  let w :=
    run sample_rnd (initialWorld ∅)
      [EvSubmit "ada" "ada@example.org"; EvClickCard 0] in
  reveals_with 1 w (EvClickCard 3) = true
  ∧ moves (gameState w) = 0%N
  ∧ moves (gameState (step sample_rnd w (EvClickCard 3))) = 1%N
  ∧ length (flippedCards (gameState (step sample_rnd w (EvClickCard 3)))) = 2.
Proof.
  intros w.
  assert (reveals_with 1 w (EvClickCard 3) = true) as H1
    by (vm_compute; reflexivity).
  pose proof (moves_step sample_rnd w (EvClickCard 3)) as (Hm & Hl & _).
  rewrite H1 in Hm. split; [exact H1|]. split; [vm_compute; reflexivity|].
  split; [|exact (Hl 1 H1)].
  rewrite Hm. vm_compute; reflexivity.
Defined.

(** ** C4: rejected selections *)

Lemma flippedCards_step (rnd : nat → Q) (w : World) (ev : Event) :
  length (flippedCards (gameState w)) ≤ 2 →
  length (flippedCards (gameState (step rnd w ev))) ≤ 2.
Proof.
  intros Hw. destruct ev as [nf ef|i| | | |n|h]; cbn [step].
  - rewrite handleStartGame_valid.
    destruct (validEntry nf ef); [|done]. start_frame rnd. simpl; lia.
  - destruct (gameGrid w !! i) as [e|]; [|done].
    rewrite handleCardClick_accepted.
    destruct (accepted e w) eqn:Hacc; [|done].
    apply accepted_true in Hacc as (_ & _ & Hlt).
    rewrite gameState_flipCard. cbn [flippedCards].
    rewrite length_app. simpl. lia.
  - unfold showStartScreen, stopTimer.
    by destruct (timerInterval (gameState w)) as [[|?]|].
  - unfold handleTryAgain. start_frame rnd. simpl; lia.
  - unfold handleBackToLeaderboard, showStartScreen, stopTimer.
    cbn [gameState set_gameCompleteModal].
    by destruct (timerInterval (gameState w)) as [[|?]|].
  - destruct (pending w !! n) as [[| |c1 c2]|]; [| | |done];
      cbn [runTask].
    + unfold checkForMatch. cbn [gameState set_pending].
      destruct (flippedCards (gameState w)) as [|c1 [|c2 rest]] eqn:Hfs;
        [by cbn; rewrite Hfs..|].
      simpl. lia.
    + unfold completeGame, stopTimer.
      cbn [gameState set_pending set_gameState set_isGameActive
           timerInterval].
      by destruct (timerInterval (gameState w)) as [[|?]|].
    + done.
  - by case_bool_decide.
Qed.

(** C4. A selection is a silent no-op, the whole state (cards, pending
    turn, moves, matched pairs, elapsed seconds and everything else) staying
    as it is, whenever the session is inactive, or the card is already
    revealed or matched, or two cards are pending; and so the pending turn,
    at most two cards long at the start, never holds more than two cards,
    whatever events follow. *)
Theorem rejected_click_is_noop (rnd : nat → Q) (w : World)
    (cardElement cardIndex : nat) (evs : list Event) :
  (isGameActive (gameState w) = false
   ∨ card_state (elem w cardElement) = revealed
   ∨ card_state (elem w cardElement) = matched
   ∨ 2 ≤ length (flippedCards (gameState w)) →
   handleCardClick cardElement cardIndex w = w)
  ∧ (length (flippedCards (gameState w)) ≤ 2 →
     length (flippedCards (gameState (run rnd w evs))) ≤ 2).
Proof.
  split.
  - intros Hrej. rewrite handleCardClick_accepted.
    destruct (accepted cardElement w) eqn:Hacc; [|done].
    apply accepted_true in Hacc as (Ha & Hc & Hl).
    destruct Hrej as [?|[?|[?|?]]]; [congruence..|lia].
  - revert w. induction evs as [|ev evs IH]; intros w Hw; [done|].
    apply IH. by apply flippedCards_step.
Qed.

Lemma rejected_click_is_noop_witness :
  let w :=
    run sample_rnd (initialWorld ∅)
      [EvSubmit "ada" "ada@example.org"; EvClickCard 0; EvClickCard 1] in
  length (flippedCards (gameState w)) = 2
  ∧ gameGrid w !! 2 = Some 2
  ∧ handleCardClick 2 2 w = w
  ∧ length (flippedCards (gameState
      (run sample_rnd w [EvClickCard 2; EvClickCard 5]))) ≤ 2.
Proof.
  intros w.
  assert (length (flippedCards (gameState w)) = 2) as Hlen
    by (vm_compute; reflexivity).
  split; [exact Hlen|]. split; [vm_compute; reflexivity|].
  destruct (rejected_click_is_noop sample_rnd w 2 2
              [EvClickCard 2; EvClickCard 5]) as [Hnoop Hinv].
  split.
  - apply Hnoop. right; right; right. rewrite Hlen. constructor.
  - apply Hinv. rewrite Hlen. constructor.
Defined.

(** ** Card elements under the handlers *)

Lemma elem_alter f e e' w :
  elem (set_elems (alter f e) w) e'
  = if decide (e = e' ∧ e' < length (elems w)) then f (elem w e')
    else elem w e'.
Proof.
  unfold elem. cbn [elems set_elems].
  case_decide as H.
  - destruct H as [-> Hlt]. rewrite list_lookup_alter_eq.
    by destruct (lookup_lt_is_Some_2 _ _ Hlt) as [x ->].
  - destruct (decide (e = e')) as [->|].
    + rewrite list_lookup_alter_eq, lookup_ge_None_2; [done|lia].
    + by rewrite list_lookup_alter_ne.
Qed.

Lemma elem_set_gameState f w e : elem (set_gameState f w) e = elem w e.
Proof. done. Qed.

Lemma elem_set_pending f w e : elem (set_pending f w) e = elem w e.
Proof. done. Qed.

Lemma contains_class_add c c' x :
  contains c (class_add c' x) = contains c x || bool_decide (c = c').
Proof.
  unfold class_add, contains. cbn [classList].
  destruct (bool_decide (c' ∈ classList x)) eqn:Hc'.
  - apply bool_decide_eq_true in Hc'. cbn iota.
    destruct (bool_decide (c ∈ classList x)) eqn:Hc; [done|].
    apply bool_decide_eq_false in Hc. simpl.
    rewrite bool_decide_eq_false_2; [done|]. by intros ->.
  - cbn iota. rewrite <-bool_decide_or. apply bool_decide_ext.
    by rewrite elem_of_app, list_elem_of_singleton.
Qed.

Lemma contains_class_remove c cs x :
  contains c (class_remove cs x) = contains c x && bool_decide (c ∉ cs).
Proof.
  unfold contains, class_remove. cbn [classList].
  rewrite <-bool_decide_and. apply bool_decide_ext.
  rewrite list_elem_of_filter. tauto.
Qed.

(** Marking a card wrong does not change what the player sees of it;
    marking it matched makes it matched; flipping it back hides it unless
    it is matched. *)
Lemma card_state_wrong x : card_state (class_add "wrong" x) = card_state x.
Proof.
  unfold card_state. rewrite !contains_class_add.
  by rewrite !bool_decide_eq_false_2, !orb_false_r by done.
Qed.

Lemma card_state_matched x : card_state (class_add "matched" x) = matched.
Proof.
  unfold card_state. rewrite contains_class_add.
  by rewrite bool_decide_eq_true_2, orb_true_r by done.
Qed.

Lemma card_state_flipped x :
  card_state (class_add "flipped" x)
  = if contains "matched" x then matched else revealed.
Proof.
  unfold card_state. rewrite !contains_class_add.
  rewrite bool_decide_eq_false_2, orb_false_r by done.
  by rewrite bool_decide_eq_true_2, orb_true_r by done.
Qed.

Lemma card_state_flipBack x :
  card_state (class_remove ["flipped"; "wrong"] x)
  = if contains "matched" x then matched else hidden.
Proof.
  unfold card_state. rewrite !contains_class_remove.
  rewrite (bool_decide_eq_true_2 ("matched" ∉ _)), andb_true_r
    by (by apply (bool_decide_unpack _)).
  rewrite (bool_decide_eq_false_2 ("flipped" ∉ _)), andb_false_r; [done|].
  intros H. apply H. by apply (bool_decide_unpack _).
Qed.

Lemma card_state_matched_iff x :
  card_state x = matched ↔ contains "matched" x = true.
Proof.
  unfold card_state.
  destruct (contains "matched" x), (contains "flipped" x); naive_solver.
Qed.


Lemma matched_in_page w e :
  card_state (elem w e) = matched → e < length (elems w).
Proof.
  intros H. apply lookup_lt_is_Some. unfold elem in H.
  by destruct (elems w !! e).
Qed.

Lemma matched_alter f e' w e :
  (∀ x, card_state x = matched → card_state (f x) = matched) →
  card_state (elem w e) = matched →
  card_state (elem (set_elems (alter f e') w) e) = matched.
Proof. intros Hf H. rewrite elem_alter. case_decide; auto. Qed.

Lemma matched_class_add c x :
  card_state x = matched → card_state (class_add c x) = matched.
Proof.
  rewrite !card_state_matched_iff, contains_class_add. by intros ->.
Qed.

Lemma matched_flipBack x :
  card_state x = matched →
  card_state (class_remove ["flipped"; "wrong"] x) = matched.
Proof.
  rewrite card_state_flipBack, card_state_matched_iff. by intros ->.
Qed.

Lemma elem_flipCard e i w e' :
  elem (flipCard e i w) e'
  = elem (set_elems (alter (class_add "flipped") e) w) e'.
Proof. unfold flipCard. cbv zeta. by case_decide. Qed.

Lemma elem_handleMatch e1 e2 w e :
  elem (handleMatch e1 e2 w) e
  = elem (set_elems (alter (class_add "matched") e2)
            (set_elems (alter (class_add "matched") e1) w)) e.
Proof. unfold handleMatch. cbv zeta. by case_decide. Qed.

Lemma elem_handleNoMatch e1 e2 w e :
  elem (handleNoMatch e1 e2 w) e
  = elem (set_elems (alter (class_add "wrong") e2)
            (set_elems (alter (class_add "wrong") e1) w)) e.
Proof. done. Qed.

Lemma elem_stopTimer w e : elem (stopTimer w) e = elem w e.
Proof.
  unfold stopTimer. by destruct (timerInterval (gameState w)) as [[|?]|].
Qed.

Lemma elem_completeGame w e : elem (completeGame w) e = elem w e.
Proof.
  unfold completeGame, submitScore. cbv zeta.
  change (elem (set_posted ?f ?w) e) with (elem w e).
  change (elem (set_gameCompleteModal ?b ?w) e) with (elem w e).
  by rewrite elem_stopTimer.
Qed.

Lemma elem_showStartScreen w e : elem (showStartScreen w) e = elem w e.
Proof.
  unfold showStartScreen. cbv zeta.
  change (elem (set_gameCompleteModal ?b ?w) e) with (elem w e).
  change (elem (set_gameState ?f ?w) e) with (elem w e).
  by rewrite elem_stopTimer.
Qed.

Lemma elem_startGame rnd w e :
  e < length (elems w) → elem (startGame rnd w) e = elem w e.
Proof.
  intros He. destruct (startGame_frame rnd w) as (c & σ & es & g & k & ->).
  unfold elem. cbn [elems]. by rewrite lookup_app_l.
Qed.

(** No event takes a matched card out of the matched state. *)
Lemma matched_step rnd w ev e :
  card_state (elem w e) = matched →
  card_state (elem (step rnd w ev) e) = matched.
Proof.
  intros Hm. pose proof (matched_in_page w e Hm) as He.
  destruct ev as [nf ef|i| | | |n|h]; cbn [step].
  - rewrite handleStartGame_valid.
    destruct (validEntry nf ef); [|done]. by rewrite elem_startGame.
  - destruct (gameGrid w !! i) as [e'|]; [|done].
    rewrite handleCardClick_accepted.
    destruct (accepted e' w); [|done]. rewrite elem_flipCard.
    by apply matched_alter; [apply matched_class_add|].
  - by rewrite elem_showStartScreen.
  - unfold handleTryAgain. cbv zeta. by rewrite elem_startGame.
  - unfold handleBackToLeaderboard. by rewrite elem_showStartScreen.
  - destruct (pending w !! n) as [[| |c1 c2]|]; [| | |done];
      cbn [runTask].
    + unfold checkForMatch. cbn [gameState set_pending].
      destruct (flippedCards (gameState w)) as [|c1 [|c2 rest]];
        [done..|].
      cbn [default from_option id].
      change (elem (set_gameState ?f ?w) e) with (elem w e).
      destruct (String.eqb (type c1) (type c2)).
      * rewrite elem_handleMatch.
        by do 2 (apply matched_alter; [apply matched_class_add|]).
      * rewrite elem_handleNoMatch.
        by do 2 (apply matched_alter; [apply matched_class_add|]).
    + by rewrite elem_completeGame.
    + unfold flipBack.
      by do 2 (apply matched_alter; [apply matched_flipBack|]).
  - by case_bool_decide.
Qed.

Lemma matched_run rnd w evs e :
  card_state (elem w e) = matched →
  card_state (elem (run rnd w evs) e) = matched.
Proof.
  revert w. induction evs as [|ev evs IH]; intros w Hm; [done|].
  apply IH. by apply matched_step.
Qed.

Lemma card_state_after_flipBack e1 e2 w e :
  e = e1 ∨ e = e2 →
  card_state (elem w e) ≠ matched →
  card_state (elem (flipBack e1 e2 w) e) = hidden.
Proof.
  intros He Hm. unfold flipBack. cbv zeta.
  assert (contains "matched" (elem w e) = false) as Hc.
  { apply not_true_is_false. by rewrite <-card_state_matched_iff. }
  assert (e < length (elems w) ∨ card_state (elem w e) = hidden) as [Hlt|Hh].
  { destruct (decide (e < length (elems w))); [by left|right].
    unfold elem. by rewrite lookup_ge_None_2 by lia. }
  - rewrite !elem_alter. cbn [elems set_elems]. rewrite length_alter.
    repeat case_decide;
      rewrite ?card_state_flipBack, ?contains_class_remove, ?Hc;
      try done; exfalso; intuition (subst; auto).
  - rewrite !elem_alter. cbn [elems set_elems]. rewrite length_alter.
    repeat case_decide;
      rewrite ?card_state_flipBack, ?contains_class_remove, ?Hc;
      try done.
Qed.

(** ** C6: completion *)

(** C6, as stated, fails: with all eight pairs matched the session is not
    yet completed.  The game is still active, the modal is closed, the
    completion is a pending callback, and the clock still counts. *)
Lemma all_matched_not_yet_completed :
  ¬ completed_iff_all_matched all_matched_world
  ∧ matchedPairs (gameState all_matched_world) = 8%N
  ∧ isGameActive (gameState all_matched_world) = true
  ∧ gameCompleteModal all_matched_world = false
  ∧ pending all_matched_world = [TCompleteGame]
  ∧ timer (gameState (step zero_rnd all_matched_world (EvInterval 1)))
    = (timer (gameState all_matched_world) + 1)%N.
Proof.
  assert (matchedPairs (gameState all_matched_world) = 8%N) as H8
    by (vm_compute; reflexivity).
  assert (isGameActive (gameState all_matched_world) = true) as Hact
    by (vm_compute; reflexivity).
  split; [|repeat split; vm_compute; reflexivity].
  intros [_ Hc]. destruct (Hc H8) as [Hin _]. congruence.
Qed.

Lemma length_filter_delete {A : Type} (P : A → Prop)
    `{∀ x, Decision (P x)} (n : nat) (l : list A) :
  length (filter P (delete n l)) ≤ length (filter P l).
Proof.
  revert n. induction l as [|x l IH]; intros [|n]; [done..| |].
  - change (delete 0 (x :: l)) with l. rewrite filter_cons.
    case_decide; simpl; lia.
  - change (delete (S n) (x :: l)) with (x :: delete n l).
    rewrite !filter_cons.
    specialize (IH n). case_decide; simpl; lia.
Qed.

Lemma completions_delete n w :
  completions (set_pending (delete n) w) ≤ completions w.
Proof.
  unfold completions. cbn [pending set_pending].
  apply length_filter_delete.
Qed.

Lemma completions_stopTimer w : completions (stopTimer w) = completions w.
Proof.
  unfold stopTimer. by destruct (timerInterval (gameState w)) as [[|?]|].
Qed.

Lemma completions_showStartScreen w :
  completions (showStartScreen w) = completions w.
Proof.
  unfold showStartScreen. cbv zeta.
  change (completions (set_gameCompleteModal ?b ?w)) with (completions w).
  change (completions (set_gameState ?f ?w)) with (completions w).
  apply completions_stopTimer.
Qed.

Lemma completions_startGame rnd w :
  completions (startGame rnd w) = completions w.
Proof. by destruct (startGame_frame rnd w) as (c & σ & es & g & k & ->). Qed.

Lemma completions_snoc f w t :
  t ≠ TCompleteGame →
  completions (set_pending (λ ts, ts ++ [t]) (set_gameState f w))
  = completions w.
Proof.
  intros Ht. unfold completions. cbn [pending set_pending set_gameState].
  rewrite filter_app, filter_cons_False, filter_nil, app_nil_r; done.
Qed.

(** What a resolution schedules, and that it leaves the session active. *)
Lemma checkForMatch_schedules w card1 card2 rest :
  flippedCards (gameState w) = card1 :: card2 :: rest →
  ∃ w', checkForMatch w = Some w'
    ∧ isGameActive (gameState w') = isGameActive (gameState w)
    ∧ gameCompleteModal w' = gameCompleteModal w
    ∧ (type card1 = type card2
       ∧ (matchedPairs (gameState w) + 1 = 8)%N →
       matchedPairs (gameState w') = 8%N
       ∧ pending w' = pending w ++ [TCompleteGame])
    ∧ (¬ (type card1 = type card2
          ∧ (matchedPairs (gameState w) + 1 = 8)%N) →
       completions w' = completions w).
Proof.
  intros Hfs. unfold checkForMatch. rewrite Hfs. eexists. split; [done|].
  destruct (String.eqb_spec (type card1) (type card2)) as [Heq|Hne].
  - unfold handleMatch. cbv zeta.
    cbn [gameState set_gameState set_elems set_matchedPairs matchedPairs].
    case_decide as H8; cbn.
    + repeat split; try done. intros []. split; [done|lia].
    + repeat split; try done; lia.
  - cbn. repeat split; try done; [tauto..|].
    intros _. unfold completions.
    by rewrite filter_app, filter_cons_False, filter_nil, app_nil_r.
Qed.

Lemma completions_flipCard e i w :
  completions (flipCard e i w) = completions w.
Proof.
  unfold flipCard. cbv zeta. case_decide; [|done].
  unfold completions. cbn [pending set_pending set_gameState set_elems].
  by rewrite filter_app, filter_cons_False, filter_nil, app_nil_r.
Qed.

Lemma completions_completeGame w :
  completions (completeGame w) = completions w.
Proof.
  unfold completeGame, submitScore. cbv zeta.
  change (completions (set_posted ?f ?w)) with (completions w).
  change (completions (set_gameCompleteModal ?b ?w)) with (completions w).
  by rewrite completions_stopTimer.
Qed.

(** Only a matching resolution that brings [matchedPairs] to 8 adds a
    completion to the pending callbacks. *)
Lemma completions_step rnd w ev :
  completions w < completions (step rnd w ev) →
  ∃ n card1 card2 rest,
    ev = EvTimeout n
    ∧ pending w !! n = Some TCheckForMatch
    ∧ flippedCards (gameState w) = card1 :: card2 :: rest
    ∧ type card1 = type card2
    ∧ (matchedPairs (gameState w) + 1 = 8)%N.
Proof.
  destruct ev as [nf ef|i| | | |n|h]; cbn [step].
  - rewrite handleStartGame_valid.
    destruct (validEntry nf ef); [|lia]. cbv zeta.
    rewrite completions_startGame.
    change (completions (set_localStorage ?f ?w)) with (completions w).
    change (completions (set_gameState ?f ?w)) with (completions w). lia.
  - destruct (gameGrid w !! i) as [e|]; [|lia].
    rewrite handleCardClick_accepted.
    destruct (accepted e w); [|lia]. rewrite completions_flipCard. lia.
  - rewrite completions_showStartScreen. lia.
  - unfold handleTryAgain. cbv zeta. rewrite completions_startGame.
    change (completions (set_localStorage ?f ?w)) with (completions w).
    change (completions (set_gameState ?f ?w)) with (completions w).
    change (completions (set_gameCompleteModal ?f ?w)) with (completions w).
    lia.
  - unfold handleBackToLeaderboard. rewrite completions_showStartScreen.
    change (completions (set_gameCompleteModal ?f ?w)) with (completions w).
    lia.
  - pose proof (completions_delete n w) as Hdel.
    destruct (pending w !! n) as [[| |c1 c2]|] eqn:Hn; [| | |lia];
      cbn [runTask].
    + destruct (flippedCards (gameState w)) as [|card1 [|card2 rest]]
        eqn:Hfs.
      * unfold checkForMatch. cbn [gameState set_pending]. rewrite Hfs.
        cbn [default from_option id]. lia.
      * unfold checkForMatch. cbn [gameState set_pending]. rewrite Hfs.
        cbn [default from_option id]. lia.
      * destruct (checkForMatch_schedules (set_pending (delete n) w)
                    card1 card2 rest Hfs)
          as (w' & -> & _ & _ & _ & Hno).
        cbn [default from_option id]. intros Hlt.
        destruct (decide (type card1 = type card2
                          ∧ (matchedPairs (gameState w) + 1 = 8)%N))
          as [[??]|Hnot].
        { by exists n, card1, card2, rest. }
        specialize (Hno Hnot). lia.
    + rewrite completions_completeGame. lia.
    + change (completions (flipBack c1 c2 ?w)) with (completions w). lia.
  - case_bool_decide; [|lia].
    change (completions (tick w)) with (completions w). lia.
Qed.

Lemma Completed_completeGame w : Completed (completeGame w).
Proof.
  unfold Completed, completeGame, submitScore, stopTimer. cbv zeta.
  cbn [gameState set_gameState set_isGameActive timerInterval].
  by destruct (timerInterval (gameState w)) as [[|?]|].
Qed.

(** Once completed, a session stays completed under selections, ticks
    and callbacks. *)
Lemma Completed_step rnd w ev :
  match ev with
  | EvClickCard _ | EvTimeout _ | EvInterval _ => True
  | _ => False
  end →
  Completed w → Completed (step rnd w ev).
Proof.
  intros Hev [Hin Hmod].
  destruct ev as [nf ef|i| | | |n|h]; try done; cbn [step].
  - destruct (gameGrid w !! i) as [e|]; [|done].
    unfold handleCardClick. by rewrite Hin.
  - destruct (pending w !! n) as [[| |c1 c2]|]; [| | |done]; cbn [runTask].
    + unfold checkForMatch. cbn [gameState set_pending].
      destruct (flippedCards (gameState w)) as [|card1 [|card2 rest]];
        [done..|].
      cbn [default from_option id].
      destruct (String.eqb (type card1) (type card2)); [|done].
      unfold handleMatch. cbv zeta. by case_decide.
    + apply Completed_completeGame.
    + done.
  - by case_bool_decide.
Qed.

(** Selections, ticks and the callbacks other than the completion leave
    the activity of the session and the modal as they are. *)
Lemma isGameActive_step rnd w ev :
  match ev with
  | EvClickCard _ | EvInterval _ => True
  | EvTimeout n => pending w !! n ≠ Some TCompleteGame
  | _ => False
  end →
  isGameActive (gameState (step rnd w ev)) = isGameActive (gameState w)
  ∧ gameCompleteModal (step rnd w ev) = gameCompleteModal w.
Proof.
  destruct ev as [nf ef|i| | | |n|h]; try done; cbn [step]; intros Hev.
  - destruct (gameGrid w !! i) as [e|]; [|done].
    rewrite handleCardClick_accepted.
    destruct (accepted e w); [|done].
    unfold flipCard. cbv zeta. by case_decide.
  - destruct (pending w !! n) as [[| |c1 c2]|]; [| | |done]; cbn [runTask].
    + unfold checkForMatch. cbn [gameState set_pending].
      destruct (flippedCards (gameState w)) as [|card1 [|card2 rest]];
        [done..|].
      cbn [default from_option id].
      destruct (String.eqb (type card1) (type card2)); [|done].
      unfold handleMatch. cbv zeta. by case_decide.
    + done.
    + done.
  - by case_bool_decide.
Qed.

(** C6, amended.  A resolution of two pending cards leaves the session
    as active as it was and the modal as it was; it schedules the
    completion callback when it is a match that brings [matchedPairs] to 8,
    and otherwise leaves the number of pending completions unchanged.  No
    other event adds a pending completion.  The session becomes completed
    when the callback [completeGame] runs (500 ms later); until then
    selections, ticks and the other callbacks leave its activity and the
    modal as they are, while leaving the game or starting another one does
    not.  Once completed the session stays completed under selections,
    ticks and callbacks, resolutions among them. *)
Theorem completion_is_deferred (rnd : nat → Q) (w : World) (ev : Event) :
  (∀ card1 card2 rest,
     flippedCards (gameState w) = card1 :: card2 :: rest →
     ∃ w', checkForMatch w = Some w'
       ∧ isGameActive (gameState w') = isGameActive (gameState w)
       ∧ gameCompleteModal w' = gameCompleteModal w
       ∧ (type card1 = type card2
          ∧ (matchedPairs (gameState w) + 1 = 8)%N →
          matchedPairs (gameState w') = 8%N
          ∧ pending w' = pending w ++ [TCompleteGame])
       ∧ (¬ (type card1 = type card2
             ∧ (matchedPairs (gameState w) + 1 = 8)%N) →
          completions w' = completions w))
  ∧ (completions w < completions (step rnd w ev) →
     ∃ n card1 card2 rest,
       ev = EvTimeout n
       ∧ pending w !! n = Some TCheckForMatch
       ∧ flippedCards (gameState w) = card1 :: card2 :: rest
       ∧ type card1 = type card2
       ∧ (matchedPairs (gameState w) + 1 = 8)%N)
  ∧ Completed (completeGame w)
  ∧ (match ev with
     | EvClickCard _ | EvInterval _ => True
     | EvTimeout n => pending w !! n ≠ Some TCompleteGame
     | _ => False
     end →
     isGameActive (gameState (step rnd w ev)) = isGameActive (gameState w)
     ∧ gameCompleteModal (step rnd w ev) = gameCompleteModal w)
  ∧ (match ev with
     | EvClickCard _ | EvTimeout _ | EvInterval _ => True
     | _ => False
     end →
     Completed w → Completed (step rnd w ev)).
Proof.
  split; [apply checkForMatch_schedules|].
  split; [apply completions_step|].
  split; [apply Completed_completeGame|].
  split; [apply isGameActive_step|apply Completed_step].
Qed.

Lemma completion_is_deferred_witness :
  let w := step zero_rnd all_matched_world (EvTimeout 0) in
  Completed w
  ∧ matchedPairs (gameState w) = 8%N
  ∧ Completed (step zero_rnd w (EvClickCard 3))
  ∧ Completed (step zero_rnd w (EvInterval 1)).
Proof.
  intros w.
  assert (Completed w) as Hc by (split; vm_compute; reflexivity).
  split; [exact Hc|]. split; [vm_compute; reflexivity|].
  split.
  - exact (proj2 (proj2 (proj2 (proj2
      (completion_is_deferred zero_rnd w (EvClickCard 3))))) I Hc).
  - exact (proj2 (proj2 (proj2 (proj2
      (completion_is_deferred zero_rnd w (EvInterval 1))))) I Hc).
Defined.

(** The player can leave while the completion is pending: the session is
    then inactive with all eight pairs matched, not completed, and the
    completion still waits. *)
Example left_before_completion :
  let w := step zero_rnd all_matched_world EvBackToMenu in
  isGameActive (gameState w) = false
  ∧ gameCompleteModal w = false
  ∧ matchedPairs (gameState w) = 8%N
  ∧ pending w = [TCompleteGame].
Proof. repeat split; vm_compute; reflexivity. Qed.

(** Nor is the pending completion cancelled when the player leaves and
    starts another game, so a completion scheduled by one session can run
    in the next one, which it completes with no pair matched. *)
Example completion_outlives_its_session :
  let w :=
    run zero_rnd all_matched_world
      [EvBackToMenu; EvSubmit "ada" "ada@example.org"; EvTimeout 0] in
  Completed w
  ∧ matchedPairs (gameState w) = 0%N
  ∧ posted w = [mkScore "ada" "ada@example.org" (Num 2) 0 0].
Proof. repeat split; vm_compute; reflexivity. Qed.

(** ** C7: the clock *)

Lemma timer_ok_same w w' :
  nextHandle w' = nextHandle w →
  isGameActive (gameState w') = isGameActive (gameState w) →
  timerInterval (gameState w') = timerInterval (gameState w) →
  intervals w' = intervals w →
  timer_ok w → timer_ok w'.
Proof. unfold timer_ok. by intros -> -> -> ->. Qed.

Lemma stopTimer_clears w :
  (∃ h, timerInterval (gameState w) = Some (S h) ∧ intervals w = [S h])
  ∨ (timerInterval (gameState w) = None ∧ intervals w = []) →
  nextHandle (stopTimer w) = nextHandle w
  ∧ timerInterval (gameState (stopTimer w)) = None
  ∧ intervals (stopTimer w) = []
  ∧ isGameActive (gameState (stopTimer w)) = isGameActive (gameState w).
Proof.
  unfold stopTimer. intros [(h & Ht & Hi)|[Ht Hi]]; rewrite Ht; [|done].
  cbn [nextHandle gameState timerInterval intervals isGameActive].
  rewrite Hi, filter_cons_False, filter_nil; [done|]. by intros [].
Qed.

Lemma timer_ok_clock w :
  timer_ok w →
  (∃ h, timerInterval (gameState w) = Some (S h) ∧ intervals w = [S h])
  ∨ (timerInterval (gameState w) = None ∧ intervals w = []).
Proof.
  intros [_ Hw]. destruct (isGameActive (gameState w)); [by left|by right].
Qed.

Lemma timer_ok_stopped w' :
  0 < nextHandle w' →
  isGameActive (gameState w') = false →
  timerInterval (gameState w') = None →
  intervals w' = [] →
  timer_ok w'.
Proof. unfold timer_ok. by intros ? -> -> ->. Qed.

Lemma timer_ok_startGame rnd w :
  0 < nextHandle w → intervals w = [] → timer_ok (startGame rnd w).
Proof.
  intros Hn Hi.
  destruct (startGame_frame rnd w) as (c & σ & es & g & k & ->).
  unfold timer_ok. cbn. rewrite Hi. split; [lia|].
  destruct (nextHandle w) as [|h]; [lia|]. by exists h.
Qed.

(** The discipline of the clock is kept by every event, as long as games
    are started only while none is active. *)
Lemma timer_ok_step rnd w ev :
  (starts_game ev = true → isGameActive (gameState w) = false) →
  timer_ok w → timer_ok (step rnd w ev).
Proof.
  intros Hord Hw.
  destruct ev as [nf ef|i| | | |n|h]; cbn [step starts_game] in *.
  - rewrite handleStartGame_valid.
    destruct (validEntry nf ef); [|done].
    destruct Hw as [Hn Hw]. rewrite Hord in Hw by done.
    destruct Hw as [_ Hi]. by apply timer_ok_startGame.
  - destruct (gameGrid w !! i) as [e|]; [|done].
    rewrite handleCardClick_accepted.
    destruct (accepted e w); [|done].
    apply (timer_ok_same w); [..|done];
      unfold flipCard; cbv zeta; by case_decide.
  - destruct (stopTimer_clears w (timer_ok_clock w Hw))
      as (H1 & H2 & H3 & H4).
    destruct Hw as [Hn _].
    apply timer_ok_stopped; [|done..]. cbn. by rewrite H1.
  - destruct Hw as [Hn Hw]. rewrite Hord in Hw by done.
    destruct Hw as [_ Hi]. by apply timer_ok_startGame.
  - destruct (stopTimer_clears (set_gameCompleteModal false w)
                (timer_ok_clock w Hw)) as (H1 & H2 & H3 & H4).
    destruct Hw as [Hn _].
    apply timer_ok_stopped; [|done..].
    unfold handleBackToLeaderboard. cbn. by rewrite H1.
  - destruct (pending w !! n) as [[| |c1 c2]|]; [| | |done]; cbn [runTask].
    + apply (timer_ok_same w); [..|done];
        unfold checkForMatch; cbn [gameState set_pending];
        (destruct (flippedCards (gameState w)) as [|card1 [|card2 rest]];
         [done..|]);
        cbn [default from_option id];
        (destruct (String.eqb (type card1) (type card2)); [|done]);
        unfold handleMatch; cbv zeta; by case_decide.
    + destruct (stopTimer_clears
                  (set_gameState (set_isGameActive false)
                     (set_pending (delete n) w)) (timer_ok_clock w Hw))
        as (H1 & H2 & H3 & H4).
      destruct Hw as [Hn _].
      apply timer_ok_stopped; [|done..].
      unfold completeGame, submitScore. cbn. by rewrite H1.
    + done.
  - by case_bool_decide.
Qed.

Lemma timer_ok_run rnd w evs :
  orderly rnd w evs = true → timer_ok w → timer_ok (run rnd w evs).
Proof.
  revert w. induction evs as [|ev evs IH]; intros w Hord Hw; [done|].
  cbn [orderly] in Hord. apply andb_true_iff in Hord as [Hev Hord].
  apply IH; [done|]. apply timer_ok_step; [|done].
  intros Hs. rewrite Hs in Hev. by destruct (isGameActive (gameState w)).
Qed.

Lemma timer_ok_initialWorld storage : timer_ok (initialWorld storage).
Proof. by split; [cbn; lia|]. Qed.




(** ** Whole doubles *)

(** Up to 2^53 every whole number is a double. *)
Lemma to_double_exact z : (Z.abs z ≤ 2 ^ 53)%Z → to_double z = Num z.
Proof.
  intros Hz. unfold to_double.
  assert (round53 (Z.abs z) = Z.abs z) as ->.
  { destruct (Z.lt_ge_cases (Z.abs z) (2 ^ 53)) as [Hlt|Hge].
    - by apply round53_small.
    - assert (Z.abs z = 2 ^ 53)%Z as -> by lia. by vm_compute. }
  assert (2 ^ 53 < 2 ^ 1024)%Z as Hpow by (apply Z.pow_lt_mono_r; lia).
  rewrite (proj2 (Z.ltb_lt _ _)); [|lia].
  by rewrite Z.mul_comm, Z.abs_sgn.
Qed.

(** From 2^53 on, no double lies below 2^53. *)
Lemma round53_lower X : (2 ^ 53 ≤ X)%Z → (2 ^ 53 ≤ round53 X)%Z.
Proof.
  intros HX.
  destruct (round53_large X HX) as (m & -> & [Hm _] & HP & [Hlo _] & _).
  assert (53 ≤ Z.log2 X)%Z by (apply Z.log2_le_pow2; lia).
  assert (2 ^ 1 ≤ 2 ^ (Z.log2 X - 52))%Z by (apply Z.pow_le_mono_r; lia).
  set (P := (2 ^ (Z.log2 X - 52))%Z) in *. clearbody P.
  assert (2 ^ 52 ≤ X `div` P)%Z by (apply Z.div_le_lower_bound; lia).
  nia.
Qed.

Lemma to_double_back c a :
  (0 < a < 2 ^ 53)%Z → (0 ≤ c)%Z → to_double c = Num a → c = a.
Proof.
  intros Ha Hc. destruct (Z.lt_ge_cases c (2 ^ 53)) as [Hlt|Hge].
  - rewrite to_double_exact by lia. congruence.
  - unfold to_double. rewrite Z.abs_eq by done.
    pose proof (round53_lower c Hge).
    destruct (_ <? _)%Z; [|done].
    intros [= Heq]. rewrite Z.sgn_pos in Heq by lia. lia.
Qed.

Lemma shortest_at_small a p :
  (0 < a < 2 ^ 53)%Z → shortest_at a p = None ∨ shortest_at a p = Some a.
Proof.
  intros Ha. unfold shortest_at. cbv zeta.
  set (unit := (10 ^ Z.of_nat p)%Z).
  assert (0 < unit)%Z as Hunit by (apply Z.pow_pos_nonneg; lia).
  pose proof (Z.div_mod a unit ltac:(lia)) as Hdm.
  pose proof (Z.mod_pos_bound a unit Hunit) as Hr.
  assert (0 ≤ a `div` unit)%Z as Hq by (apply Z.div_pos; lia).
  set (lo := (a `div` unit * unit)%Z).
  assert (0 ≤ lo ≤ a)%Z as Hlo by (unfold lo; nia).
  rewrite (bool_decide_eq_false_2 (to_double (lo + unit) = Num a)).
  - case_bool_decide as Hback; [|by left]. right. f_equal.
    apply to_double_back in Hback; lia.
  - intros Hback. apply to_double_back in Hback; [|done|lia].
    unfold lo in Hback. lia.
Qed.

Lemma shortest_small a : (0 < a < 2 ^ 53)%Z → shortest a = a.
Proof.
  intros Ha. unfold shortest. cbv zeta.
  generalize (seq 1 (String.length (pretty a))). intros ks.
  generalize (String.length (pretty a)). intros n.
  induction ks as [|k ks IH]; [done|]. cbn [omap list_omap].
  destruct (shortest_at_small a (n - k) Ha) as [->| ->]; [exact IH|done].
Qed.

Lemma toString_exact z : (Z.abs z ≤ 2 ^ 53)%Z → toString (Num z) = pretty z.
Proof.
  intros Hz.
  assert (∀ p, (Z.pos p ≤ 2 ^ 53)%Z →
            format_decimal (shortest (Z.pos p)) = pretty (Z.pos p)) as Hpos.
  { intros p Hp. destruct (Z.lt_ge_cases (Z.pos p) (2 ^ 53)) as [Hlt|Hge].
    - rewrite shortest_small by lia. unfold format_decimal.
      rewrite (proj2 (Z.ltb_lt _ _)); [done|lia].
    - assert (Z.pos p = 2 ^ 53)%Z as -> by lia. by vm_compute. }
  destruct z as [|p|p]; cbn [toString]; [done|..].
  - apply Hpos. lia.
  - rewrite Hpos by lia. done.
Qed.

(** ** Reading back a stored attempt count *)

Lemma pretty_N_char_digit d :
  (d < 10)%N →
  digit_value 10 (pretty_N_char d) = Some d
  ∧ (∀ s, space_width (String (pretty_N_char d) s) = 0)
  ∧ pretty_N_char d ≠ "-"%char ∧ pretty_N_char d ≠ "+"%char
  ∧ pretty_N_char d ≠ "x"%char ∧ pretty_N_char d ≠ "X"%char.
Proof.
  intros Hd.
  assert (d = 0 ∨ d = 1 ∨ d = 2 ∨ d = 3 ∨ d = 4 ∨ d = 5 ∨ d = 6 ∨ d = 7
          ∨ d = 8 ∨ d = 9)%N as Hcases by lia.
  repeat (destruct Hcases as [->|Hcases]; [by vm_compute|]).
  subst. by vm_compute.
Qed.

(** The digits [pretty_N_go] writes in front of [s] are read back by
    [parse_digits] as the number written. *)
Lemma parse_digits_pretty_N_go x :
  (0 < x)%N →
  ∃ k, ∀ s acc,
    parse_digits 10 (pretty_N_go x s) acc
    = parse_digits 10 s (Some (default 0 acc * 10 ^ k + x))%N.
Proof.
  induction (N.lt_wf_0 x) as [x _ IH]. intros Hx.
  destruct (pretty_N_char_digit (x `mod` 10)) as (Hd & _);
    [by apply N.mod_lt|].
  destruct (decide (x < 10)%N) as [Hlt|Hge].
  - exists 1%N. intros s acc. rewrite pretty_N_go_step by done.
    rewrite N.div_small, pretty_N_go_0 by done. cbn [parse_digits].
    rewrite Hd, N.mod_small by done. do 2 f_equal; lia.
  - destruct (IH (x `div` 10)%N) as [k Hk].
    { apply N.div_lt; lia. }
    { apply N.div_str_pos. lia. }
    exists (k + 1)%N. intros s acc. rewrite pretty_N_go_step by done.
    rewrite Hk. cbn [parse_digits]. rewrite Hd. cbn [default from_option id].
    do 2 f_equal; rewrite ?N.pow_add_r, ?N.pow_1_r;
      pose proof (N.div_mod x 10); lia.
Qed.

(** They start with a digit, and what follows the first digit is either
    [s] or starts with a digit too. *)
Lemma pretty_N_go_head x s :
  (0 < x)%N →
  ∃ d s', pretty_N_go x s = String (pretty_N_char d) s' ∧ (d < 10)%N
    ∧ (s' = s
       ∨ ∃ d' s'', s' = String (pretty_N_char d') s'' ∧ (d' < 10)%N).
Proof.
  revert s. induction (N.lt_wf_0 x) as [x _ IH]. intros s Hx.
  assert (x `mod` 10 < 10)%N as Hm by by apply N.mod_lt.
  rewrite pretty_N_go_step by done.
  destruct (decide (x < 10)%N) as [Hlt|Hge].
  - rewrite N.div_small, pretty_N_go_0 by done. eauto 10.
  - destruct (IH (x `div` 10)%N) with
      (s := String (pretty_N_char (x `mod` 10)) s)
      as (d & s' & -> & Hd & Hs').
    { apply N.div_lt; lia. }
    { apply N.div_str_pos. lia. }
    exists d, s'. split; [done|]. split; [done|]. right.
    destruct Hs' as [->|?]; eauto.
Qed.

(** On a string that starts with a decimal digit, followed by nothing or
    by another digit, [parseInt] reads the decimal digits; behind a minus
    sign it negates them. *)
Lemma parseInt_decimal d s' :
  (d < 10)%N →
  (s' = "" ∨ ∃ d' s'', s' = String (pretty_N_char d') s'' ∧ (d' < 10)%N) →
  parseInt (String (pretty_N_char d) s')
  = match parse_digits 10 (String (pretty_N_char d) s') None with
    | Some n => to_double (Z.of_N n)
    | None => NaN
    end
  ∧ parseInt (String "-" (String (pretty_N_char d) s'))
    = match parse_digits 10 (String (pretty_N_char d) s') None with
      | Some n => to_double (- Z.of_N n)
      | None => NaN
      end.
Proof.
  intros Hd Hs'.
  assert (d = 0 ∨ d = 1 ∨ d = 2 ∨ d = 3 ∨ d = 4 ∨ d = 5 ∨ d = 6 ∨ d = 7
          ∨ d = 8 ∨ d = 9)%N as Hcases by lia.
  destruct Hcases as [->|Hcases].
  - destruct Hs' as [->|(d' & s'' & -> & Hd')]; [done|].
    assert (d' = 0 ∨ d' = 1 ∨ d' = 2 ∨ d' = 3 ∨ d' = 4 ∨ d' = 5 ∨ d' = 6
            ∨ d' = 7 ∨ d' = 8 ∨ d' = 9)%N as Hcases' by lia.
    repeat (destruct Hcases' as [->|Hcases']; [done|]). by subst.
  - repeat (destruct Hcases as [->|Hcases]; [done|]). by subst.
Qed.

Lemma parseInt_pretty_N x :
  (0 < x)%N →
  parseInt (pretty_N_go x "") = to_double (Z.of_N x)
  ∧ parseInt (String "-" (pretty_N_go x "")) = to_double (- Z.of_N x).
Proof.
  intros Hpos.
  destruct (pretty_N_go_head x "" Hpos) as (d & s' & Hs & Hd & Hs').
  destruct (parse_digits_pretty_N_go x Hpos) as [k Hk].
  specialize (Hk "" None). rewrite Hs in Hk |- *.
  destruct (parseInt_decimal d s' Hd Hs') as [-> ->]. rewrite Hk.
  cbn [parse_digits default from_option id].
  split; f_equal; lia.
Qed.

(** [parseInt] reads a decimal as the double nearest to it. *)
Lemma parseInt_pretty z : parseInt (pretty z) = to_double z.
Proof.
  destruct z as [|p|p]; [done|..].
  - change (pretty (Z.pos p)) with (pretty (Npos p)).
    unfold pretty, pretty_N. rewrite decide_False by done.
    by apply parseInt_pretty_N.
  - change (pretty (Z.neg p)) with (String "-" (pretty (Npos p))).
    unfold pretty, pretty_N. rewrite decide_False by done.
    by apply parseInt_pretty_N.
Qed.

Lemma pretty_Z_nonempty (z : Z) : pretty z ≠ "".
Proof.
  destruct z as [|p|p]; [done| |done].
  change (pretty (Z.pos p)) with (pretty (Npos p)).
  unfold pretty, pretty_N. rewrite decide_False by done.
  destruct (pretty_N_go_head (Npos p) "") as (d & s' & -> & _); done.
Qed.

(** Adding 1 is exact below 2^53, and has no effect at 2^53. *)
Lemma js_succ_exact z :
  (- 2 ^ 53 ≤ z < 2 ^ 53)%Z → js_succ (Num z) = Num (z + 1).
Proof. intros Hz. cbn [js_succ]. apply to_double_exact. lia. Qed.

Lemma js_succ_stuck : js_succ (Num (2 ^ 53)) = Num (2 ^ 53).
Proof. by vm_compute. Qed.

Lemma pretty_2_53 : pretty (2 ^ 53)%Z = "9007199254740992".
Proof. by vm_compute. Qed.

Lemma parseInt_2_53 : parseInt "9007199254740992" = Num (2 ^ 53).
Proof. rewrite <-pretty_2_53, parseInt_pretty. by apply to_double_exact. Qed.

Lemma toString_2_53 : toString (Num (2 ^ 53)) = "9007199254740992".
Proof. rewrite toString_exact by done. apply pretty_2_53. Qed.

(** ** C10: the attempt number at game start *)

(** C10, as stated, fails: a stored count of 2^53 is stamped as it is,
    not plus 1, and written back unchanged. *)
Lemma stored_count_not_always_incremented :
  let stored :=
    {["ada_ada@example.org" := "9007199254740992"]} : gmap string string in
  let w' :=
    handleStartGame zero_rnd "ada" "ada@example.org" (initialWorld stored) in
  ¬ stored_count_plus_one zero_rnd "ada" "ada@example.org"
      (initialWorld stored)
  ∧ attempt (currentPlayer (gameState w')) = Num 9007199254740992
  ∧ localStorage w' !! "ada_ada@example.org" = Some "9007199254740992".
Proof.
  intros stored w'.
  assert (attempt (currentPlayer (gameState w')) = Num 9007199254740992)
    as Ha by (vm_compute; reflexivity).
  split; [|split; [exact Ha|vm_compute; reflexivity]].
  intros Hclaim. specialize (Hclaim 9007199254740992%Z).
  fold w' in Hclaim. rewrite Ha in Hclaim.
  by specialize (Hclaim ltac:(vm_compute; reflexivity)).
Qed.

(** C10, amended.  When the form passes the checks and the game starts,
    the attempt stamped into the session is the stored count plus 1 if
    [localStorage] holds under the key [nickname + "_" + email] (the trimmed
    fields) the decimal of a whole number from -2^53 up to 2^53 - 1; a
    stored 2^53 is stamped as 2^53, the sum being rounded; and the attempt is
    1 if nothing is stored there.  In each case the decimal of the new
    value is written back under that key, the player is the one of the
    form, and the game is active. *)
Theorem handleStartGame_attempt (rnd : nat → Q) (w : World)
    (nicknameField emailField : string) :
  validEntry nicknameField emailField = true →
  let key := playerKey (trim nicknameField) (trim emailField) in
  let w' := handleStartGame rnd nicknameField emailField w in
  (∀ z : Z, localStorage w !! key = Some (pretty z) →
     (- 2 ^ 53 ≤ z < 2 ^ 53)%Z →
     attempt (currentPlayer (gameState w')) = Num (z + 1)
     ∧ localStorage w' = <[key := pretty (z + 1)%Z]> (localStorage w))
  ∧ (localStorage w !! key = Some "9007199254740992" →
     attempt (currentPlayer (gameState w')) = Num (2 ^ 53)
     ∧ localStorage w' = <[key := "9007199254740992"]> (localStorage w))
  ∧ (localStorage w !! key = None →
     attempt (currentPlayer (gameState w')) = Num 1
     ∧ localStorage w' = <[key := "1"]> (localStorage w))
  ∧ nickname (currentPlayer (gameState w')) = trim nicknameField
  ∧ email (currentPlayer (gameState w')) = trim emailField
  ∧ isGameActive (gameState w') = true.
Proof.
  intros Hvalid key w'. subst w'.
  rewrite handleStartGame_valid, Hvalid. cbv zeta. fold key.
  start_frame rnd.
  cbn [gameState currentPlayer localStorage set_localStorage set_gameState
       set_currentPlayer attempt nickname email isGameActive].
  split; [|split; [|split; [|done]]].
  - intros z -> Hz.
    rewrite (proj2 (String.eqb_neq _ _) (pretty_Z_nonempty z)).
    rewrite parseInt_pretty, to_double_exact, js_succ_exact by lia.
    by rewrite toString_exact by lia.
  - intros ->. change (String.eqb "9007199254740992" "") with false.
    cbn iota. by rewrite parseInt_2_53, js_succ_stuck, toString_2_53.
  - by intros ->.
Qed.

Lemma handleStartGame_attempt_witness :
  let stored := {["ada_ada@example.org" := "41"]} : gmap string string in
  let w' :=
    handleStartGame sample_rnd "  ada " "ada@example.org"
      (initialWorld stored) in
  attempt (currentPlayer (gameState w')) = Num 42
  ∧ localStorage w' = <["ada_ada@example.org" := "42"]> stored.
Proof.
  intros stored w'.
  destruct (handleStartGame_attempt sample_rnd (initialWorld stored)
              "  ada " "ada@example.org") as [Hstored _].
  - vm_compute; reflexivity.
  - apply (Hstored 41%Z); [vm_compute; reflexivity|lia].
Defined.

(** ** C9: trying again *)

(** C9, as stated, fails: a session completed with attempt 2^53 is tried
    again with attempt 2^53. *)
Lemma retry_does_not_always_increment :
  let w' := handleTryAgain zero_rnd worn_counter_world in
  ¬ retry_adds_one zero_rnd worn_counter_world
  ∧ Completed worn_counter_world
  ∧ attempt (currentPlayer (gameState worn_counter_world))
    = Num 9007199254740992
  ∧ attempt (currentPlayer (gameState w')) = Num 9007199254740992
  ∧ localStorage w' !! "ada_ada@example.org" = Some "9007199254740992".
Proof.
  intros w'.
  assert (attempt (currentPlayer (gameState worn_counter_world))
          = Num 9007199254740992) as Ha by (vm_compute; reflexivity).
  assert (attempt (currentPlayer (gameState w')) = Num 9007199254740992)
    as Ha' by (vm_compute; reflexivity).
  split; [|split; [split; vm_compute; reflexivity|]].
  - intros Hclaim. specialize (Hclaim _ Ha). fold w' in Hclaim.
    rewrite Ha' in Hclaim. done.
  - split; [exact Ha|]. split; [exact Ha'|vm_compute; reflexivity].
Qed.

(** C9, amended.  Trying again increments the attempt number of the
    player by exactly 1 when it is a whole number from -2^53 up to
    2^53 - 1; an attempt of 2^53 stays 2^53, the sum being rounded, and an
    attempt that is [NaN] stays [NaN].  In each case the new value is
    written to [localStorage] under the key [nickname + "_" + email] as
    [toString] prints it, and a new session starts: moves, elapsed seconds
    and matched pairs are 0, the pending turn is empty, the game is active,
    the modal is closed, the deck is a newly shuffled paired deck in a new
    array, and the grid holds sixteen new card elements, all hidden;
    nothing of the counters, the turn, the deck or the cards of the previous
    session remains in the new session. *)
Theorem handleTryAgain_new_session (rnd : nat → Q) (w : World) :
  unit_draws rnd →
  let p := currentPlayer (gameState w) in
  let key := playerKey (nickname p) (email p) in
  let w' := handleTryAgain rnd w in
  (∀ n, attempt p = Num n → (- 2 ^ 53 ≤ n < 2 ^ 53)%Z →
     currentPlayer (gameState w')
     = mkPlayer (nickname p) (email p) (Num (n + 1))
     ∧ localStorage w' = <[key := pretty (n + 1)%Z]> (localStorage w))
  ∧ (attempt p = Num (2 ^ 53) →
     currentPlayer (gameState w')
     = mkPlayer (nickname p) (email p) (Num (2 ^ 53))
     ∧ localStorage w' = <[key := "9007199254740992"]> (localStorage w))
  ∧ (attempt p = NaN →
     currentPlayer (gameState w') = mkPlayer (nickname p) (email p) NaN
     ∧ localStorage w' = <[key := "NaN"]> (localStorage w))
  ∧ moves (gameState w') = 0%N
  ∧ timer (gameState w') = 0%N
  ∧ matchedPairs (gameState w') = 0%N
  ∧ flippedCards (gameState w') = []
  ∧ isGameActive (gameState w') = true
  ∧ gameCompleteModal w' = false
  ∧ paired_deck (deck w')
  ∧ length (arrays w) < cards (gameState w')
  ∧ gameGrid w' = seq (length (elems w)) 16
  ∧ Forall (λ e, card_state (elem w' e) = hidden) (gameGrid w').
Proof.
  intros Hrnd p key w'. subst w'. unfold handleTryAgain. cbv zeta.
  match goal with
  | |- context [startGame rnd ?w0] => set (w1 := w0)
  end.
  pose proof (paired_deck_startGame rnd w1 Hrnd) as Hdeck.
  pose proof (hidden_startGame rnd w1 Hrnd) as Hhidden.
  pose proof (gameGrid_startGame rnd Hrnd w1) as Hgrid.
  assert (gameState (startGame rnd w1)
          = mkGameState (S (length (arrays w))) [] 0 0 0 true
              (Some (nextHandle w))
              (mkPlayer (nickname p) (email p) (js_succ (attempt p))))
    as Hgs by (by rewrite startGame_eq).
  assert (localStorage (startGame rnd w1)
          = <[key := toString (js_succ (attempt p))]> (localStorage w))
    as Hls by (by rewrite startGame_eq).
  assert (gameCompleteModal (startGame rnd w1) = false)
    as Hmod by (by rewrite startGame_eq).
  rewrite Hgs, Hls, Hmod, Hgrid. rewrite Hgrid in Hhidden.
  cbn [currentPlayer moves timer matchedPairs flippedCards isGameActive
       cards].
  split; [|split; [|split]].
  - intros n -> Hn. rewrite js_succ_exact by done.
    by rewrite toString_exact by lia.
  - intros ->. by rewrite js_succ_stuck, toString_2_53.
  - by intros ->.
  - repeat (split; [done|]). split; [lia|]. done.
Qed.

Lemma handleTryAgain_new_session_witness :
  let w := step zero_rnd all_matched_world (EvTimeout 0) in
  let w' := handleTryAgain zero_rnd w in
  Completed w
  ∧ moves (gameState w) = 8%N
  ∧ attempt (currentPlayer (gameState w)) = Num 1
  ∧ currentPlayer (gameState w') = mkPlayer "ada" "ada@example.org" (Num 2)
  ∧ localStorage w' !! "ada_ada@example.org" = Some "2"
  ∧ moves (gameState w') = 0%N
  ∧ matchedPairs (gameState w') = 0%N
  ∧ flippedCards (gameState w') = [].
Proof.
  intros w w'.
  assert (attempt (currentPlayer (gameState w)) = Num 1) as Hn
    by (vm_compute; reflexivity).
  destruct (handleTryAgain_new_session zero_rnd w zero_rnd_unit)
    as (Hnum & _ & _ & Hm & _ & Hmp & Hfs & _).
  destruct (Hnum 1%Z Hn ltac:(lia)) as [Hp Hls].
  split; [split; vm_compute; reflexivity|].
  split; [vm_compute; reflexivity|]. split; [exact Hn|].
  split; [exact Hp|]. split; [|by repeat split].
  fold w' in Hls. rewrite Hls. vm_compute; reflexivity.
Defined.

(** ** formatTime *)

Lemma string_app_assoc (s1 s2 s3 : string) :
  (s1 +:+ s2) +:+ s3 = s1 +:+ s2 +:+ s3.
Proof.
  induction s1 as [|c s1 IH]; [done|].
  change (String c ((s1 +:+ s2) +:+ s3) = String c (s1 +:+ s2 +:+ s3)).
  by rewrite IH.
Qed.

Lemma digits_only_app s1 s2 :
  digits_only (s1 +:+ s2) = digits_only s1 && digits_only s2.
Proof.
  induction s1 as [|c s1 IH]; [done|].
  change (bool_decide (is_Some (digit_value 10 c)) && digits_only (s1 +:+ s2)
          = bool_decide (is_Some (digit_value 10 c)) && digits_only s1
            && digits_only s2).
  by rewrite IH, andb_assoc.
Qed.

Lemma pretty_N_go_digits x :
  ∃ ds, digits_only ds = true ∧ ∀ s, pretty_N_go x s = ds +:+ s.
Proof.
  induction (N.lt_wf_0 x) as [x _ IH].
  destruct (decide (x = 0)%N) as [->|Hx].
  { exists "". split; [done|]. intros s. by rewrite pretty_N_go_0. }
  destruct (IH (x `div` 10)%N) as (ds & Hds & Hgo).
  { apply N.div_lt; lia. }
  destruct (pretty_N_char_digit (x `mod` 10)) as (Hd & _);
    [by apply N.mod_lt|].
  exists (ds +:+ String (pretty_N_char (x `mod` 10)) ""). split.
  - rewrite digits_only_app, Hds. simpl. rewrite Hd. done.
  - intros s. rewrite pretty_N_go_step by lia.
    by rewrite Hgo, string_app_assoc.
Qed.

Lemma digits_only_pretty (n : N) : digits_only (pretty n) = true.
Proof.
  unfold pretty, pretty_N. case_decide; [done|].
  destruct (pretty_N_go_digits n) as (ds & Hds & ->).
  by rewrite digits_only_app, Hds.
Qed.

(** Digits followed by something that is no digit split in one way. *)
Lemma digits_split d1 c1 t1 d2 c2 t2 :
  digits_only d1 = true → digits_only d2 = true →
  digit_value 10 c1 = None → digit_value 10 c2 = None →
  d1 +:+ String c1 t1 = d2 +:+ String c2 t2 →
  d1 = d2 ∧ c1 = c2 ∧ t1 = t2.
Proof.
  revert d2. induction d1 as [|a d1 IH]; intros [|b d2]; simpl.
  - by intros _ _ _ _ [= -> ->].
  - intros _ [Hb _]%andb_true_iff Hc1 _ [= -> _].
    apply bool_decide_eq_true in Hb. rewrite Hc1 in Hb. by destruct Hb.
  - intros [Ha _]%andb_true_iff _ _ Hc2 [= -> _].
    apply bool_decide_eq_true in Ha. rewrite Hc2 in Ha. by destruct Ha.
  - intros [_ H1]%andb_true_iff [_ H2]%andb_true_iff Hc1 Hc2 [= -> Heq].
    destruct (IH d2 H1 H2 Hc1 Hc2 Heq) as (-> & -> & ->). done.
Qed.

Lemma formatTime_short seconds :
  (seconds < 60)%N → formatTime seconds = pretty seconds +:+ "с".
Proof. unfold formatTime. intros. by rewrite (proj2 (N.ltb_lt _ _)). Qed.

Lemma formatTime_long seconds :
  (60 ≤ seconds)%N →
  formatTime seconds
  = pretty (seconds `div` 60)%N +:+ "х "
    +:+ pretty (seconds `mod` 60)%N +:+ "с".
Proof. unfold formatTime. intros. by rewrite (proj2 (N.ltb_ge _ _)). Qed.

Lemma formatTime_inj (a b : N) : formatTime a = formatTime b → a = b.
Proof.
  destruct (decide (a < 60)%N) as [Ha|Ha], (decide (b < 60)%N) as [Hb|Hb].
  - rewrite !formatTime_short by done. intros Heq.
    apply digits_split in Heq as (Heq & _);
      [|apply digits_only_pretty..|done|done].
    by apply (inj pretty).
  - rewrite formatTime_short, formatTime_long by (done || lia).
    intros Heq.
    by apply digits_split in Heq as (_ & _ & ?);
      [|apply digits_only_pretty..|done|done].
  - rewrite formatTime_long, formatTime_short by (done || lia).
    intros Heq.
    by apply digits_split in Heq as (_ & _ & ?);
      [|apply digits_only_pretty..|done|done].
  - rewrite !formatTime_long by lia. intros Heq.
    apply digits_split in Heq as (Hm & _ & Heq);
      [|apply digits_only_pretty..|done|done].
    apply (inj pretty) in Hm. injection Heq as Heq.
    apply digits_split in Heq as (Hr & _);
      [|apply digits_only_pretty..|done|done].
    apply (inj pretty) in Hr.
    rewrite (N.div_mod a 60), (N.div_mod b 60) by done. congruence.
Qed.

(** X1. [formatTime] never shows two different durations the same way. *)
Theorem formatTime_distinct (a b : N) :
  a ≠ b → formatTime a ≠ formatTime b.
Proof. intros Hne Heq. by apply Hne, formatTime_inj. Qed.

Lemma formatTime_distinct_witness :
  formatTime 59 = "59с" ∧ formatTime 60 = "1х 0с"
  ∧ formatTime 59 ≠ formatTime 60.
Proof.
  split; [vm_compute; reflexivity|]. split; [vm_compute; reflexivity|].
  apply formatTime_distinct. lia.
Defined.

(** ** isValidEmail *)

(** A dot behind the start of a string is not part of a white-space
    character that starts there. *)
Lemma space_width_dot a y z :
  space_width (String a (y +:+ String "." z)) = space_width (String a y).
Proof.
  destruct y as [|b [|c y]]; [| |done].
  - change (String a ("" +:+ String "." z)) with (String a (String "." z)).
    unfold space_width. cbv zeta.
    change (N_of_ascii ".") with 46%N.
    repeat case_match; try done.
    all: repeat match goal with
         | H : context [(46 =? _)%N] |- _ => cbn in H
         end; try done.
    all: rewrite ?andb_false_r in *; cbn in *; try done.
  - change (String a (String b "" +:+ String "." z))
      with (String a (String b (String "." z))).
    unfold space_width. cbv zeta.
    change (N_of_ascii ".") with 46%N.
    repeat case_match; try done.
    all: rewrite ?andb_false_r in *; cbn in *; try done.
Qed.

Lemma plain_chars_dot y z :
  plain_chars (y +:+ String "." z) = plain_chars y && plain_chars z.
Proof.
  induction y as [|a y IH]; [done|].
  change (String a y +:+ String "." z)
    with (String a (y +:+ String "." z)).
  cbn [plain_chars]. rewrite space_width_dot, IH.
  by rewrite !andb_assoc.
Qed.

Lemma split_at_Some s l d :
  split_at s = Some (l, d) → s = l +:+ String "@" d.
Proof.
  revert l. induction s as [|c s IH]; intros l; [done|]. cbn [split_at].
  destruct (Ascii.eqb_spec c "@") as [->|Hc].
  - by intros [= <- <-].
  - destruct (split_at s) as [[l0 d0]|]; [|done].
    intros [= <- <-]. by rewrite (IH l0 eq_refl).
Qed.

Lemma split_at_plain l d :
  plain_chars l = true → split_at (l +:+ String "@" d) = Some (l, d).
Proof.
  induction l as [|c l IH]; [done|]. cbn [plain_chars].
  intros [[_ Hc]%andb_true_iff Hl]%andb_true_iff.
  change (split_at (String c (l +:+ String "@" d)) = Some (String c l, d)).
  cbn [split_at]. destruct (Ascii.eqb c "@"); [done|]. by rewrite IH.
Qed.

Lemma inner_dot_split d :
  inner_dot d = true → ∃ y z, d = y +:+ String "." z ∧ y ≠ "" ∧ z ≠ "".
Proof.
  induction d as [|a d IH]; [done|]. destruct d as [|c t]; [done|].
  cbn [inner_dot]. intros [[Hc Hs]%andb_true_iff|Hin]%orb_true_iff.
  - apply Ascii.eqb_eq in Hc as ->. exists (String a ""), t.
    split; [done|]. split; [done|]. intros ->. done.
  - destruct (IH Hin) as (y & z & -> & _ & Hz).
    by exists (String a y), z.
Qed.

Lemma inner_dot_app y z :
  y ≠ "" → z ≠ "" → inner_dot (y +:+ String "." z) = true.
Proof.
  intros Hy Hz. induction y as [|a y IH]; [done|].
  destruct y as [|b y].
  - change (inner_dot (String a (String "." z)) = true). cbn [inner_dot].
    apply orb_true_iff. left. apply andb_true_iff. split; [done|].
    apply negb_true_iff. by apply String.eqb_neq.
  - change (inner_dot (String a (String b (y +:+ String "." z))) = true).
    cbn [inner_dot]. apply orb_true_iff. right. by apply IH.
Qed.

(** X2. [isValidEmail] accepts exactly the strings [X@Y.Z] whose three parts
    are not empty and hold neither a white-space character (of those the
    class [\s] matches, U+00A0 and the like among them) nor [@]: the
    language of the regular expression. *)
Theorem isValidEmail_shape (email : string) :
  isValidEmail email = true ↔
  ∃ x y z, email = x +:+ "@" +:+ y +:+ "." +:+ z
    ∧ x ≠ "" ∧ y ≠ "" ∧ z ≠ ""
    ∧ plain_chars x = true ∧ plain_chars y = true ∧ plain_chars z = true.
Proof.
  unfold isValidEmail. split.
  - destruct (split_at email) as [[l d]|] eqn:Hsplit; [|done].
    intros [[[Hl Hpl]%andb_true_iff Hpd]%andb_true_iff Hdot]%andb_true_iff.
    apply split_at_Some in Hsplit as ->.
    destruct (inner_dot_split d Hdot) as (y & z & -> & Hy & Hz).
    rewrite plain_chars_dot in Hpd.
    apply andb_true_iff in Hpd as [Hpy Hpz].
    exists l, y, z. split; [done|]. split.
    { apply negb_true_iff in Hl. by apply String.eqb_neq in Hl. }
    by repeat split.
  - intros (x & y & z & -> & Hx & Hy & Hz & Hpx & Hpy & Hpz).
    change (x +:+ "@" +:+ y +:+ "." +:+ z)
      with (x +:+ String "@" (y +:+ String "." z)).
    rewrite split_at_plain by done.
    rewrite (proj2 (String.eqb_neq _ _) Hx), Hpx, plain_chars_dot, Hpy, Hpz.
    by rewrite inner_dot_app.
Qed.

(** X3. A submission of the form leaves the whole state as it was,
    storage, timers and draws included, exactly when the entry is turned
    away: the trimmed nickname has fewer than two UTF-16 code units or the
    trimmed email fails [isValidEmail].  An accepted entry always changes
    it. *)
Theorem handleStartGame_rejects (rnd : nat → Q) (w : World)
    (nicknameField emailField : string) :
  handleStartGame rnd nicknameField emailField w = w
  ↔ utf16_length (trim nicknameField) < 2
    ∨ isValidEmail (trim emailField) = false.
Proof.
  rewrite handleStartGame_valid. unfold validEntry. split.
  - case_bool_decide as Hlen; [|left; lia].
    destruct (isValidEmail (trim emailField)); [|by right].
    cbn [andb]. start_frame rnd. intros Heq.
    apply (f_equal nextHandle) in Heq. cbn in Heq. lia.
  - intros [Hshort| ->].
    + by rewrite bool_decide_eq_false_2 by lia.
    + by rewrite andb_false_r.
Qed.

(** ** getCardEmoji *)

Lemma deck_startGame_type rnd w i c :
  unit_draws rnd →
  deck (startGame rnd w) !! i = Some c → ∃ t, c = Some t ∧ t ∈ CARD_TYPES.
Proof.
  intros Hrnd Hi. apply list_elem_of_lookup_2 in Hi.
  rewrite deck_startGame in Hi by done.
  apply list_elem_of_In in Hi. simpl in Hi.
  repeat (destruct Hi as [<-|Hi];
          [eexists; split; [done|]; apply list_elem_of_In; simpl; tauto|]).
  done.
Qed.

Lemma cardType_startGame rnd w i e :
  unit_draws rnd →
  gameGrid (startGame rnd w) !! i = Some e →
  ∃ t, t ∈ CARD_TYPES
    ∧ deck (startGame rnd w) !! i = Some (Some t)
    ∧ elems (startGame rnd w) !! e = Some (createCardElement (Some t) i).
Proof.
  intros Hrnd. rewrite gameGrid_startGame by done.
  intros [-> Hi]%lookup_seq.
  rewrite <-(length_deck_startGame rnd Hrnd w) in Hi.
  destruct (lookup_lt_is_Some_2 _ _ Hi) as [c Hc].
  destruct (deck_startGame_type rnd w i c Hrnd Hc) as (t & -> & Ht).
  exists t. split; [done|]. split; [done|].
  by apply elems_startGame.
Qed.

(** X4. The fallback emoji of a card is the same for every card dealt:
    [emojiMap] is keyed by [card-1] ... [card-8] while the cards are named
    [1] ... [8], so the lookup always misses and the default is returned;
    under the names with the prefix, the map would give its own emoji. *)
Theorem getCardEmoji_always_default (rnd : nat → Q) (w : World) :
  unit_draws rnd →
  Forall (λ e, getCardEmoji (cardType (elem (startGame rnd w) e))
               = EmojiString "🎮")
    (gameGrid (startGame rnd w))
  ∧ Forall (λ t, getCardEmoji t = EmojiString "🎮"
                 ∧ getCardEmoji ("card-" +:+ t) ≠ EmojiString "🎮")
      CARD_TYPES.
Proof.
  intros Hrnd.
  assert (Forall (λ t, getCardEmoji t = EmojiString "🎮"
                 ∧ getCardEmoji ("card-" +:+ t) ≠ EmojiString "🎮")
            CARD_TYPES) as Htypes.
  { repeat constructor; by vm_compute. }
  split; [|done].
  apply Forall_lookup. intros i e Hi.
  destruct (cardType_startGame rnd w i e Hrnd Hi) as (t & Ht & _ & He).
  unfold elem. rewrite He. cbn [default from_option id createCardElement
    cardType].
  rewrite Forall_forall in Htypes. by apply Htypes.
Qed.

Lemma getCardEmoji_always_default_witness :
  getCardEmoji (cardType (elem (startGame sample_rnd (initialWorld ∅)) 0))
  = EmojiString "🎮"
  ∧ getCardEmoji "card-3" = EmojiString "🎨".
Proof.
  split; [|vm_compute; reflexivity].
  destruct (getCardEmoji_always_default sample_rnd (initialWorld ∅)
              sample_rnd_unit) as [Hall _].
  rewrite Forall_lookup in Hall. apply (Hall 0). vm_compute; reflexivity.
Defined.

(** ** The score posted *)

(** X7. A score is posted by the completion callback and by nothing else,
    and it is the score of the session as it stands when the callback
    runs: player, attempt, moves as tries, timer as seconds. *)
Theorem posted_step (rnd : nat → Q) (w : World) (ev : Event) :
  posted (step rnd w ev)
  = if fires TCompleteGame w ev then posted w ++ [currentScore w]
    else posted w.
Proof.
  destruct ev as [nf ef|i| | | |n|h]; cbn [step fires].
  - rewrite handleStartGame_valid.
    destruct (validEntry nf ef); [|done]. by start_frame rnd.
  - destruct (gameGrid w !! i) as [e|]; [|done].
    rewrite handleCardClick_accepted.
    destruct (accepted e w); [|done].
    unfold flipCard. cbv zeta. by case_decide.
  - unfold showStartScreen, stopTimer.
    by destruct (timerInterval (gameState w)) as [[|?]|].
  - unfold handleTryAgain. by start_frame rnd.
  - unfold handleBackToLeaderboard, showStartScreen, stopTimer.
    cbn [gameState set_gameCompleteModal].
    by destruct (timerInterval (gameState w)) as [[|?]|].
  - destruct (pending w !! n) as [[| |c1 c2]|]; [| | |done];
      cbn [runTask].
    + rewrite bool_decide_eq_false_2 by done.
      unfold checkForMatch. cbn [gameState set_pending].
      destruct (flippedCards (gameState w)) as [|c1 [|c2 rest]];
        [done..|].
      cbn [default from_option id].
      destruct (String.eqb (type c1) (type c2)); [|done].
      unfold handleMatch. cbv zeta. by case_decide.
    + rewrite bool_decide_eq_true_2 by done.
      unfold completeGame, submitScore, stopTimer, currentScore.
      cbn [gameState set_pending set_gameState set_isGameActive
           timerInterval].
      by destruct (timerInterval (gameState w)) as [[|?]|].
    + by rewrite bool_decide_eq_false_2.
  - by case_bool_decide.
Qed.

(** ** The attempt counter and the storage *)

Lemma attempt_stored_same w w' :
  currentPlayer (gameState w') = currentPlayer (gameState w) →
  localStorage w' = localStorage w →
  attempt_stored w → attempt_stored w'.
Proof. unfold attempt_stored. by intros -> ->. Qed.

(** Starting a game that stamps the attempt it stores keeps the two in
    step. *)
Lemma attempt_stored_startGame rnd w n e a :
  attempt_stored
    (startGame rnd
       (set_localStorage (insert (playerKey n e) (toString a))
          (set_gameState (set_currentPlayer (λ _, mkPlayer n e a)) w))).
Proof.
  destruct (startGame_frame rnd
              (set_localStorage (insert (playerKey n e) (toString a))
                 (set_gameState (set_currentPlayer (λ _, mkPlayer n e a)) w)))
    as (c & σ & es & grid & k & ->).
  unfold attempt_stored. cbn. apply lookup_insert_eq.
Qed.

Lemma attempt_stored_handleStartGame rnd w nf ef :
  validEntry nf ef = true → attempt_stored (handleStartGame rnd nf ef w).
Proof.
  intros Hv. rewrite handleStartGame_valid, Hv. cbv zeta.
  apply attempt_stored_startGame.
Qed.

Lemma attempt_stored_step rnd w ev :
  attempt_stored w → attempt_stored (step rnd w ev).
Proof.
  intros Hw. destruct ev as [nf ef|i| | | |n|h]; cbn [step].
  - destruct (validEntry nf ef) eqn:Hv.
    + by apply attempt_stored_handleStartGame.
    + by rewrite handleStartGame_valid, Hv.
  - destruct (gameGrid w !! i) as [e|]; [|done].
    rewrite handleCardClick_accepted.
    destruct (accepted e w); [|done].
    apply (attempt_stored_same w); [..|done];
      unfold flipCard; cbv zeta; by case_decide.
  - apply (attempt_stored_same w); [..|done];
      unfold showStartScreen, stopTimer;
      by destruct (timerInterval (gameState w)) as [[|?]|].
  - unfold handleTryAgain. cbv zeta.
    apply (attempt_stored_startGame rnd (set_gameCompleteModal false w)).
  - apply (attempt_stored_same w); [..|done];
      unfold handleBackToLeaderboard, showStartScreen, stopTimer;
      cbn [gameState set_gameCompleteModal];
      by destruct (timerInterval (gameState w)) as [[|?]|].
  - destruct (pending w !! n) as [[| |c1 c2]|]; [| | |done]; cbn [runTask].
    + apply (attempt_stored_same w); [..|done];
        unfold checkForMatch; cbn [gameState set_pending];
        (destruct (flippedCards (gameState w)) as [|card1 [|card2 rest]];
         [done..|]);
        cbn [default from_option id];
        (destruct (String.eqb (type card1) (type card2)); [|done]);
        unfold handleMatch; cbv zeta; by case_decide.
    + apply (attempt_stored_same w); [..|done];
        unfold completeGame, submitScore, stopTimer;
        cbn [gameState set_pending set_gameState set_isGameActive
             timerInterval];
        by destruct (timerInterval (gameState w)) as [[|?]|].
    + done.
  - by case_bool_decide.
Qed.

Lemma attempt_stored_run rnd w evs :
  attempt_stored w → attempt_stored (run rnd w evs).
Proof.
  revert w. induction evs as [|ev evs IH]; intros w Hw; [done|].
  apply IH. by apply attempt_stored_step.
Qed.

(** The attempt [handleStartGame] stamps for an accepted entry. *)
Lemma attempt_handleStartGame rnd w nf ef :
  validEntry nf ef = true →
  attempt (currentPlayer (gameState (handleStartGame rnd nf ef w)))
  = match localStorage w !! playerKey (trim nf) (trim ef) with
    | Some storedAttempt =>
        if String.eqb storedAttempt "" then Num 1
        else js_succ (parseInt storedAttempt)
    | None => Num 1
    end
  ∧ localStorage (handleStartGame rnd nf ef w)
    = <[playerKey (trim nf) (trim ef)
        := toString
             (attempt (currentPlayer
                         (gameState (handleStartGame rnd nf ef w))))]>
        (localStorage w).
Proof.
  intros Hv. rewrite handleStartGame_valid, Hv. cbv zeta.
  by start_frame rnd.
Qed.

(** X5. Once a game has been started from the form, the count kept in
    [localStorage] under the key of the current player is the current
    attempt, whatever events follow.  So the next start from the form under
    that key stamps exactly one more than the current attempt, as long as
    that is a whole number from -2^53 up to 2^53 - 1: each playthrough is
    counted once.  The key is all that matters: an entry with another
    nickname and email that join to the same key continues the same
    count. *)
Theorem attempt_counted_once (rnd : nat → Q) (w : World)
    (nicknameField emailField : string) (evs : list Event)
    (nicknameField' emailField' : string) (a : Z) :
  validEntry nicknameField emailField = true →
  let w1 := run rnd (handleStartGame rnd nicknameField emailField w) evs in
  let p := currentPlayer (gameState w1) in
  attempt_stored w1
  ∧ (validEntry nicknameField' emailField' = true →
     playerKey (trim nicknameField') (trim emailField')
     = playerKey (nickname p) (email p) →
     attempt p = Num a → (- 2 ^ 53 ≤ a < 2 ^ 53)%Z →
     attempt (currentPlayer
                (gameState (handleStartGame rnd nicknameField' emailField' w1)))
     = Num (a + 1)).
Proof.
  intros Hv w1 p.
  assert (attempt_stored w1) as Hstored.
  { by apply attempt_stored_run, attempt_stored_handleStartGame. }
  split; [done|]. intros Hv' Hkey Ha Hrange.
  destruct (attempt_handleStartGame rnd w1 _ _ Hv') as [-> _].
  rewrite Hkey. unfold attempt_stored in Hstored. fold p in Hstored.
  rewrite Hstored, Ha, toString_exact by lia.
  rewrite (proj2 (String.eqb_neq _ _) (pretty_Z_nonempty a)).
  rewrite parseInt_pretty, to_double_exact by lia.
  by apply js_succ_exact.
Qed.

Lemma attempt_counted_once_witness :
  let w1 :=
    run sample_rnd
      (handleStartGame sample_rnd "ada_lovelace" "x@example.org"
         (initialWorld ∅))
      [EvClickCard 0; EvBackToMenu; EvSubmit "bob" "bob@example.org";
       EvBackToMenu; EvSubmit " ada_lovelace" "x@example.org "; EvTryAgain] in
  attempt (currentPlayer (gameState w1)) = Num 3
  ∧ nickname (currentPlayer (gameState w1)) = "ada_lovelace"
  ∧ attempt (currentPlayer
               (gameState
                  (handleStartGame sample_rnd "ada" "lovelace_x@example.org"
                     w1)))
    = Num 4.
Proof.
  intros w1.
  assert (attempt (currentPlayer (gameState w1)) = Num 3) as Ha
    by (vm_compute; reflexivity).
  split; [exact Ha|]. split; [vm_compute; reflexivity|].
  apply (attempt_counted_once sample_rnd (initialWorld ∅)
           "ada_lovelace" "x@example.org"
           [EvClickCard 0; EvBackToMenu; EvSubmit "bob" "bob@example.org";
            EvBackToMenu; EvSubmit " ada_lovelace" "x@example.org ";
            EvTryAgain]
           "ada" "lovelace_x@example.org" 3);
    [vm_compute; reflexivity..|lia].
Defined.

(** X6. What [handleStartGame] makes of a stored value that is no count.
    An empty string counts as nothing stored: the attempt is 1.  A value
    [parseInt] cannot read makes the attempt [NaN], which is written back
    as the string NaN; trying again and starting again from the form then
    leave it [NaN]. *)
Theorem attempt_unreadable (rnd : nat → Q) (w : World)
    (nicknameField emailField storedAttempt : string) :
  validEntry nicknameField emailField = true →
  localStorage w !! playerKey (trim nicknameField) (trim emailField)
  = Some storedAttempt →
  let key := playerKey (trim nicknameField) (trim emailField) in
  let w' := handleStartGame rnd nicknameField emailField w in
  (storedAttempt = "" →
   attempt (currentPlayer (gameState w')) = Num 1
   ∧ localStorage w' = <[key := "1"]> (localStorage w))
  ∧ (storedAttempt ≠ "" → parseInt storedAttempt = NaN →
     attempt (currentPlayer (gameState w')) = NaN
     ∧ localStorage w' = <[key := "NaN"]> (localStorage w)
     ∧ attempt (currentPlayer (gameState (handleTryAgain rnd w'))) = NaN
     ∧ attempt (currentPlayer
                  (gameState
                     (handleStartGame rnd nicknameField emailField w')))
       = NaN).
Proof.
  intros Hv Hs key w'.
  destruct (attempt_handleStartGame rnd w _ _ Hv) as [Ha Hls].
  rewrite Hs in Ha. fold key w' in Ha, Hls.
  split.
  - intros ->. cbn [String.eqb] in Ha. by rewrite Hls, Ha.
  - intros Hne Hnan.
    rewrite (proj2 (String.eqb_neq _ _) Hne), Hnan in Ha. cbn in Ha.
    split; [done|]. split; [by rewrite Hls, Ha|]. split.
    + unfold handleTryAgain. cbv zeta. start_frame rnd.
      cbn. by rewrite Ha.
    + destruct (attempt_handleStartGame rnd w' _ _ Hv) as [-> _].
      fold key. rewrite Hls, lookup_insert_eq, Ha. done.
Qed.

Lemma attempt_unreadable_witness :
  let stored := {["ada_ada@example.org" := "first"]} : gmap string string in
  let w' :=
    handleStartGame sample_rnd "ada" "ada@example.org"
      (initialWorld stored) in
  attempt (currentPlayer (gameState w')) = NaN
  ∧ localStorage w' !! "ada_ada@example.org" = Some "NaN"
  ∧ attempt (currentPlayer (gameState (handleTryAgain sample_rnd w'))) = NaN.
Proof.
  intros stored w'.
  destruct (attempt_unreadable sample_rnd (initialWorld stored)
              "ada" "ada@example.org" "first") as [_ Hjunk].
  - vm_compute; reflexivity.
  - vm_compute; reflexivity.
  - destruct Hjunk as (Ha & Hls & Hta & _); [done|vm_compute; reflexivity|].
    split; [exact Ha|]. split; [|exact Hta].
    fold w' in Hls. rewrite Hls. vm_compute; reflexivity.
Defined.

(** ** Leaving a game *)

Lemma handleBackToLeaderboard_showStartScreen w :
  handleBackToLeaderboard w = showStartScreen w.
Proof.
  unfold handleBackToLeaderboard, showStartScreen, stopTimer.
  cbn [gameState set_gameCompleteModal].
  by destruct (timerInterval (gameState w)) as [[|?]|].
Qed.

(** X8. Going back to the menu, from the game or from the modal, with the
    clock kept in order: the game is inactive, no interval is live, the
    modal is closed, and the counters, the turn and the deck are as they
    were; after that, clicks on cards and ticks change nothing, and going
    back once more changes nothing either.  The two buttons that lead back
    do the same to the state. *)
Theorem showStartScreen_freezes (rnd : nat → Q) (w : World) :
  timer_ok w →
  let w' := showStartScreen w in
  isGameActive (gameState w') = false
  ∧ intervals w' = [] ∧ timerInterval (gameState w') = None
  ∧ gameCompleteModal w' = false
  ∧ moves (gameState w') = moves (gameState w)
  ∧ timer (gameState w') = timer (gameState w)
  ∧ matchedPairs (gameState w') = matchedPairs (gameState w)
  ∧ flippedCards (gameState w') = flippedCards (gameState w)
  ∧ deck w' = deck w
  ∧ (∀ cardElement cardIndex,
       handleCardClick cardElement cardIndex w' = w')
  ∧ (∀ i, step rnd w' (EvClickCard i) = w')
  ∧ (∀ h, step rnd w' (EvInterval h) = w')
  ∧ showStartScreen w' = w'
  ∧ handleBackToLeaderboard w = w'.
Proof.
  intros Hok w'.
  destruct (stopTimer_clears w (timer_ok_clock w Hok)) as (_ & Hti & Hiv & _).
  assert (isGameActive (gameState w') = false) as Hin by done.
  assert (intervals w' = []) as Hiv' by done.
  assert (timerInterval (gameState w') = None) as Hti' by done.
  assert (∀ e i, handleCardClick e i w' = w') as Hclick.
  { intros e i. unfold handleCardClick. by rewrite Hin. }
  split; [done|]. split; [done|]. split; [done|]. split; [done|].
  assert (gameState (stopTimer w)
          = mkGameState (cards (gameState w)) (flippedCards (gameState w))
              (matchedPairs (gameState w)) (moves (gameState w))
              (timer (gameState w)) (isGameActive (gameState w)) None
              (currentPlayer (gameState w))
          ∧ arrays (stopTimer w) = arrays w) as [Hgs Har].
  { unfold stopTimer.
    by destruct (timerInterval (gameState w)) as [[|?]|] eqn:Hw;
      destruct w as [[c fs mp mv tm act ti pl] ar el gr pe iv nh ls rc gm po];
      cbn in *; subst. }
  assert (gameState w'
          = mkGameState (cards (gameState w)) (flippedCards (gameState w))
              (matchedPairs (gameState w)) (moves (gameState w))
              (timer (gameState w)) false None
              (currentPlayer (gameState w))) as Hgs'.
  { subst w'. unfold showStartScreen. cbn. by rewrite Hgs. }
  rewrite Hgs'. cbn [moves timer matchedPairs flippedCards].
  do 4 (split; [done|]).
  split. { unfold deck. rewrite Hgs'. subst w'. unfold showStartScreen.
           cbn. by rewrite Har. }
  split; [done|]. split.
  { intros i. cbn [step]. by destruct (gameGrid w' !! i). }
  split.
  { intros h. cbn [step]. rewrite Hiv'.
    by rewrite bool_decide_eq_false_2 by apply not_elem_of_nil. }
  split; [|apply handleBackToLeaderboard_showStartScreen].
  unfold showStartScreen at 1. unfold stopTimer. rewrite Hti'.
  clear -Hin Hti'. unfold showStartScreen in *.
  destruct (stopTimer w)
    as [[c fs mp mv tm act ti pl] ar el gr pe iv nh ls rc gm po].
  cbn in *. by subst.
Qed.

Lemma showStartScreen_freezes_witness :
  let w :=
    run sample_rnd (initialWorld ∅)
      [EvSubmit "ada" "ada@example.org"; EvInterval 1; EvClickCard 0] in
  let w' := showStartScreen w in
  timer (gameState w') = 1%N
  ∧ step sample_rnd w' (EvClickCard 3) = w'
  ∧ step sample_rnd w' (EvInterval 1) = w'.
Proof.
  intros w w'.
  assert (timer_ok w) as Hok.
  { apply timer_ok_run; [vm_compute; reflexivity|].
    apply timer_ok_initialWorld. }
  destruct (showStartScreen_freezes sample_rnd w Hok)
    as (_ & _ & _ & _ & _ & Ht & _ & _ & _ & _ & Hc & Hi & _).
  split; [|split; [apply Hc|apply Hi]].
  unfold w'. rewrite Ht. vm_compute; reflexivity.
Defined.

(** ** A clock that is already running *)

Lemma filter_below (n : nat) (l : list nat) :
  Forall (λ h, h < n) l → filter (λ h, h ≠ n) l = l.
Proof.
  induction 1 as [|h l Hh _ IH]; [done|].
  rewrite filter_cons_True by lia. by rewrite IH.
Qed.

(** X9. [startGame] does not stop a clock that is already running.  With
    the handles in use below the next one to hand out, the intervals live
    before stay live beside the new one, and they are still live when the
    new game has completed: the completion clears the new interval only, so
    each of the old ones goes on adding a second per tick to the timer of
    the completed game. *)
Theorem startGame_keeps_running_clock (rnd : nat → Q) (w : World) (h : nat) :
  0 < nextHandle w →
  Forall (λ h', h' < nextHandle w) (intervals w) →
  h ∈ intervals w →
  let w' := startGame rnd w in
  intervals w' = intervals w ++ [nextHandle w]
  ∧ (nextHandle w ∉ intervals w)
  ∧ intervals (completeGame w') = intervals w
  ∧ isGameActive (gameState (completeGame w')) = false
  ∧ timer (gameState (step rnd (completeGame w') (EvInterval h)))
    = (timer (gameState (completeGame w')) + 1)%N.
Proof.
  intros Hn Hfresh Hh w'. subst w'.
  assert (nextHandle w ∉ intervals w) as Hnot.
  { intros Hin. rewrite Forall_forall in Hfresh.
    specialize (Hfresh _ Hin). lia. }
  destruct (startGame_frame rnd w) as (c & σ & es & grid & k & ->).
  cbn [intervals]. split; [done|]. split; [done|].
  assert (intervals (completeGame
            {| gameState :=
                 {| cards := c; flippedCards := []; matchedPairs := 0;
                    moves := 0; timer := 0; isGameActive := true;
                    timerInterval := Some (nextHandle w);
                    currentPlayer := currentPlayer (gameState w) |};
               arrays := σ; elems := elems w ++ es; gameGrid := grid;
               pending := pending w;
               intervals := intervals w ++ [nextHandle w];
               nextHandle := S (nextHandle w);
               localStorage := localStorage w; randomCalls := k;
               gameCompleteModal := gameCompleteModal w;
               posted := posted w |}) = intervals w) as Hiv.
  { unfold completeGame, submitScore, stopTimer. cbn.
    destruct (nextHandle w) as [|n] eqn:Hnh; [lia|]. cbn.
    rewrite filter_app, filter_below by done.
    rewrite filter_cons_False, filter_nil, app_nil_r; [done|]. by intros []. }
  split; [done|]. split.
  { unfold completeGame, submitScore, stopTimer. cbn.
    by destruct (nextHandle w). }
  cbn [step]. rewrite Hiv, bool_decide_eq_true_2 by done.
  cbn. lia.
Qed.

Lemma startGame_keeps_running_clock_witness :
  let w := startGame sample_rnd (initialWorld ∅) in
  let w' := completeGame (startGame sample_rnd w) in
  intervals w = [1]
  ∧ intervals w' = [1]
  ∧ isGameActive (gameState w') = false
  ∧ timer (gameState (step sample_rnd w' (EvInterval 1)))
    = (timer (gameState w') + 1)%N.
Proof.
  intros w w'.
  assert (intervals w = [1]) as Hiv by (vm_compute; reflexivity).
  destruct (startGame_keeps_running_clock sample_rnd w 1)
    as (_ & _ & Hc & Hin & Ht).
  - vm_compute; lia.
  - rewrite Hiv. repeat constructor.
  - rewrite Hiv. apply list_elem_of_here.
  - split; [exact Hiv|]. fold w' in Hc, Hin, Ht.
    split; [by rewrite Hc|]. split; [exact Hin|exact Ht].
Defined.

(** ** Short arrays *)

(** X10. An array with at most one element comes back from [shuffleArray]
    as a copy in a new location, without any call of [Math.random],
    whatever the oracle. *)
Theorem shuffleArray_short {A : Type} (rnd : nat → Q) (k : nat)
    (σ : list (list (option A))) (array : nat) :
  length (store_get σ array) ≤ 1 →
  shuffleArray rnd k σ array = (σ ++ [store_get σ array], length σ, k).
Proof.
  intros Hlen. unfold shuffleArray, store_alloc. rewrite store_get_alloc.
  by replace (length (store_get σ array) - 1) with 0 by lia.
Qed.

Lemma shuffleArray_short_witness :
  shuffleArray (λ _, 5%Q) 7 [[Some "a"]; []] 0
  = ([[Some "a"]; []; [Some "a"]], 2, 7)
  ∧ shuffleArray (λ _, 5%Q) 7 [[Some "a"]; []] 1
    = ([[Some "a"]; []; []], 2, 7).
Proof.
  split.
  - apply (shuffleArray_short (λ _, 5%Q) 7 [[Some "a"]; []] 0). cbn. lia.
  - apply (shuffleArray_short (λ _, 5%Q) 7 [[Some "a"]; []] 1). cbn. lia.
Defined.

(** ** A whole turn *)

(** [flipCard] as one update of the world. *)
Lemma flipCard_eq e i w :
  flipCard e i w
  = let g := gameState w in
    let second := bool_decide (length (flippedCards g) = 1) in
    mkWorld
      (mkGameState (cards g)
         (flippedCards g
          ++ [mkFlipped e i
                (cardType
                   (elem (set_elems (alter (class_add "flipped") e) w) e))])
         (matchedPairs g)
         (if second then N.succ (moves g) else moves g)
         (timer g) (isGameActive g) (timerInterval g) (currentPlayer g))
      (arrays w) (alter (class_add "flipped") e (elems w)) (gameGrid w)
      (if second then pending w ++ [TCheckForMatch] else pending w)
      (intervals w) (nextHandle w) (localStorage w) (randomCalls w)
      (gameCompleteModal w) (posted w).
Proof.
  unfold flipCard. cbv zeta.
  cbn [gameState set_gameState set_elems set_flippedCards flippedCards].
  rewrite length_app. cbn [length].
  case_bool_decide as Hlen.
  - by rewrite decide_True by lia.
  - by rewrite decide_False by lia.
Qed.

Lemma cardType_class_add c x : cardType (class_add c x) = cardType x.
Proof. done. Qed.

Lemma card_state_reveal x :
  card_state x = hidden → card_state (class_add "flipped" x) = revealed.
Proof.
  intros Hx. rewrite card_state_flipped.
  destruct (contains "matched" x) eqn:Hm; [|done].
  apply card_state_matched_iff in Hm. congruence.
Qed.

(** X11. A turn from start to end.  In an active game with nothing
    pending, clicking two different hidden cards of the grid reveals both,
    counts one move and schedules one resolution.  When that callback runs,
    the turn is empty again; if the two cards carry the same type they are
    both matched and one more pair is counted; if not, no pair is counted,
    both stay revealed until the flip back scheduled by the resolution
    runs, and then both are hidden again. *)
Theorem whole_turn (rnd : nat → Q) (w : World) (i j e1 e2 : nat) :
  isGameActive (gameState w) = true →
  flippedCards (gameState w) = [] →
  gameGrid w !! i = Some e1 → gameGrid w !! j = Some e2 →
  e1 ≠ e2 → e1 < length (elems w) → e2 < length (elems w) →
  card_state (elem w e1) = hidden → card_state (elem w e2) = hidden →
  let n := length (pending w) in
  let w2 := run rnd w [EvClickCard i; EvClickCard j] in
  let w3 := step rnd w2 (EvTimeout n) in
  (card_state (elem w2 e1) = revealed ∧ card_state (elem w2 e2) = revealed
   ∧ moves (gameState w2) = (moves (gameState w) + 1)%N
   ∧ pending w2 = pending w ++ [TCheckForMatch])
  ∧ flippedCards (gameState w3) = []
  ∧ moves (gameState w3) = (moves (gameState w) + 1)%N
  ∧ (cardType (elem w e1) = cardType (elem w e2) →
     card_state (elem w3 e1) = matched ∧ card_state (elem w3 e2) = matched
     ∧ matchedPairs (gameState w3) = (matchedPairs (gameState w) + 1)%N)
  ∧ (cardType (elem w e1) ≠ cardType (elem w e2) →
     card_state (elem w3 e1) = revealed ∧ card_state (elem w3 e2) = revealed
     ∧ matchedPairs (gameState w3) = matchedPairs (gameState w)
     ∧ pending w3 = pending w ++ [TFlipBack e1 e2]
     ∧ card_state (elem (step rnd w3 (EvTimeout n)) e1) = hidden
     ∧ card_state (elem (step rnd w3 (EvTimeout n)) e2) = hidden).
Proof.
  intros Hact Hfs Hi Hj Hne He1 He2 Hh1 Hh2 n w2 w3.
  assert (accepted e1 w = true) as Ha1.
  { apply accepted_true. rewrite Hfs. cbn. auto. }
  assert (w2 = flipCard e2 j (flipCard e1 i w)) as Hw2.
  { subst w2. cbn [run foldl step]. rewrite Hi, handleCardClick_accepted, Ha1.
    replace (gameGrid (flipCard e1 i w)) with (gameGrid w)
      by (by rewrite flipCard_eq).
    rewrite Hj, handleCardClick_accepted.
    rewrite (proj2 (accepted_true e2 (flipCard e1 i w))); [done|].
    rewrite elem_flipCard, elem_alter, decide_False
      by (intros [? _]; congruence).
    rewrite flipCard_eq. cbn. rewrite Hfs. cbn. auto. }
  assert (w3 = step rnd w2 (EvTimeout n)) as Hw3' by done.
  clearbody w3 w2.
  assert (elems w2 = alter (class_add "flipped") e2
                       (alter (class_add "flipped") e1 (elems w))) as Hes2.
  { rewrite Hw2, !flipCard_eq. reflexivity. }
  assert (∀ e, elem w2 e
          = elem (set_elems (alter (class_add "flipped") e2)
                    (set_elems (alter (class_add "flipped") e1) w)) e)
    as Hel2.
  { intros e. unfold elem. by rewrite Hes2. }
  assert (gameState w2
          = mkGameState (cards (gameState w))
              [mkFlipped e1 i (cardType (elem w e1));
               mkFlipped e2 j (cardType (elem w e2))]
              (matchedPairs (gameState w)) (moves (gameState w) + 1)%N
              (timer (gameState w)) true (timerInterval (gameState w))
              (currentPlayer (gameState w))) as Hgs2.
  { rewrite Hw2, !flipCard_eq. cbv zeta.
    cbn [gameState flippedCards cards matchedPairs moves timer isGameActive
         timerInterval currentPlayer]. rewrite Hfs, Hact. cbn [app length].
    rewrite !(bool_decide_eq_false_2 (0 = 1)), !(bool_decide_eq_true_2 (1 = 1))
      by done.
    rewrite N.add_1_r. f_equal. f_equal; [|f_equal]; f_equal.
    - by rewrite elem_alter, decide_True by (by split).
    - rewrite elem_alter, decide_True.
      + cbn [cardType class_add].
        match goal with
        | |- cardType (elem ?w0 e2) = _ =>
            change (elem w0 e2)
              with (elem (set_elems (alter (class_add "flipped") e1) w) e2)
        end.
        by rewrite elem_alter, decide_False by (intros [? _]; congruence).
      + split; [done|]. cbn [elems]. by rewrite length_alter. }
  assert (pending w2 = pending w ++ [TCheckForMatch]) as Hp2.
  { rewrite Hw2, !flipCard_eq. cbv zeta.
    cbn [gameState flippedCards pending]. rewrite Hfs. cbn [app length].
    by rewrite !(bool_decide_eq_false_2 (0 = 1)), !(bool_decide_eq_true_2 (1 = 1))
      by done. }
  assert (card_state (elem w2 e1) = revealed
          ∧ card_state (elem w2 e2) = revealed) as [Hr1 Hr2].
  { rewrite !Hel2, !elem_alter. cbn [elems set_elems].
    rewrite ?length_alter.
    split; repeat case_decide;
      try (exfalso; intuition (lia || congruence));
      by apply card_state_reveal. }
  split. { rewrite Hgs2. by cbn [moves]. }
  (* the resolution *)
  set (w2' := set_pending (delete n) w2).
  assert (w3 = default w2' (checkForMatch w2')) as Hw3.
  { rewrite Hw3'. subst w2'. cbn [step]. unfold n at 1.
    by rewrite Hp2, list_lookup_middle. }
  clear Hw3'.
  assert (pending w2' = pending w) as Hp2'.
  { subst w2' n. cbn [pending set_pending].
    by rewrite Hp2, delete_middle, app_nil_r. }
  unfold checkForMatch in Hw3.
  change (gameState w2') with (gameState w2) in Hw3.
  rewrite Hgs2 in Hw3.
  cbn [flippedCards type element default from_option id] in Hw3.
  assert (∀ e, elem w2' e = elem w2 e) as Hel2' by done.
  destruct (String.eqb_spec (cardType (elem w e1)) (cardType (elem w e2)))
    as [Heq|Hneq].
  - assert (flippedCards (gameState w3) = []) as -> by (by rewrite Hw3).
    split; [done|]. split.
    { rewrite Hw3. unfold handleMatch. cbv zeta.
      case_decide; cbn; by rewrite Hgs2. }
    split; [|done]. intros _.
    assert (∀ e, elem w3 e
            = elem (set_elems (alter (class_add "matched") e2)
                      (set_elems (alter (class_add "matched") e1) w2')) e)
      as Hel3.
    { intros e. rewrite Hw3.
      change (elem (set_gameState ?f ?w0) e) with (elem w0 e).
      by rewrite elem_handleMatch. }
    assert (length (elems w2') = length (elems w)) as Hlen.
    { change (elems w2') with (elems w2). by rewrite Hes2, !length_alter. }
    split; [|split].
    + rewrite Hel3, !elem_alter. cbn [elems set_elems].
      rewrite ?length_alter, ?Hlen.
      repeat case_decide;
        try (exfalso; intuition (lia || congruence));
        apply card_state_matched.
    + rewrite Hel3, !elem_alter. cbn [elems set_elems].
      rewrite ?length_alter, ?Hlen.
      repeat case_decide;
        try (exfalso; intuition (lia || congruence));
        apply card_state_matched.
    + rewrite Hw3. unfold handleMatch. cbv zeta.
      case_decide; cbn; rewrite Hgs2; cbn; lia.
  - assert (flippedCards (gameState w3) = []) as -> by (by rewrite Hw3).
    split; [done|]. split. { rewrite Hw3. cbn. by rewrite Hgs2. }
    split; [done|]. intros _.
    assert (∀ e, elem w3 e
            = elem (set_elems (alter (class_add "wrong") e2)
                      (set_elems (alter (class_add "wrong") e1) w2')) e)
      as Hel3.
    { intros e. by rewrite Hw3. }
    assert (∀ e, card_state (elem w3 e) = card_state (elem w2 e)) as Hst3.
    { intros e. rewrite Hel3, !elem_alter.
      repeat case_decide; by rewrite ?card_state_wrong. }
    assert (pending w3 = pending w ++ [TFlipBack e1 e2]) as Hp3.
    { rewrite Hw3. cbn [pending set_gameState handleNoMatch set_pending
        set_elems]. by rewrite Hp2'. }
    rewrite !Hst3. do 2 (split; [done|]).
    split. { rewrite Hw3. cbn. by rewrite Hgs2. }
    split; [done|].
    cbn [step]. subst n. rewrite Hp3, list_lookup_middle by done.
    cbn [runTask].
    split; apply card_state_after_flipBack; auto;
      change (elem (set_pending ?f ?w0) ?e) with (elem w0 e);
      rewrite Hst3; congruence.
Qed.

Lemma whole_turn_witness :
  let w := run sample_rnd (initialWorld ∅) [EvSubmit "ada" "ada@example.org"] in
  let n := length (pending w) in
  let w2 := run sample_rnd w [EvClickCard 0; EvClickCard 1] in
  let w3 := step sample_rnd w2 (EvTimeout n) in
  cardType (elem w 0) = "3" ∧ cardType (elem w 1) = "8"
  ∧ card_state (elem w3 0) = revealed ∧ card_state (elem w3 1) = revealed
  ∧ pending w3 = pending w ++ [TFlipBack 0 1]
  ∧ card_state (elem (step sample_rnd w3 (EvTimeout n)) 0) = hidden
  ∧ card_state (elem (step sample_rnd w3 (EvTimeout n)) 1) = hidden.
Proof.
  intros w.
  assert (cardType (elem w 0) = "3") as T0 by (vm_compute; reflexivity).
  assert (cardType (elem w 1) = "8") as T1 by (vm_compute; reflexivity).
  assert (isGameActive (gameState w) = true) as H1 by (vm_compute; reflexivity).
  assert (flippedCards (gameState w) = []) as H2 by (vm_compute; reflexivity).
  assert (gameGrid w !! 0 = Some 0) as H3 by (vm_compute; reflexivity).
  assert (gameGrid w !! 1 = Some 1) as H4 by (vm_compute; reflexivity).
  assert (0 ≠ 1) as H5 by lia.
  assert (0 < length (elems w)) as H6 by (vm_compute; lia).
  assert (1 < length (elems w)) as H7 by (vm_compute; lia).
  assert (card_state (elem w 0) = hidden) as H8 by (vm_compute; reflexivity).
  assert (card_state (elem w 1) = hidden) as H9 by (vm_compute; reflexivity).
  clearbody w.
  assert (cardType (elem w 0) ≠ cardType (elem w 1)) as Hne
    by (rewrite T0, T1; discriminate).
  pose proof (whole_turn sample_rnd w 0 1 0 1 H1 H2 H3 H4 H5 H6 H7 H8 H9)
    as (_ & _ & _ & _ & Hmis).
  destruct (Hmis Hne) as (R0 & R1 & _ & Hp & B0 & B1).
  intros n w2 w3.
  split; [exact T0|]. split; [exact T1|].
  split; [exact R0|]. split; [exact R1|].
  split; [exact Hp|]. split; [exact B0|exact B1].
Defined.

(** ** The consistency of the page is invariant *)

Lemma elem_in_alter f e e' es :
  elem_in (alter f e es) e'
  = if decide (e = e' ∧ e' < length es) then f (elem_in es e')
    else elem_in es e'.
Proof.
  unfold elem_in. case_decide as H.
  - destruct H as [-> Hlt]. rewrite list_lookup_alter_eq.
    by destruct (lookup_lt_is_Some_2 _ _ Hlt) as [x ->].
  - destruct (decide (e = e')) as [->|].
    + rewrite list_lookup_alter_eq, lookup_ge_None_2; [done|lia].
    + by rewrite list_lookup_alter_ne.
Qed.

Lemma elem_in_alter_ne f e e' es :
  e ≠ e' → elem_in (alter f e es) e' = elem_in es e'.
Proof. intros. rewrite elem_in_alter, decide_False; [done|tauto]. Qed.

Lemma elem_in_alter_eq f e es :
  e < length es → elem_in (alter f e es) e = f (elem_in es e).
Proof. intros. by rewrite elem_in_alter, decide_True. Qed.

(** Class changes keep the type of a card. *)
Lemma cardType_elem_in_alter f e e' es :
  (∀ x, cardType (f x) = cardType x) →
  cardType (elem_in (alter f e es) e') = cardType (elem_in es e').
Proof. intros Hf. rewrite elem_in_alter. by case_decide. Qed.

(** ... and, when they leave the class matched alone, whether it is
    matched. *)
Lemma matched_elem_in_alter f e e' es :
  (∀ x, card_state (f x) = matched ↔ card_state x = matched) →
  card_state (elem_in (alter f e es) e') = matched
  ↔ card_state (elem_in es e') = matched.
Proof. intros Hf. rewrite elem_in_alter. by case_decide. Qed.

Lemma matched_iff_class_add c x :
  c ≠ "matched" →
  card_state (class_add c x) = matched ↔ card_state x = matched.
Proof.
  intros Hc. rewrite !card_state_matched_iff, contains_class_add.
  rewrite (bool_decide_eq_false_2 ("matched" = c)) by done.
  by rewrite orb_false_r.
Qed.

Lemma matched_iff_flipBack x :
  card_state (class_remove ["flipped"; "wrong"] x) = matched
  ↔ card_state x = matched.
Proof.
  rewrite card_state_flipBack, card_state_matched_iff.
  by destruct (contains "matched" x).
Qed.

Lemma matched_in_ext es es' grid :
  (∀ e, e ∈ grid →
     card_state (elem_in es' e) = matched
     ↔ card_state (elem_in es e) = matched) →
  matched_in es' grid = matched_in es grid.
Proof.
  unfold matched_in. induction grid as [|x grid IH]; intros Hext; [done|].
  rewrite !filter_cons.
  pose proof (Hext x (list_elem_of_here _ _)) as Hx.
  assert (length (filter (λ e, card_state (elem_in es' e) = matched) grid)
          = length (filter (λ e, card_state (elem_in es e) = matched) grid))
    as Hrec.
  { apply IH. intros e He. apply Hext. by apply list_elem_of_further. }
  repeat case_decide; simpl; try tauto; by rewrite Hrec.
Qed.

(** Marking one more card of the grid as matched counts one more. *)
Lemma matched_in_mark es es' grid e :
  NoDup grid → e ∈ grid →
  card_state (elem_in es e) ≠ matched →
  card_state (elem_in es' e) = matched →
  (∀ x, x ∈ grid → x ≠ e →
     card_state (elem_in es' x) = matched
     ↔ card_state (elem_in es x) = matched) →
  matched_in es' grid = S (matched_in es grid).
Proof.
  unfold matched_in. induction grid as [|x grid IH]; intros Hnd He H0 H1 Hext.
  { by apply not_elem_of_nil in He. }
  apply NoDup_cons in Hnd as [Hx Hnd]. rewrite !filter_cons.
  destruct (decide (x = e)) as [->|Hne].
  - rewrite decide_True, decide_False by done. simpl. f_equal.
    apply (matched_in_ext es es' grid). intros y Hy. apply Hext.
    + by apply list_elem_of_further.
    + by intros ->.
  - apply elem_of_cons in He as [->|He]; [done|].
    pose proof (Hext x (list_elem_of_here _ _) Hne) as Hxx.
    assert (length (filter (λ e, card_state (elem_in es' e) = matched) grid)
            = S (length (filter (λ e, card_state (elem_in es e) = matched)
                           grid))) as Hrec.
    { apply IH; try done. intros y Hy. apply Hext.
      by apply list_elem_of_further. }
    repeat case_decide; simpl; try tauto; by rewrite Hrec.
Qed.

Lemma flipBackCards_app ts ts' :
  flipBackCards (ts ++ ts') = flipBackCards ts ++ flipBackCards ts'.
Proof. unfold flipBackCards. apply bind_app. Qed.

Lemma flipBackCards_delete ts n t :
  ts !! n = Some t →
  flipBackCards ts ≡ₚ flipBackCards [t] ++ flipBackCards (delete n ts).
Proof.
  intros Hn. rewrite <-(take_drop_middle ts n t Hn) at 1.
  rewrite delete_take_drop, !flipBackCards_app.
  change (t :: drop (S n) ts) with ([t] ++ drop (S n) ts).
  rewrite flipBackCards_app.
  by rewrite (assoc (++)), (comm (++) (flipBackCards (take n ts))),
    <-(assoc (++)).
Qed.

Lemma consistent_parts_perm grid es back back' fs mp mv dk :
  back ≡ₚ back' →
  consistent_parts grid es back fs mp mv dk →
  consistent_parts grid es back' fs mp mv dk.
Proof.
  intros Hperm (Hnd & Hlt & Hnd' & Hrev & Hrest).
  split; [done|]. split; [by rewrite <-Hperm|].
  split; [by rewrite <-Hperm|]. split; [by rewrite <-Hperm|done].
Qed.

Lemma filter_none {A : Type} (P : A → Prop) `{∀ x, Decision (P x)}
    (l : list A) :
  Forall (λ x, ¬ P x) l → filter P l = [].
Proof.
  induction 1 as [|x l Hx _ IH]; [done|]. by rewrite filter_cons_False.
Qed.

Section Parts.
Context (grid : list nat) (es : list Element) (back : list nat)
  (fs : list Flipped) (mp mv : N) (dk : list (option string)).
Hypothesis Hparts : consistent_parts grid es back fs mp mv dk.

(** A card that is pending or awaits a flip back is revealed. *)
Lemma parts_busy_revealed e :
  e ∈ back ++ (element <$> fs) → card_state (elem_in es e) = revealed.
Proof using Hparts.
  destruct Hparts as (_ & _ & _ & Hback & Hfs & _).
  intros [He|He]%elem_of_app.
  - rewrite Forall_forall in Hback. by apply Hback.
  - apply list_elem_of_fmap in He as (c & -> & Hc).
    rewrite Forall_forall in Hfs. by apply Hfs.
Qed.

Lemma parts_flip e i :
  grid !! i = Some e →
  card_state (elem_in es e) = hidden →
  length fs < 2 →
  consistent_parts grid (alter (class_add "flipped") e es) back
    (fs ++ [mkFlipped e i
              (cardType (elem_in (alter (class_add "flipped") e es) e))])
    mp (if bool_decide (length fs = 1) then N.succ mv else mv) dk.
Proof using Hparts.
  intros Hi Hh Hlen.
  pose proof parts_busy_revealed as Hbusy.
  destruct Hparts as (Hnd & Hlt & Hnd' & Hback & Hfs & _ & Hm & Hmv & Hty).
  assert (e ∈ grid) as Heg by by eapply list_elem_of_lookup_2.
  assert (e ∉ back ++ (element <$> fs)) as Hfree.
  { intros He. specialize (Hbusy e He). congruence. }
  assert (e < length es) as Hel.
  { rewrite Forall_app, Forall_forall in Hlt. by apply Hlt. }
  split; [done|]. split; [by rewrite length_alter|]. split.
  { rewrite fmap_app, (assoc (++)). apply NoDup_app. split; [done|].
    split; [|apply NoDup_singleton].
    intros x Hx ->%list_elem_of_singleton. done. }
  split.
  { eapply Forall_impl; [apply Forall_and; split; [exact Hback|]|].
    - apply Forall_forall. intros x Hx. exact Hx.
    - intros x [Hrev Hx]. cbn beta in *.
      rewrite elem_in_alter_ne; [done|].
      intros <-. apply Hfree, elem_of_app. by left. }
  split.
  { apply Forall_app. split.
    - eapply Forall_impl; [apply Forall_and; split; [exact Hfs|]|].
      + apply Forall_forall. intros c Hc. exact Hc.
      + intros c [(H1 & H2 & H3) Hc]. cbn beta in *.
        rewrite elem_in_alter_ne; [done|].
        intros Heq. apply Hfree, elem_of_app. right.
        rewrite Heq. by apply list_elem_of_fmap_2.
    - apply Forall_singleton. cbn [index element type].
      split; [done|]. split; [done|].
      rewrite elem_in_alter_eq by done. by apply card_state_reveal. }
  split; [rewrite length_app; simpl; lia|]. split.
  { rewrite <-Hm. f_equal. apply matched_in_ext. intros x _.
    apply matched_elem_in_alter. intros y. by apply matched_iff_class_add. }
  split.
  { rewrite length_app. cbn [length].
    repeat case_bool_decide; lia. }
  rewrite <-Hty. apply list_fmap_ext. intros _ x _.
  by apply cardType_elem_in_alter.
Qed.

Lemma parts_deal d :
  consistent_parts (seq (length es) (length d))
    (es ++ imap (λ i c, createCardElement c i) d) back [] 0 0 d.
Proof using Hparts.
  destruct Hparts as (_ & Hlt & Hnd' & Hback & _).
  apply Forall_app in Hlt as [_ Hlt].
  assert (∀ i c, d !! i = Some c →
    elem_in (es ++ imap (λ i c, createCardElement c i) d) (length es + i)
    = createCardElement c i) as Hnew.
  { intros i c Hi. unfold elem_in. rewrite lookup_app_r by lia.
    replace (length es + i - length es) with i by lia.
    by rewrite list_lookup_imap, Hi. }
  split; [apply NoDup_seq|]. split.
  { apply Forall_app. rewrite length_app, length_imap. split.
    - apply Forall_forall. intros e He%elem_of_seq. lia.
    - eapply Forall_impl; [exact Hlt|]. intros; simpl in *; lia. }
  split. { apply NoDup_app in Hnd' as (? & _). by rewrite app_nil_r. }
  split.
  { eapply Forall_impl; [apply Forall_and; split; [exact Hlt|exact Hback]|].
    intros e [He Hrev]. cbn beta in *.
    unfold elem_in in *. by rewrite lookup_app_l. }
  split; [done|]. split; [simpl; lia|]. split.
  { unfold matched_in. rewrite filter_none; [done|].
    apply Forall_forall. intros e He%elem_of_seq.
    destruct (lookup_lt_is_Some_2 d (e - length es)) as [c Hc]; [lia|].
    replace e with (length es + (e - length es)) by lia.
    by rewrite (Hnew _ c Hc). }
  split; [rewrite bool_decide_eq_false_2; [lia|done]|].
  apply list_eq. intros i. rewrite !list_lookup_fmap.
  destruct (d !! i) as [c|] eqn:Hc.
  - rewrite lookup_seq_lt by (by eapply lookup_lt_Some). simpl.
    by rewrite (Hnew i c Hc).
  - rewrite lookup_seq_ge; [done|]. by apply lookup_ge_None.
Qed.
End Parts.

Lemma card_state_elem_in_wrong e es x :
  card_state (elem_in (alter (class_add "wrong") e es) x)
  = card_state (elem_in es x).
Proof. rewrite elem_in_alter. case_decide; by rewrite ?card_state_wrong. Qed.

Lemma parts_match grid es back card1 card2 mp mv dk :
  consistent_parts grid es back [card1; card2] mp mv dk →
  consistent_parts grid
    (alter (class_add "matched") (element card2)
       (alter (class_add "matched") (element card1) es))
    back [] (N.succ mp) mv dk.
Proof.
  intros (Hnd & Hlt & Hnd' & Hback & Hfs & _ & Hm & Hmv & Hty).
  apply Forall_cons in Hfs as [(Hg1 & _ & Hr1) Hfs].
  apply Forall_singleton in Hfs as (Hg2 & _ & Hr2).
  set (e1 := element card1) in *. set (e2 := element card2) in *.
  apply list_elem_of_lookup_2 in Hg1, Hg2.
  apply NoDup_app in Hnd' as (Hndb & Hdisj & Hnd12).
  cbn [fmap list_fmap] in Hdisj, Hnd12. fold e1 e2 in Hdisj, Hnd12.
  assert (e1 ≠ e2) as Hne.
  { apply NoDup_cons in Hnd12 as [Hn _]. intros Heq. apply Hn.
    rewrite Heq. apply list_elem_of_here. }
  assert (e1 < length es ∧ e2 < length es) as [Hl1 Hl2].
  { rewrite Forall_app, Forall_forall in Hlt. split; by apply Hlt. }
  split; [done|]. split; [by rewrite !length_alter|].
  split; [by rewrite app_nil_r|]. split.
  { rewrite Forall_forall in Hback |- *. intros b Hb.
    rewrite !elem_in_alter_ne; [by apply Hback|..];
      intros <-; apply (Hdisj _ Hb);
      [apply list_elem_of_here|apply list_elem_of_further, list_elem_of_here]. }
  split; [done|]. split; [simpl; lia|]. split.
  { rewrite (matched_in_mark (alter (class_add "matched") e1 es) _ grid e2),
      (matched_in_mark es _ grid e1); try done.
    - lia.
    - congruence.
    - rewrite elem_in_alter_eq by done. apply card_state_matched.
    - intros x _ Hx. by rewrite elem_in_alter_ne.
    - rewrite elem_in_alter_ne by done. congruence.
    - rewrite elem_in_alter_eq by (by rewrite length_alter).
      apply card_state_matched.
    - intros x _ Hx. by rewrite elem_in_alter_ne. }
  split.
  { rewrite bool_decide_eq_true_2 in Hmv by done.
    rewrite bool_decide_eq_false_2 by done. lia. }
  rewrite <-Hty. apply list_fmap_ext. intros _ x _.
  by rewrite !cardType_elem_in_alter.
Qed.

Lemma parts_mismatch grid es back card1 card2 mp mv dk :
  consistent_parts grid es back [card1; card2] mp mv dk →
  consistent_parts grid
    (alter (class_add "wrong") (element card2)
       (alter (class_add "wrong") (element card1) es))
    (back ++ [element card1; element card2]) [] mp mv dk.
Proof.
  intros (Hnd & Hlt & Hnd' & Hback & Hfs & _ & Hm & Hmv & Hty).
  apply Forall_cons in Hfs as [(Hg1 & _ & Hr1) Hfs].
  apply Forall_singleton in Hfs as (Hg2 & _ & Hr2).
  apply list_elem_of_lookup_2 in Hg1, Hg2.
  cbn [fmap list_fmap] in Hnd'.
  split; [done|]. split.
  { rewrite !length_alter. rewrite Forall_app in Hlt. destruct Hlt as [Hg Hb].
    rewrite !Forall_app. split; [done|]. split; [done|].
    rewrite Forall_forall in Hg. repeat constructor; by apply Hg. }
  split; [by rewrite app_nil_r|]. split.
  { rewrite Forall_forall in Hback. rewrite Forall_forall.
    intros b Hb. rewrite !card_state_elem_in_wrong.
    apply elem_of_app in Hb as [Hb|Hb]; [by apply Hback|].
    apply elem_of_cons in Hb as [->|Hb]; [done|].
    by apply list_elem_of_singleton in Hb as ->. }
  split; [done|]. split; [simpl; lia|]. split.
  { rewrite <-Hm. f_equal. apply matched_in_ext. intros x _.
    by rewrite !card_state_elem_in_wrong. }
  split.
  { rewrite bool_decide_eq_true_2 in Hmv by done.
    rewrite bool_decide_eq_false_2 by done. lia. }
  rewrite <-Hty. apply list_fmap_ext. intros _ x _.
  by rewrite !cardType_elem_in_alter.
Qed.

Lemma parts_flipBack grid es back card1 card2 fs mp mv dk :
  consistent_parts grid es (card1 :: card2 :: back) fs mp mv dk →
  consistent_parts grid
    (alter (class_remove ["flipped"; "wrong"]) card2
       (alter (class_remove ["flipped"; "wrong"]) card1 es))
    back fs mp mv dk.
Proof.
  intros (Hnd & Hlt & Hnd' & Hback & Hfs & Hlen & Hm & Hmv & Hty).
  change ((card1 :: card2 :: back) ++ (element <$> fs))
    with ([card1; card2] ++ (back ++ (element <$> fs))) in Hnd'.
  apply NoDup_app in Hnd' as (_ & Hdisj & Hnd').
  assert (∀ x, x ∈ back ++ (element <$> fs) →
            elem_in (alter (class_remove ["flipped"; "wrong"]) card2
                       (alter (class_remove ["flipped"; "wrong"]) card1 es)) x
            = elem_in es x) as Hsame.
  { intros x Hx.
    rewrite !elem_in_alter_ne; [done|..]; intros <-.
    - apply (Hdisj card1); [apply list_elem_of_here|done].
    - apply (Hdisj card2); [|done].
      apply list_elem_of_further, list_elem_of_here. }
  split; [done|]. split.
  { rewrite !length_alter. apply Forall_app in Hlt as [Hg Hb].
    apply Forall_app. split; [done|].
    by apply Forall_cons in Hb as [_ [_ Hb]%Forall_cons]. }
  split; [done|]. split.
  { apply Forall_cons in Hback as [_ [_ Hback]%Forall_cons].
    rewrite Forall_forall in Hback |- *. intros b Hb.
    rewrite Hsame; [by apply Hback|]. apply elem_of_app. by left. }
  split.
  { rewrite Forall_forall in Hfs |- *. intros c Hc.
    rewrite Hsame; [by apply Hfs|].
    apply elem_of_app. right. by apply list_elem_of_fmap_2. }
  split; [done|]. split.
  { rewrite <-Hm. f_equal. apply matched_in_ext. intros x _.
    rewrite !matched_elem_in_alter; [done|..];
      intros y; apply matched_iff_flipBack. }
  split; [done|].
  rewrite <-Hty. apply list_fmap_ext. intros _ x _.
  by rewrite !cardType_elem_in_alter.
Qed.

Lemma consistent_same w w' :
  gameGrid w' = gameGrid w → elems w' = elems w →
  pending w' = pending w →
  flippedCards (gameState w') = flippedCards (gameState w) →
  matchedPairs (gameState w') = matchedPairs (gameState w) →
  moves (gameState w') = moves (gameState w) →
  deck w' = deck w →
  consistent w → consistent w'.
Proof. unfold consistent. by intros -> -> -> -> -> -> ->. Qed.

Lemma frame_stopTimer w :
  gameGrid (stopTimer w) = gameGrid w ∧ elems (stopTimer w) = elems w
  ∧ pending (stopTimer w) = pending w
  ∧ flippedCards (gameState (stopTimer w)) = flippedCards (gameState w)
  ∧ matchedPairs (gameState (stopTimer w)) = matchedPairs (gameState w)
  ∧ moves (gameState (stopTimer w)) = moves (gameState w)
  ∧ deck (stopTimer w) = deck w.
Proof.
  unfold stopTimer. by destruct (timerInterval (gameState w)) as [[|?]|].
Qed.

Lemma consistent_showStartScreen w :
  consistent w → consistent (showStartScreen w).
Proof.
  destruct (frame_stopTimer w) as (H1 & H2 & H3 & H4 & H5 & H6 & H7).
  by apply consistent_same.
Qed.

Lemma consistent_completeGame w :
  consistent w → consistent (completeGame w).
Proof.
  destruct (frame_stopTimer (set_gameState (set_isGameActive false) w))
    as (H1 & H2 & H3 & H4 & H5 & H6 & H7).
  by apply consistent_same.
Qed.

(** What a deal puts on the page, whatever the draws. *)
Lemma startGame_deal rnd w :
  ∃ σ c d k,
    startGame rnd w
    = mkWorld
        (mkGameState c [] 0 0 0 true (Some (nextHandle w))
           (currentPlayer (gameState w)))
        σ (elems w ++ imap (λ i c, createCardElement c i) d)
        (seq (length (elems w)) (length d))
        (pending w) (intervals w ++ [nextHandle w]) (S (nextHandle w))
        (localStorage w) k (gameCompleteModal w) (posted w)
    ∧ store_get σ c = d.
Proof.
  unfold startGame, generateCards.
  destruct (store_alloc _ _) as [σ1 pairs].
  destruct (shuffleArray _ _ _ _) as [[σ2 shuffled] k].
  exists σ2, shuffled, (store_get σ2 shuffled), k.
  by rewrite length_imap.
Qed.

Lemma consistent_startGame rnd w w0 :
  gameGrid w0 = gameGrid w → elems w0 = elems w → pending w0 = pending w →
  consistent w → consistent (startGame rnd w0).
Proof.
  intros Hg He Hp Hw.
  destruct (startGame_deal rnd w0) as (σ & c & d & k & -> & Hd).
  unfold consistent, deck. cbn. rewrite Hd, He, Hp.
  eapply parts_deal. exact Hw.
Qed.

Lemma consistent_flipCard e i w :
  gameGrid w !! i = Some e → accepted e w = true →
  consistent w → consistent (flipCard e i w).
Proof.
  intros Hi (_ & Hh & Hlen)%accepted_true Hw.
  rewrite flipCard_eq. unfold consistent, deck. cbv zeta.
  cbn [gameGrid elems pending gameState flippedCards matchedPairs moves
       arrays cards].
  assert (flipBackCards
            (if bool_decide (length (flippedCards (gameState w)) = 1)
             then pending w ++ [TCheckForMatch] else pending w)
          = flipBackCards (pending w)) as ->.
  { case_bool_decide; [|done].
    by rewrite flipBackCards_app, app_nil_r. }
  by apply parts_flip.
Qed.

Lemma consistent_delete n t w :
  pending w !! n = Some t → flipBackCards [t] = [] →
  consistent w → consistent (set_pending (delete n) w).
Proof.
  intros Hn Ht Hw. unfold consistent in *.
  cbn [gameGrid elems pending set_pending gameState].
  change (deck (set_pending (delete n) w)) with (deck w).
  eapply consistent_parts_perm; [|exact Hw].
  by rewrite (flipBackCards_delete _ n t Hn), Ht.
Qed.

Lemma consistent_checkForMatch w :
  consistent w → consistent (default w (checkForMatch w)).
Proof.
  intros Hw. unfold checkForMatch.
  destruct (flippedCards (gameState w)) as [|card1 [|card2 rest]] eqn:Hfs;
    [done..|].
  assert (rest = []) as ->.
  { destruct Hw as (_ & _ & _ & _ & _ & Hlen & _). rewrite Hfs in Hlen.
    destruct rest; [done|]. simpl in Hlen. lia. }
  cbn [default from_option id]. unfold consistent in *.
  rewrite Hfs in Hw.
  destruct (String.eqb (type card1) (type card2)).
  - apply parts_match in Hw.
    unfold handleMatch. cbv zeta. case_decide; [|exact Hw].
    unfold deck. cbn. by rewrite flipBackCards_app, app_nil_r.
  - apply parts_mismatch in Hw.
    unfold deck. cbn. by rewrite flipBackCards_app.
Qed.

Lemma consistent_flipBack n card1 card2 w :
  pending w !! n = Some (TFlipBack card1 card2) →
  consistent w →
  consistent (flipBack card1 card2 (set_pending (delete n) w)).
Proof.
  intros Hn Hw. unfold consistent in *.
  apply (consistent_parts_perm _ _ _
           (card1 :: card2 :: flipBackCards (delete n (pending w)))) in Hw.
  - by apply parts_flipBack in Hw.
  - by rewrite (flipBackCards_delete _ n _ Hn).
Qed.

(** Every event keeps the page consistent. *)
Lemma consistent_step rnd w ev :
  consistent w → consistent (step rnd w ev).
Proof.
  intros Hw. destruct ev as [nf ef|i| | | |n|h]; cbn [step].
  - rewrite handleStartGame_valid.
    destruct (validEntry nf ef); [|done]. cbv zeta.
    by apply (consistent_startGame rnd w).
  - destruct (gameGrid w !! i) as [e|] eqn:Hi; [|done].
    rewrite handleCardClick_accepted.
    destruct (accepted e w) eqn:Hacc; [|done].
    by apply (consistent_flipCard e i).
  - by apply consistent_showStartScreen.
  - unfold handleTryAgain. cbv zeta.
    by apply (consistent_startGame rnd w).
  - rewrite handleBackToLeaderboard_showStartScreen.
    by apply consistent_showStartScreen.
  - destruct (pending w !! n) as [[| |card1 card2]|] eqn:Hn; [| | |done];
      cbn [runTask].
    + by apply consistent_checkForMatch, (consistent_delete n TCheckForMatch).
    + by apply consistent_completeGame, (consistent_delete n TCompleteGame).
    + by apply consistent_flipBack.
  - by case_bool_decide.
Qed.

Lemma consistent_initialWorld storage : consistent (initialWorld storage).
Proof.
  unfold consistent, consistent_parts. cbn.
  repeat split; try constructor; try done. lia.
Qed.

Lemma consistent_run rnd storage evs :
  consistent (run rnd (initialWorld storage) evs).
Proof.
  assert (∀ w, consistent w → consistent (run rnd w evs)) as Hrun.
  { induction evs as [|ev evs IH]; intros w Hw; [done|].
    apply IH. by apply consistent_step. }
  apply Hrun, consistent_initialWorld.
Qed.

(** ** C5: resolving the pending turn *)

(** C5, as stated, fails on a mismatch: when [checkForMatch] returns, the
    two cards are still revealed; the turn is cleared and the flip back is
    only scheduled. *)
Lemma mismatch_leaves_cards_revealed :
  ¬ mismatch_hides mismatch_world
  ∧ ∃ w', checkForMatch mismatch_world = Some w'
      ∧ flippedCards (gameState mismatch_world)
        = [mkFlipped 0 0 "1"; mkFlipped 1 1 "2"]
      ∧ card_state (elem w' 0) = revealed
      ∧ card_state (elem w' 1) = revealed
      ∧ flippedCards (gameState w') = []
      ∧ pending w' = pending mismatch_world ++ [TFlipBack 0 1].
Proof.
  assert (∃ w', checkForMatch mismatch_world = Some w'
      ∧ flippedCards (gameState mismatch_world)
        = [mkFlipped 0 0 "1"; mkFlipped 1 1 "2"]
      ∧ card_state (elem w' 0) = revealed
      ∧ card_state (elem w' 1) = revealed
      ∧ flippedCards (gameState w') = []
      ∧ pending w' = pending mismatch_world ++ [TFlipBack 0 1]) as Hex.
  { eexists. split; [vm_compute; reflexivity|].
    repeat split; vm_compute; reflexivity. }
  split; [|exact Hex].
  destruct Hex as (w' & Hw' & Hfs & H0 & _).
  intros Hclaim.
  destruct (Hclaim _ _ w' Hfs) as [Hh _]; [by vm_compute|done|].
  cbn [element] in Hh. congruence.
Qed.

Lemma class_remove_marks x :
  contains "flipped" (class_remove ["flipped"; "wrong"] x) = false
  ∧ contains "wrong" (class_remove ["flipped"; "wrong"] x) = false
  ∧ contains "matched" (class_remove ["flipped"; "wrong"] x)
    = contains "matched" x.
Proof.
  rewrite !contains_class_remove.
  rewrite (bool_decide_eq_false_2 ("flipped" ∉ _)), andb_false_r.
  2: { intros H. apply H. by apply (bool_decide_unpack _). }
  rewrite (bool_decide_eq_false_2 ("wrong" ∉ _)), andb_false_r.
  2: { intros H. apply H. by apply (bool_decide_unpack _). }
  rewrite (bool_decide_eq_true_2 ("matched" ∉ _)), andb_true_r; [done|].
  by apply (bool_decide_unpack _).
Qed.

(** What the flip back does to each of its two cards, in any state: the
    marks of a revealed and of a wrong card are gone, so the card is hidden
    unless it is matched. *)
Lemma elem_after_flipBack e1 e2 w e :
  e = e1 ∨ e = e2 →
  contains "flipped" (elem (flipBack e1 e2 w) e) = false
  ∧ contains "wrong" (elem (flipBack e1 e2 w) e) = false
  ∧ card_state (elem (flipBack e1 e2 w) e)
    = if contains "matched" (elem w e) then matched else hidden.
Proof.
  intros He. unfold flipBack. cbv zeta.
  destruct (decide (e < length (elems w))) as [Hlt|Hge].
  - rewrite !elem_alter. cbn [elems set_elems]. rewrite length_alter.
    destruct (class_remove_marks (elem w e)) as (Hf & Hw & Hm).
    destruct (class_remove_marks (class_remove ["flipped"; "wrong"] (elem w e)))
      as (Hf' & Hw' & Hm').
    repeat case_decide; rewrite ?card_state_flipBack, ?Hm; try done;
      exfalso; intuition (subst; auto).
  - assert (elem w e = mkElement [] "" 0) as Hdef.
    { unfold elem. by rewrite lookup_ge_None_2 by lia. }
    rewrite !elem_alter. cbn [elems set_elems]. rewrite length_alter.
    rewrite !decide_False by (intros [_ ?]; lia).
    by rewrite Hdef.
Qed.

(** C5, amended.  With two pending cards that are elements of the page,
    [checkForMatch] returns and clears the turn.  If the types are equal,
    both cards become matched and [matchedPairs] grows by 1.  If they
    differ, [matchedPairs] is unchanged and no card changes state: the two
    cards are marked wrong and stay revealed, no other element is touched,
    and the flip back of the two is scheduled.  Whenever that callback
    runs, it takes the marks of a revealed and of a wrong card off both,
    which hides each of them that is not matched.  No event ever takes a
    matched card out of the matched state.  And in every run from the
    initial page, the two cards of a pending flip back are revealed, so
    not matched, as long as it is pending, and both are hidden once it has
    run. *)
Theorem checkForMatch_resolves (rnd : nat → Q) (w : World)
    (card1 card2 : Flipped) (evs : list Event) (e : nat)
    (storage : gmap string string) (evs0 : list Event) (n c1 c2 : nat) :
  flippedCards (gameState w) = [card1; card2] →
  element card1 < length (elems w) →
  element card2 < length (elems w) →
  (∃ w', checkForMatch w = Some w'
     ∧ flippedCards (gameState w') = []
     ∧ (type card1 = type card2 →
          card_state (elem w' (element card1)) = matched
          ∧ card_state (elem w' (element card2)) = matched
          ∧ matchedPairs (gameState w') = (matchedPairs (gameState w) + 1)%N)
     ∧ (type card1 ≠ type card2 →
          matchedPairs (gameState w') = matchedPairs (gameState w)
          ∧ (∀ e', card_state (elem w' e') = card_state (elem w e'))
          ∧ contains "wrong" (elem w' (element card1)) = true
          ∧ contains "wrong" (elem w' (element card2)) = true
          ∧ (∀ e', e' ≠ element card1 → e' ≠ element card2 →
               elem w' e' = elem w e')
          ∧ pending w'
            = pending w ++ [TFlipBack (element card1) (element card2)]
          ∧ ∀ w'' e',
              e' = element card1 ∨ e' = element card2 →
              let w3 := flipBack (element card1) (element card2) w'' in
              contains "flipped" (elem w3 e') = false
              ∧ contains "wrong" (elem w3 e') = false
              ∧ card_state (elem w3 e')
                = if contains "matched" (elem w'' e') then matched
                  else hidden))
  ∧ (card_state (elem w e) = matched →
     card_state (elem (run rnd w evs) e) = matched)
  ∧ (let wr := run rnd (initialWorld storage) evs0 in
     pending wr !! n = Some (TFlipBack c1 c2) →
     card_state (elem wr c1) = revealed
     ∧ card_state (elem wr c2) = revealed
     ∧ card_state (elem (step rnd wr (EvTimeout n)) c1) = hidden
     ∧ card_state (elem (step rnd wr (EvTimeout n)) c2) = hidden).
Proof.
  intros Hfs H1 H2. split; [|split; [apply matched_run|]].
  - unfold checkForMatch. rewrite Hfs. eexists. split; [done|].
    split; [done|]. split.
    + intros Heq. apply String.eqb_eq in Heq as ->.
      change (elem (set_gameState ?f ?w) ?e) with (elem w e).
      rewrite !elem_handleMatch, !elem_alter.
      cbn [elems set_elems]. rewrite !length_alter.
      split; [|split].
      * repeat case_decide; rewrite ?card_state_matched; naive_solver.
      * repeat case_decide; rewrite ?card_state_matched; naive_solver.
      * unfold handleMatch. cbv zeta. case_decide; cbn; lia.
    + intros Hne. apply String.eqb_neq in Hne as ->.
      split; [done|].
      assert (∀ e', elem (set_gameState (set_flippedCards (λ _, []))
                            (handleNoMatch (element card1) (element card2) w))
                      e'
                    = if decide (e' = element card1 ∨ e' = element card2)
                      then class_add "wrong" (elem w e') else elem w e')
        as Helem.
      { intros e'. change (elem (set_gameState ?f ?w) ?e) with (elem w e).
        rewrite elem_handleNoMatch, !elem_alter.
        cbn [elems set_elems]. rewrite !length_alter.
        repeat case_decide; try done; try (exfalso; intuition (subst; auto; lia)).
        unfold class_add at 1. rewrite contains_class_add.
        by rewrite bool_decide_eq_true_2, orb_true_r by done. }
      split; [|split; [|split; [|split; [|split; [done|]]]]].
      * intros e'. rewrite Helem. case_decide; by rewrite ?card_state_wrong.
      * rewrite Helem, decide_True by (by left).
        rewrite contains_class_add.
        by rewrite bool_decide_eq_true_2, orb_true_r by done.
      * rewrite Helem, decide_True by (by right).
        rewrite contains_class_add.
        by rewrite bool_decide_eq_true_2, orb_true_r by done.
      * intros e' He1 He2. rewrite Helem. by rewrite decide_False by tauto.
      * intros w'' e' He'. by apply elem_after_flipBack.
  - intros wr Hn.
    destruct (consistent_run rnd storage evs0) as (_ & _ & _ & Hback & _).
    fold wr in Hback.
    rewrite (flipBackCards_delete _ n _ Hn) in Hback.
    change (flipBackCards [TFlipBack c1 c2]) with [c1; c2] in Hback.
    cbn [app] in Hback.
    apply Forall_cons in Hback as [Hr1 Hback].
    apply Forall_cons in Hback as [Hr2 _].
    change (elem_in (elems wr) ?e) with (elem wr e) in Hr1, Hr2.
    split; [done|]. split; [done|].
    cbn [step]. rewrite Hn. cbn [runTask].
    split; apply card_state_after_flipBack; auto;
      change (elem (set_pending ?f ?w0) ?e) with (elem w0 e); congruence.
Qed.

Lemma checkForMatch_resolves_witness :
  ∃ w', checkForMatch mismatch_world = Some w'
    ∧ flippedCards (gameState w') = []
    ∧ matchedPairs (gameState w') = matchedPairs (gameState mismatch_world)
    ∧ card_state (elem w' 0) = revealed
    ∧ contains "wrong" (elem w' 0) = true
    ∧ card_state (elem (flipBack 0 1 w') 0) = hidden.
Proof.
  destruct (checkForMatch_resolves zero_rnd mismatch_world
              (mkFlipped 0 0 "1") (mkFlipped 1 1 "2") [] 0 ∅ [] 0 0 1)
    as [(w' & Hw' & Hfs & _ & Hmis) _].
  - vm_compute; reflexivity.
  - vm_compute; lia.
  - vm_compute; lia.
  - exists w'. split; [exact Hw'|]. split; [exact Hfs|].
    destruct Hmis as (Hmp & Hst & Hw0 & _ & _ & _ & Hback); [by vm_compute|].
    split; [exact Hmp|]. split; [rewrite Hst; by vm_compute|].
    split; [exact Hw0|].
    destruct (Hback w' 0) as (_ & _ & Hcs); [by left|].
    cbv zeta in Hcs. cbn [element] in Hcs. rewrite Hcs.
    assert (card_state (elem w' 0) = revealed) as Hrev
      by (rewrite Hst; by vm_compute).
    unfold card_state in Hrev.
    by destruct (contains "matched" (elem w' 0)).
Defined.

(** ** What the consistency of the page gives *)

(** X12. At every moment of every run from the initial page, the cards of
    the pending turn are different cards of the current grid, each at the
    index recorded for it, revealed and not matched; the type recorded for
    each is the type of its element, which is the symbol the deck holds at
    that index; and the grid as a whole shows the deck in order. *)
Theorem pending_turn_cards (rnd : nat → Q) (storage : gmap string string)
    (evs : list Event) :
  let w := run rnd (initialWorld storage) evs in
  NoDup (element <$> flippedCards (gameState w))
  ∧ Forall (λ c, gameGrid w !! index c = Some (element c)
                 ∧ card_state (elem w (element c)) = revealed
                 ∧ type c = cardType (elem w (element c))
                 ∧ (default "undefined" <$> deck w) !! index c
                   = Some (type c))
      (flippedCards (gameState w))
  ∧ (λ e, cardType (elem w e)) <$> gameGrid w
    = default "undefined" <$> deck w.
Proof.
  intros w.
  destruct (consistent_run rnd storage evs)
    as (_ & _ & Hnd & _ & Hfs & _ & _ & _ & Hty).
  fold w in Hnd, Hfs, Hty.
  split; [by apply NoDup_app in Hnd as (_ & _ & ?)|]. split; [|done].
  eapply Forall_impl; [exact Hfs|]. intros c (Hg & Ht & Hr).
  split; [done|]. split; [done|]. split; [done|].
  rewrite <-Hty, list_lookup_fmap, Hg. simpl. by rewrite Ht.
Qed.

Lemma filter_all {A : Type} (P : A → Prop) `{∀ x, Decision (P x)}
    (l : list A) :
  length (filter P l) = length l → Forall P l.
Proof.
  induction l as [|x l IH]; [done|]. rewrite filter_cons.
  pose proof (length_filter P l). case_decide; simpl; intros Hlen.
  - constructor; [done|]. apply IH. lia.
  - lia.
Qed.

(** X13. At every moment of every run from the initial page, the number
    of matched cards in the grid is twice [matchedPairs], and no more pairs
    are counted than moves. *)
Theorem matched_pairs_counted (rnd : nat → Q) (storage : gmap string string)
    (evs : list Event) :
  let w := run rnd (initialWorld storage) evs in
  N.of_nat (length (filter (λ e, card_state (elem w e) = matched)
                      (gameGrid w)))
  = (2 * matchedPairs (gameState w))%N
  ∧ (matchedPairs (gameState w) ≤ moves (gameState w))%N.
Proof.
  intros w.
  destruct (consistent_run rnd storage evs)
    as (_ & _ & _ & _ & _ & _ & Hm & Hmv & _).
  fold w in Hm, Hmv. split; [exact Hm|]. case_bool_decide; lia.
Qed.

(** The grid changes only when a game starts. *)
Lemma gameGrid_step rnd w ev :
  gameGrid (step rnd w ev) = gameGrid w
  ∨ ∃ w0, gameGrid (step rnd w ev) = gameGrid (startGame rnd w0).
Proof.
  destruct ev as [nf ef|i| | | |n|h]; cbn [step].
  - rewrite handleStartGame_valid.
    destruct (validEntry nf ef); [|by left]. right. by eexists.
  - destruct (gameGrid w !! i) as [e|]; [|by left].
    rewrite handleCardClick_accepted.
    destruct (accepted e w); [|by left]. left. by rewrite flipCard_eq.
  - left. unfold showStartScreen. apply frame_stopTimer.
  - right. by eexists.
  - left. rewrite handleBackToLeaderboard_showStartScreen.
    unfold showStartScreen. apply frame_stopTimer.
  - destruct (pending w !! n) as [[| |c1 c2]|]; [| | |by left];
      cbn [runTask]; left.
    + unfold checkForMatch. cbn [gameState set_pending].
      destruct (flippedCards (gameState w)) as [|card1 [|card2 rest]];
        [done..|].
      cbn [default from_option id].
      destruct (String.eqb (type card1) (type card2)); [|done].
      unfold handleMatch. cbv zeta. by case_decide.
    + unfold completeGame, submitScore, stopTimer.
      cbn [gameState set_pending set_gameState set_isGameActive
           timerInterval].
      by destruct (timerInterval (gameState w)) as [[|?]|].
    + done.
  - left. by case_bool_decide.
Qed.

Lemma length_gameGrid_run rnd storage evs :
  unit_draws rnd →
  length (gameGrid (run rnd (initialWorld storage) evs)) ≤ 16.
Proof.
  intros Hrnd.
  assert (∀ w, length (gameGrid w) ≤ 16 →
               length (gameGrid (run rnd w evs)) ≤ 16) as Hrun.
  { induction evs as [|ev evs IH]; intros w Hw; [done|].
    apply IH. destruct (gameGrid_step rnd w ev) as [->|[w0 ->]]; [done|].
    rewrite gameGrid_startGame by done. by rewrite length_seq. }
  apply Hrun. simpl. lia.
Qed.

(** X14. With the draws of [Math.random] in range, no run from the initial
    page ever counts more than 8 pairs; and when 8 are counted, every card
    of the grid is matched and a click on any card changes nothing. *)
Theorem at_most_eight_pairs (rnd : nat → Q) (storage : gmap string string)
    (evs : list Event) :
  unit_draws rnd →
  let w := run rnd (initialWorld storage) evs in
  (matchedPairs (gameState w) ≤ 8)%N
  ∧ (matchedPairs (gameState w) = 8%N →
     Forall (λ e, card_state (elem w e) = matched) (gameGrid w)
     ∧ ∀ i, step rnd w (EvClickCard i) = w).
Proof.
  intros Hrnd w.
  destruct (consistent_run rnd storage evs)
    as (_ & _ & _ & _ & _ & _ & Hm & _).
  pose proof (length_gameGrid_run rnd storage evs Hrnd) as Hlen.
  fold w in Hm, Hlen. unfold matched_in in Hm.
  pose proof (length_filter (λ e, card_state (elem_in (elems w) e) = matched)
                (gameGrid w)) as Hle.
  split; [lia|]. intros H8.
  assert (Forall (λ e, card_state (elem w e) = matched) (gameGrid w)) as Hall.
  { apply (filter_all (λ e, card_state (elem_in (elems w) e) = matched)).
    lia. }
  split; [done|]. intros i. cbn [step].
  destruct (gameGrid w !! i) as [e|] eqn:Hi; [|done].
  rewrite Forall_forall in Hall.
  pose proof (Hall e (list_elem_of_lookup_2 _ _ _ Hi)) as He.
  rewrite handleCardClick_accepted.
  destruct (accepted e w) eqn:Hacc; [|done].
  apply accepted_true in Hacc as (_ & Hh & _). congruence.
Qed.

Lemma at_most_eight_pairs_witness :
  (matchedPairs (gameState all_matched_world) ≤ 8)%N
  ∧ ∀ i, step zero_rnd all_matched_world (EvClickCard i) = all_matched_world.
Proof.
  destruct (at_most_eight_pairs zero_rnd ∅
    (EvSubmit "ada" "ada@example.org"
     :: flat_map (λ '(i, j), [EvClickCard i; EvClickCard j; EvTimeout 0])
          [(0, 15); (1, 2); (3, 4); (5, 6); (7, 8); (9, 10); (11, 12);
           (13, 14)]) zero_rnd_unit) as [Hle Hfull].
  split; [exact Hle|]. apply Hfull. vm_compute; reflexivity.
Defined.

(** X15. In every run from the initial page, a pending flip back is for
    two different cards, neither of them in the pending turn, and each of
    them revealed if it is in the grid.  When it runs, its two cards are
    hidden if they are in the grid, the pending turn is what it was, and
    no other card changes. *)
Theorem flip_back_is_safe (rnd : nat → Q) (storage : gmap string string)
    (evs : list Event) (n card1 card2 : nat) :
  let w := run rnd (initialWorld storage) evs in
  pending w !! n = Some (TFlipBack card1 card2) →
  let w' := step rnd w (EvTimeout n) in
  card1 ≠ card2
  ∧ (card1 ∉ element <$> flippedCards (gameState w))
  ∧ (card2 ∉ element <$> flippedCards (gameState w))
  ∧ (card1 ∈ gameGrid w →
     card_state (elem w card1) = revealed
     ∧ card_state (elem w' card1) = hidden)
  ∧ (card2 ∈ gameGrid w →
     card_state (elem w card2) = revealed
     ∧ card_state (elem w' card2) = hidden)
  ∧ flippedCards (gameState w') = flippedCards (gameState w)
  ∧ ∀ e, e ≠ card1 → e ≠ card2 → elem w' e = elem w e.
Proof.
  intros w Hn w'.
  destruct (consistent_run rnd storage evs)
    as (_ & _ & Hnd & Hback & _).
  fold w in Hnd, Hback.
  pose proof (flipBackCards_delete _ n _ Hn) as Hperm.
  change (flipBackCards [TFlipBack card1 card2]) with [card1; card2] in Hperm.
  rewrite Hperm in Hnd, Hback. cbn [app] in Hnd, Hback.
  apply NoDup_cons in Hnd as [H1 Hnd].
  apply NoDup_cons in Hnd as [H2 _].
  apply Forall_cons in Hback as [Hr1 Hback].
  apply Forall_cons in Hback as [Hr2 _].
  change (elem_in (elems w) ?e) with (elem w e) in Hr1, Hr2.
  assert (w' = flipBack card1 card2 (set_pending (delete n) w)) as Hw'.
  { subst w'. cbn [step]. by rewrite Hn. }
  split. { intros ->. apply H1, list_elem_of_here. }
  split. { intros Hin. apply H1, list_elem_of_further, elem_of_app. by right. }
  split. { intros Hin. apply H2, elem_of_app. by right. }
  split; [|split; [|split]].
  - intros Hg. split; [by apply Hr1|]. rewrite Hw'.
    apply card_state_after_flipBack; [by left|].
    change (elem (set_pending ?f ?w0) ?e) with (elem w0 e).
    by rewrite Hr1.
  - intros Hg. split; [by apply Hr2|]. rewrite Hw'.
    apply card_state_after_flipBack; [by right|].
    change (elem (set_pending ?f ?w0) ?e) with (elem w0 e).
    by rewrite Hr2.
  - by rewrite Hw'.
  - intros e He1 He2. rewrite Hw'. unfold flipBack. cbv zeta.
    rewrite !elem_alter, !decide_False by (intros [? _]; congruence).
    done.
Qed.

Lemma flip_back_is_safe_witness :
  let w :=
    run zero_rnd (initialWorld ∅)
      [EvSubmit "ada" "ada@example.org"; EvClickCard 0; EvClickCard 1;
       EvTimeout 0; EvClickCard 2] in
  pending w = [TFlipBack 0 1]
  ∧ card_state (elem w 0) = revealed
  ∧ card_state (elem (step zero_rnd w (EvTimeout 0)) 0) = hidden
  ∧ flippedCards (gameState (step zero_rnd w (EvTimeout 0)))
    = flippedCards (gameState w).
Proof.
  intros w.
  assert (pending w = [TFlipBack 0 1]) as Hp by (vm_compute; reflexivity).
  assert (pending w !! 0 = Some (TFlipBack 0 1)) as Hn
    by (vm_compute; reflexivity).
  assert (0 ∈ gameGrid w) as Hg
    by (apply (bool_decide_unpack _); vm_compute; reflexivity).
  pose proof (flip_back_is_safe zero_rnd ∅
                [EvSubmit "ada" "ada@example.org"; EvClickCard 0;
                 EvClickCard 1; EvTimeout 0; EvClickCard 2] 0 0 1) as Hsafe.
  fold w in Hsafe. clearbody w.
  destruct (Hsafe Hn) as (_ & _ & _ & H0 & _ & Hfs & _).
  destruct (H0 Hg) as [Hr Hh].
  split; [exact Hp|]. split; [exact Hr|]. split; [exact Hh|exact Hfs].
Defined.

(** ** The shuffle determines its choices *)

Section Choices.
Context {A : Type}.
Implicit Types a : list (option A).

(** The steps from index [i] down leave the positions above [i] alone. *)
Lemma fisher_yates_from_above rnd k i a p :
  unit_draws rnd → i ≤ length a - 1 → i < p →
  fisher_yates_from rnd k i a !! p = a !! p.
Proof.
  intros Hrnd. revert k a. induction i as [|i IH]; intros k a Hi Hp; [done|].
  pose proof (random_index_in_range rnd Hrnd k (S i)) as Hj.
  rewrite fisher_yates_from_S, IH by (rewrite ?length_exchange; lia).
  rewrite exchange_lookup by lia.
  by rewrite !decide_False by lia.
Qed.

(** The step at index [i] puts there the element its partner held. *)
Lemma fisher_yates_from_top rnd k i a :
  unit_draws rnd → S i ≤ length a - 1 →
  fisher_yates_from rnd k (S i) a !! S i
  = a !! random_index (rnd k) (S i).
Proof.
  intros Hrnd Hi.
  pose proof (random_index_in_range rnd Hrnd k (S i)) as Hj.
  rewrite fisher_yates_from_S.
  rewrite fisher_yates_from_above by (rewrite ?length_exchange; lia || done).
  rewrite exchange_lookup by lia. by rewrite decide_True.
Qed.

Lemma fisher_yates_from_choices rnd1 rnd2 k1 k2 i a m :
  unit_draws rnd1 → unit_draws rnd2 →
  NoDup a → i ≤ length a - 1 →
  fisher_yates_from rnd1 k1 i a = fisher_yates_from rnd2 k2 i a →
  m < i →
  random_index (rnd1 (k1 + m)) (i - m) = random_index (rnd2 (k2 + m)) (i - m).
Proof.
  intros H1 H2. revert k1 k2 a m.
  induction i as [|i IH]; intros k1 k2 a m Hnd Hi Heq Hm; [lia|].
  pose proof (random_index_in_range rnd1 H1 k1 (S i)) as Hj1.
  pose proof (random_index_in_range rnd2 H2 k2 (S i)) as Hj2.
  assert (random_index (rnd1 k1) (S i) = random_index (rnd2 k2) (S i)) as Hj.
  { pose proof (f_equal (.!! S i) Heq) as Htop. cbn beta in Htop.
    rewrite !fisher_yates_from_top in Htop by done.
    destruct (lookup_lt_is_Some_2 a (random_index (rnd1 k1) (S i)))
      as [x Hx]; [lia|].
    rewrite Hx in Htop. by apply (NoDup_lookup a _ _ x). }
  destruct m as [|m].
  - by rewrite !Nat.add_0_r, Nat.sub_0_r.
  - rewrite !fisher_yates_from_S, <-Hj in Heq.
    replace (k1 + S m) with (S k1 + m) by lia.
    replace (k2 + S m) with (S k2 + m) by lia.
    replace (S i - S m) with (i - m) by lia.
    eapply IH; [| |exact Heq|lia].
    + rewrite exchange_Permutation; [done|lia..].
    + rewrite length_exchange. lia.
Qed.
End Choices.

(** X16. On an array without repeated elements, the result of
    [shuffleArray] determines every swap partner: two runs, with draws in
    range, that return the same arrangement chose the same partner at every
    index.  So each arrangement arises from exactly one sequence of
    partners, of which index [i] has [i + 1]. *)
Theorem shuffleArray_choices {A : Type} (rnd1 rnd2 : nat → Q)
    (k1 k2 : nat) (σ : list (list (option A))) (array m : nat) :
  unit_draws rnd1 → unit_draws rnd2 →
  NoDup (store_get σ array) →
  (let '(σ1, shuffled1, _) := shuffleArray rnd1 k1 σ array in
   let '(σ2, shuffled2, _) := shuffleArray rnd2 k2 σ array in
   store_get σ1 shuffled1 = store_get σ2 shuffled2) →
  m < length (store_get σ array) - 1 →
  random_index (rnd1 (k1 + m)) (length (store_get σ array) - 1 - m)
  = random_index (rnd2 (k2 + m)) (length (store_get σ array) - 1 - m).
Proof.
  intros H1 H2 Hnd. rewrite !shuffleArray_fisher_yates by done.
  rewrite !store_get_alloc. unfold fisher_yates. intros Heq Hm.
  by eapply fisher_yates_from_choices.
Qed.

Lemma shuffleArray_choices_witness :
  shuffleArray sample_rnd 0 [[Some "a"; Some "b"; Some "c"]] 0
  = ([[Some "a"; Some "b"; Some "c"]; [Some "b"; Some "a"; Some "c"]], 1, 2)
  ∧ shuffleArray sample_rnd 5 [[Some "a"; Some "b"; Some "c"]] 0
    = ([[Some "a"; Some "b"; Some "c"]; [Some "b"; Some "a"; Some "c"]], 1, 7)
  ∧ sample_rnd 0 ≠ sample_rnd 5
  ∧ random_index (sample_rnd 0) 2 = random_index (sample_rnd 5) 2.
Proof.
  split; [vm_compute; reflexivity|]. split; [vm_compute; reflexivity|].
  split; [by vm_compute|].
  apply (shuffleArray_choices sample_rnd sample_rnd 0 5
           [[Some "a"; Some "b"; Some "c"]] 0 0
           sample_rnd_unit sample_rnd_unit).
  - apply (bool_decide_unpack _). vm_compute; reflexivity.
  - vm_compute; reflexivity.
  - vm_compute; lia.
Defined.
